(** * Cruise Neon Crash: the round engine of [CruiseNeonCrash.tsx]

    A shallow embedding of the round engine of the React component
    [src/components/CruiseNeonCrash.tsx]: the multiplier sequencer
    ([planNextMultiplier]), the obstacle kinematics ([spawnWorldXFor], the
    scroll), the per-frame [loop] with its collision test and its two spawn
    paths, the round state machine ([startBettingPhase], [startRound]) and
    the ledger operations ([placeBet], [cancelBet], [cashOutNow]).

    Conventions of the embedding.
    - A JavaScript [number] is an exact rational ([Q]); [toFixed(2)] followed
      by [parseFloat] is rounding to the nearest hundredth, ties upwards.
    - Every [Math.random()], [Date.now()], [performance.now()] and frame
      timestamp is an explicit argument of the function that consumes it.
    - The component keeps most cells twice, as React state and as a ref that
      a [useEffect] copies from the state after each render.  Both cells are
      fields of [State]; [syncRefs] is the copy and [commit] is one render
      with its effects.  A handler reads exactly the cell the source reads.
    - Timers and the animation promise are events of the transition system
      ([Event], [handle]); the closure a timer callback captured is stored
      with the timer.  The lane and ship geometry is measured once, with the
      readiness signal.
    - The render is embedded as far as it decides what the player can do:
      the payout preview, the action button and the Space key.  The
      readiness gate of the layout ([measure], the load of the ship image)
      is embedded on its own, over the cells of the game.
    - Left out: the sound, the animations themselves, the countdown display
      of the betting window (the [countdown] cell and the interval that
      rewrites the message every second); none of them is read by the
      round engine. *)

From Stdlib Require Import String QArith Qround Qminmax Lqa ZArith Lia Bool List.
From Stdlib Require Import Sorting.Sorted.
Import ListNotations.
Open Scope Q_scope.


(** ** Numbers *)

(** [a < b] as a boolean. *)
Definition Qlt_bool (a b : Q) : bool := negb (Qle_bool b a).

(** [const clamp = (n, a, b) => Math.max(a, Math.min(b, n))] *)
Definition clamp (n a b : Q) : Q := Qmax a (Qmin b n).

(** [const rand = (min, max) => Math.random() * (max - min) + min]; the
    argument [u] is the value of [Math.random()]. *)
Definition rand (u min max : Q) : Q := u * (max - min) + min.

(** [parseFloat(x.toFixed(2))]: the multiple of 1/100 nearest to [x], the
    larger one on a tie. *)
Definition round2 (x : Q) : Q := Qfloor (x * 100 + (1 # 2)) # 100.

(** A value of [Math.random()]. *)
Definition unit_draw (u : Q) : Prop := 0 <= u /\ u < 1.

(** A number with at most two decimals. *)
Definition on_grid (x : Q) : Prop := exists n : Z, x == n # 100.

(** ** Types *)

(** [type Phase = "idle" | "betting" | "running" | "cashed" | "crashed" | "lifeboat"] *)
Inductive Phase : Set :=
| idle | betting | running | cashed | crashed | lifeboat.

Definition Phase_eqb (a b : Phase) : bool :=
  match a, b with
  | idle, idle | betting, betting | running, running
  | cashed, cashed | crashed, crashed | lifeboat, lifeboat => true
  | _, _ => false
  end.

(** The [state] field of an obstacle: ["idle" | "breaking"]. *)
Inductive ObState : Set := ob_idle | ob_breaking.

Definition is_idle (st : ObState) : bool :=
  match st with ob_idle => true | ob_breaking => false end.

(** [type Obstacle]; the fields carry the prefix [ob_]. *)
Record Obstacle : Set := mkObstacle {
  ob_id : string;
  ob_x : Q;
  ob_width : Q;
  ob_height : Q;
  ob_multiplier : Q;
  ob_iceberg : bool;
  ob_state : ObState;
  ob_bornAt : Q
}.

(** [{ ...o, state: "breaking" }] *)
Definition set_breaking (o : Obstacle) : Obstacle :=
  mkObstacle (ob_id o) (ob_x o) (ob_width o) (ob_height o) (ob_multiplier o)
             (ob_iceberg o) ob_breaking (ob_bornAt o).

Definition idle_count (l : list Obstacle) : nat :=
  length (filter (fun o => is_idle (ob_state o)) l).

(** The texts passed to [setMessage]. *)
Inductive Message : Set :=
| msg_empty
| msg_place_your_bet
| msg_insufficient_balance
| msg_sail_on
| msg_lifeboat
| msg_crashed
| msg_cashed_out
| msg_bet_canceled
| msg_insufficient_to_bet
| msg_bet_placed (stake : Q).

(** ** Constants of the component *)

Definition HIT_INTERVAL : Q := 2.
Definition SPEED_MULTIPLIER : Q := 15 # 10.
Definition SHIP_LEFT_PAD : Q := 0.
Definition SHIP_RIGHT_PAD : Q := 0.
Definition ICE_LEFT_PAD : Q := 50.
Definition ICE_RIGHT_PAD : Q := 0.

(** [icebergChance()] *)
Definition icebergChance : Q := 4 # 10.

(** ** Multiplier sequencer *)

(** The two refs [nextIndexRef] and [plannedMultRef]. *)
Record Sequencer : Set := mkSequencer {
  nextIndexRef : Z;
  plannedMultRef : Q
}.

(** The reset done at every round start. *)
Definition seq_reset : Sequencer := mkSequencer 1 1.

(** [planNextMultiplier]; [u] is the one [Math.random()] it draws.  The
    result is the returned multiplier and the updated refs. *)
Definition planNextMultiplier (u : Q) (q : Sequencer) : Q * Sequencer :=
  let idx := nextIndexRef q in
  let last := plannedMultRef q in
  let next :=
    if (idx =? 1)%Z then
      round2 (rand u (11 # 10) (13 # 10))
    else if ((2 <=? idx) && (idx <=? 5))%Z then
      let inc := rand u (5 # 100) (3 # 10) in
      let next := Qmin (21 # 10) (last + inc) in
      let next := if Qle_bool next last
                  then Qmin (21 # 10) (last + (5 # 100)) else next in
      round2 next
    else
      let inc := round2 (rand u 1 3) in
      round2 (last + inc) in
  (next, mkSequencer (idx + 1) next).

(** The multipliers of one round: the sequencer is reset and called once
    per draw. *)
Fixpoint plan_from (q : Sequencer) (us : list Q) : list Q * Sequencer :=
  match us with
  | [] => ([], q)
  | u :: us' =>
      let '(m, q') := planNextMultiplier u q in
      let '(ms, q'') := plan_from q' us' in
      (m :: ms, q'')
  end.

Definition round_multipliers (us : list Q) : list Q :=
  fst (plan_from seq_reset us).

(** ** The cells of the component *)

(** [shipBoundsRef.current]: the ship's left and right edge in the lane. *)
Record Bounds : Set := mkBounds {
  left : Q;
  right : Q
}.

(** The values of [balance] and [bet] of the render whose
    [startBettingPhase] armed the betting timer: the timer callback calls
    the [startRound] of that render. *)
Record Closure : Set := mkClosure {
  cl_balance : Q;
  cl_bet : Q
}.

(** The [useState] cells, the [useRef] cells and the pending callbacks.
    [seqRef] holds [nextIndexRef] and [plannedMultRef]; [rafRef] tells
    whether a frame callback is requested; [betTimeoutRef] is the armed
    5-second timer with what its callback captured; [startPending] is the
    continuation of [startRound] waiting for the ship animation, with the
    stake it captured; [sweepPending] is the 650 ms timer of [startRound]. *)
Record State : Set := mkState {
  phase : Phase;
  balance : Q;
  bet : Q;
  message : Message;
  collected : Q;
  safeHits : Z;
  obstacles : list Obstacle;
  activeBet : option Q;
  hasCashed : bool;
  joined : bool;
  activeBetRef : Q;
  hasCashedRef : bool;
  joinedRef : bool;
  phaseRef : Phase;
  collectedRef : Q;
  safeHitsRef : Z;
  obstaclesRef : list Obstacle;
  lastTsRef : option Q;
  speedRef : Q;
  spawnAccumRef : Q;
  scrollRef : Q;
  seqRef : Sequencer;
  shipBoundsRef : Bounds;
  laneWidthRef : Q;
  removalScheduledRef : list string;
  rafRef : bool;
  startedRef : bool;
  betTimeoutRef : option Closure;
  startPending : option Q;
  sweepPending : bool
}.

(** One setter per cell: [set_f v s] is [s] with the cell [f] holding [v]. *)
Definition set_phase (v : Phase) (s : State) : State :=
  mkState v (balance s) (bet s) (message s) (collected s) (safeHits s)
    (obstacles s) (activeBet s) (hasCashed s) (joined s) (activeBetRef s)
    (hasCashedRef s) (joinedRef s) (phaseRef s) (collectedRef s) (safeHitsRef
    s) (obstaclesRef s) (lastTsRef s) (speedRef s) (spawnAccumRef s)
    (scrollRef s) (seqRef s) (shipBoundsRef s) (laneWidthRef s)
    (removalScheduledRef s) (rafRef s) (startedRef s) (betTimeoutRef s)
    (startPending s) (sweepPending s).
Definition set_balance (v : Q) (s : State) : State :=
  mkState (phase s) v (bet s) (message s) (collected s) (safeHits s)
    (obstacles s) (activeBet s) (hasCashed s) (joined s) (activeBetRef s)
    (hasCashedRef s) (joinedRef s) (phaseRef s) (collectedRef s) (safeHitsRef
    s) (obstaclesRef s) (lastTsRef s) (speedRef s) (spawnAccumRef s)
    (scrollRef s) (seqRef s) (shipBoundsRef s) (laneWidthRef s)
    (removalScheduledRef s) (rafRef s) (startedRef s) (betTimeoutRef s)
    (startPending s) (sweepPending s).
Definition set_bet (v : Q) (s : State) : State :=
  mkState (phase s) (balance s) v (message s) (collected s) (safeHits s)
    (obstacles s) (activeBet s) (hasCashed s) (joined s) (activeBetRef s)
    (hasCashedRef s) (joinedRef s) (phaseRef s) (collectedRef s) (safeHitsRef
    s) (obstaclesRef s) (lastTsRef s) (speedRef s) (spawnAccumRef s)
    (scrollRef s) (seqRef s) (shipBoundsRef s) (laneWidthRef s)
    (removalScheduledRef s) (rafRef s) (startedRef s) (betTimeoutRef s)
    (startPending s) (sweepPending s).
Definition set_message (v : Message) (s : State) : State :=
  mkState (phase s) (balance s) (bet s) v (collected s) (safeHits s)
    (obstacles s) (activeBet s) (hasCashed s) (joined s) (activeBetRef s)
    (hasCashedRef s) (joinedRef s) (phaseRef s) (collectedRef s) (safeHitsRef
    s) (obstaclesRef s) (lastTsRef s) (speedRef s) (spawnAccumRef s)
    (scrollRef s) (seqRef s) (shipBoundsRef s) (laneWidthRef s)
    (removalScheduledRef s) (rafRef s) (startedRef s) (betTimeoutRef s)
    (startPending s) (sweepPending s).
Definition set_collected (v : Q) (s : State) : State :=
  mkState (phase s) (balance s) (bet s) (message s) v (safeHits s) (obstacles
    s) (activeBet s) (hasCashed s) (joined s) (activeBetRef s) (hasCashedRef
    s) (joinedRef s) (phaseRef s) (collectedRef s) (safeHitsRef s)
    (obstaclesRef s) (lastTsRef s) (speedRef s) (spawnAccumRef s) (scrollRef
    s) (seqRef s) (shipBoundsRef s) (laneWidthRef s) (removalScheduledRef s)
    (rafRef s) (startedRef s) (betTimeoutRef s) (startPending s)
    (sweepPending s).
Definition set_safeHits (v : Z) (s : State) : State :=
  mkState (phase s) (balance s) (bet s) (message s) (collected s) v
    (obstacles s) (activeBet s) (hasCashed s) (joined s) (activeBetRef s)
    (hasCashedRef s) (joinedRef s) (phaseRef s) (collectedRef s) (safeHitsRef
    s) (obstaclesRef s) (lastTsRef s) (speedRef s) (spawnAccumRef s)
    (scrollRef s) (seqRef s) (shipBoundsRef s) (laneWidthRef s)
    (removalScheduledRef s) (rafRef s) (startedRef s) (betTimeoutRef s)
    (startPending s) (sweepPending s).
Definition set_obstacles (v : list Obstacle) (s : State) : State :=
  mkState (phase s) (balance s) (bet s) (message s) (collected s) (safeHits
    s) v (activeBet s) (hasCashed s) (joined s) (activeBetRef s)
    (hasCashedRef s) (joinedRef s) (phaseRef s) (collectedRef s) (safeHitsRef
    s) (obstaclesRef s) (lastTsRef s) (speedRef s) (spawnAccumRef s)
    (scrollRef s) (seqRef s) (shipBoundsRef s) (laneWidthRef s)
    (removalScheduledRef s) (rafRef s) (startedRef s) (betTimeoutRef s)
    (startPending s) (sweepPending s).
Definition set_activeBet (v : option Q) (s : State) : State :=
  mkState (phase s) (balance s) (bet s) (message s) (collected s) (safeHits
    s) (obstacles s) v (hasCashed s) (joined s) (activeBetRef s)
    (hasCashedRef s) (joinedRef s) (phaseRef s) (collectedRef s) (safeHitsRef
    s) (obstaclesRef s) (lastTsRef s) (speedRef s) (spawnAccumRef s)
    (scrollRef s) (seqRef s) (shipBoundsRef s) (laneWidthRef s)
    (removalScheduledRef s) (rafRef s) (startedRef s) (betTimeoutRef s)
    (startPending s) (sweepPending s).
Definition set_hasCashed (v : bool) (s : State) : State :=
  mkState (phase s) (balance s) (bet s) (message s) (collected s) (safeHits
    s) (obstacles s) (activeBet s) v (joined s) (activeBetRef s)
    (hasCashedRef s) (joinedRef s) (phaseRef s) (collectedRef s) (safeHitsRef
    s) (obstaclesRef s) (lastTsRef s) (speedRef s) (spawnAccumRef s)
    (scrollRef s) (seqRef s) (shipBoundsRef s) (laneWidthRef s)
    (removalScheduledRef s) (rafRef s) (startedRef s) (betTimeoutRef s)
    (startPending s) (sweepPending s).
Definition set_joined (v : bool) (s : State) : State :=
  mkState (phase s) (balance s) (bet s) (message s) (collected s) (safeHits
    s) (obstacles s) (activeBet s) (hasCashed s) v (activeBetRef s)
    (hasCashedRef s) (joinedRef s) (phaseRef s) (collectedRef s) (safeHitsRef
    s) (obstaclesRef s) (lastTsRef s) (speedRef s) (spawnAccumRef s)
    (scrollRef s) (seqRef s) (shipBoundsRef s) (laneWidthRef s)
    (removalScheduledRef s) (rafRef s) (startedRef s) (betTimeoutRef s)
    (startPending s) (sweepPending s).
Definition set_activeBetRef (v : Q) (s : State) : State :=
  mkState (phase s) (balance s) (bet s) (message s) (collected s) (safeHits
    s) (obstacles s) (activeBet s) (hasCashed s) (joined s) v (hasCashedRef
    s) (joinedRef s) (phaseRef s) (collectedRef s) (safeHitsRef s)
    (obstaclesRef s) (lastTsRef s) (speedRef s) (spawnAccumRef s) (scrollRef
    s) (seqRef s) (shipBoundsRef s) (laneWidthRef s) (removalScheduledRef s)
    (rafRef s) (startedRef s) (betTimeoutRef s) (startPending s)
    (sweepPending s).
Definition set_hasCashedRef (v : bool) (s : State) : State :=
  mkState (phase s) (balance s) (bet s) (message s) (collected s) (safeHits
    s) (obstacles s) (activeBet s) (hasCashed s) (joined s) (activeBetRef s)
    v (joinedRef s) (phaseRef s) (collectedRef s) (safeHitsRef s)
    (obstaclesRef s) (lastTsRef s) (speedRef s) (spawnAccumRef s) (scrollRef
    s) (seqRef s) (shipBoundsRef s) (laneWidthRef s) (removalScheduledRef s)
    (rafRef s) (startedRef s) (betTimeoutRef s) (startPending s)
    (sweepPending s).
Definition set_joinedRef (v : bool) (s : State) : State :=
  mkState (phase s) (balance s) (bet s) (message s) (collected s) (safeHits
    s) (obstacles s) (activeBet s) (hasCashed s) (joined s) (activeBetRef s)
    (hasCashedRef s) v (phaseRef s) (collectedRef s) (safeHitsRef s)
    (obstaclesRef s) (lastTsRef s) (speedRef s) (spawnAccumRef s) (scrollRef
    s) (seqRef s) (shipBoundsRef s) (laneWidthRef s) (removalScheduledRef s)
    (rafRef s) (startedRef s) (betTimeoutRef s) (startPending s)
    (sweepPending s).
Definition set_phaseRef (v : Phase) (s : State) : State :=
  mkState (phase s) (balance s) (bet s) (message s) (collected s) (safeHits
    s) (obstacles s) (activeBet s) (hasCashed s) (joined s) (activeBetRef s)
    (hasCashedRef s) (joinedRef s) v (collectedRef s) (safeHitsRef s)
    (obstaclesRef s) (lastTsRef s) (speedRef s) (spawnAccumRef s) (scrollRef
    s) (seqRef s) (shipBoundsRef s) (laneWidthRef s) (removalScheduledRef s)
    (rafRef s) (startedRef s) (betTimeoutRef s) (startPending s)
    (sweepPending s).
Definition set_collectedRef (v : Q) (s : State) : State :=
  mkState (phase s) (balance s) (bet s) (message s) (collected s) (safeHits
    s) (obstacles s) (activeBet s) (hasCashed s) (joined s) (activeBetRef s)
    (hasCashedRef s) (joinedRef s) (phaseRef s) v (safeHitsRef s)
    (obstaclesRef s) (lastTsRef s) (speedRef s) (spawnAccumRef s) (scrollRef
    s) (seqRef s) (shipBoundsRef s) (laneWidthRef s) (removalScheduledRef s)
    (rafRef s) (startedRef s) (betTimeoutRef s) (startPending s)
    (sweepPending s).
Definition set_safeHitsRef (v : Z) (s : State) : State :=
  mkState (phase s) (balance s) (bet s) (message s) (collected s) (safeHits
    s) (obstacles s) (activeBet s) (hasCashed s) (joined s) (activeBetRef s)
    (hasCashedRef s) (joinedRef s) (phaseRef s) (collectedRef s) v
    (obstaclesRef s) (lastTsRef s) (speedRef s) (spawnAccumRef s) (scrollRef
    s) (seqRef s) (shipBoundsRef s) (laneWidthRef s) (removalScheduledRef s)
    (rafRef s) (startedRef s) (betTimeoutRef s) (startPending s)
    (sweepPending s).
Definition set_obstaclesRef (v : list Obstacle) (s : State) : State :=
  mkState (phase s) (balance s) (bet s) (message s) (collected s) (safeHits
    s) (obstacles s) (activeBet s) (hasCashed s) (joined s) (activeBetRef s)
    (hasCashedRef s) (joinedRef s) (phaseRef s) (collectedRef s) (safeHitsRef
    s) v (lastTsRef s) (speedRef s) (spawnAccumRef s) (scrollRef s) (seqRef
    s) (shipBoundsRef s) (laneWidthRef s) (removalScheduledRef s) (rafRef s)
    (startedRef s) (betTimeoutRef s) (startPending s) (sweepPending s).
Definition set_lastTsRef (v : option Q) (s : State) : State :=
  mkState (phase s) (balance s) (bet s) (message s) (collected s) (safeHits
    s) (obstacles s) (activeBet s) (hasCashed s) (joined s) (activeBetRef s)
    (hasCashedRef s) (joinedRef s) (phaseRef s) (collectedRef s) (safeHitsRef
    s) (obstaclesRef s) v (speedRef s) (spawnAccumRef s) (scrollRef s)
    (seqRef s) (shipBoundsRef s) (laneWidthRef s) (removalScheduledRef s)
    (rafRef s) (startedRef s) (betTimeoutRef s) (startPending s)
    (sweepPending s).
Definition set_speedRef (v : Q) (s : State) : State :=
  mkState (phase s) (balance s) (bet s) (message s) (collected s) (safeHits
    s) (obstacles s) (activeBet s) (hasCashed s) (joined s) (activeBetRef s)
    (hasCashedRef s) (joinedRef s) (phaseRef s) (collectedRef s) (safeHitsRef
    s) (obstaclesRef s) (lastTsRef s) v (spawnAccumRef s) (scrollRef s)
    (seqRef s) (shipBoundsRef s) (laneWidthRef s) (removalScheduledRef s)
    (rafRef s) (startedRef s) (betTimeoutRef s) (startPending s)
    (sweepPending s).
Definition set_spawnAccumRef (v : Q) (s : State) : State :=
  mkState (phase s) (balance s) (bet s) (message s) (collected s) (safeHits
    s) (obstacles s) (activeBet s) (hasCashed s) (joined s) (activeBetRef s)
    (hasCashedRef s) (joinedRef s) (phaseRef s) (collectedRef s) (safeHitsRef
    s) (obstaclesRef s) (lastTsRef s) (speedRef s) v (scrollRef s) (seqRef s)
    (shipBoundsRef s) (laneWidthRef s) (removalScheduledRef s) (rafRef s)
    (startedRef s) (betTimeoutRef s) (startPending s) (sweepPending s).
Definition set_scrollRef (v : Q) (s : State) : State :=
  mkState (phase s) (balance s) (bet s) (message s) (collected s) (safeHits
    s) (obstacles s) (activeBet s) (hasCashed s) (joined s) (activeBetRef s)
    (hasCashedRef s) (joinedRef s) (phaseRef s) (collectedRef s) (safeHitsRef
    s) (obstaclesRef s) (lastTsRef s) (speedRef s) (spawnAccumRef s) v
    (seqRef s) (shipBoundsRef s) (laneWidthRef s) (removalScheduledRef s)
    (rafRef s) (startedRef s) (betTimeoutRef s) (startPending s)
    (sweepPending s).
Definition set_seqRef (v : Sequencer) (s : State) : State :=
  mkState (phase s) (balance s) (bet s) (message s) (collected s) (safeHits
    s) (obstacles s) (activeBet s) (hasCashed s) (joined s) (activeBetRef s)
    (hasCashedRef s) (joinedRef s) (phaseRef s) (collectedRef s) (safeHitsRef
    s) (obstaclesRef s) (lastTsRef s) (speedRef s) (spawnAccumRef s)
    (scrollRef s) v (shipBoundsRef s) (laneWidthRef s) (removalScheduledRef
    s) (rafRef s) (startedRef s) (betTimeoutRef s) (startPending s)
    (sweepPending s).
Definition set_shipBoundsRef (v : Bounds) (s : State) : State :=
  mkState (phase s) (balance s) (bet s) (message s) (collected s) (safeHits
    s) (obstacles s) (activeBet s) (hasCashed s) (joined s) (activeBetRef s)
    (hasCashedRef s) (joinedRef s) (phaseRef s) (collectedRef s) (safeHitsRef
    s) (obstaclesRef s) (lastTsRef s) (speedRef s) (spawnAccumRef s)
    (scrollRef s) (seqRef s) v (laneWidthRef s) (removalScheduledRef s)
    (rafRef s) (startedRef s) (betTimeoutRef s) (startPending s)
    (sweepPending s).
Definition set_laneWidthRef (v : Q) (s : State) : State :=
  mkState (phase s) (balance s) (bet s) (message s) (collected s) (safeHits
    s) (obstacles s) (activeBet s) (hasCashed s) (joined s) (activeBetRef s)
    (hasCashedRef s) (joinedRef s) (phaseRef s) (collectedRef s) (safeHitsRef
    s) (obstaclesRef s) (lastTsRef s) (speedRef s) (spawnAccumRef s)
    (scrollRef s) (seqRef s) (shipBoundsRef s) v (removalScheduledRef s)
    (rafRef s) (startedRef s) (betTimeoutRef s) (startPending s)
    (sweepPending s).
Definition set_removalScheduledRef (v : list string) (s : State) : State :=
  mkState (phase s) (balance s) (bet s) (message s) (collected s) (safeHits
    s) (obstacles s) (activeBet s) (hasCashed s) (joined s) (activeBetRef s)
    (hasCashedRef s) (joinedRef s) (phaseRef s) (collectedRef s) (safeHitsRef
    s) (obstaclesRef s) (lastTsRef s) (speedRef s) (spawnAccumRef s)
    (scrollRef s) (seqRef s) (shipBoundsRef s) (laneWidthRef s) v (rafRef s)
    (startedRef s) (betTimeoutRef s) (startPending s) (sweepPending s).
Definition set_rafRef (v : bool) (s : State) : State :=
  mkState (phase s) (balance s) (bet s) (message s) (collected s) (safeHits
    s) (obstacles s) (activeBet s) (hasCashed s) (joined s) (activeBetRef s)
    (hasCashedRef s) (joinedRef s) (phaseRef s) (collectedRef s) (safeHitsRef
    s) (obstaclesRef s) (lastTsRef s) (speedRef s) (spawnAccumRef s)
    (scrollRef s) (seqRef s) (shipBoundsRef s) (laneWidthRef s)
    (removalScheduledRef s) v (startedRef s) (betTimeoutRef s) (startPending
    s) (sweepPending s).
Definition set_startedRef (v : bool) (s : State) : State :=
  mkState (phase s) (balance s) (bet s) (message s) (collected s) (safeHits
    s) (obstacles s) (activeBet s) (hasCashed s) (joined s) (activeBetRef s)
    (hasCashedRef s) (joinedRef s) (phaseRef s) (collectedRef s) (safeHitsRef
    s) (obstaclesRef s) (lastTsRef s) (speedRef s) (spawnAccumRef s)
    (scrollRef s) (seqRef s) (shipBoundsRef s) (laneWidthRef s)
    (removalScheduledRef s) (rafRef s) v (betTimeoutRef s) (startPending s)
    (sweepPending s).
Definition set_betTimeoutRef (v : option Closure) (s : State) : State :=
  mkState (phase s) (balance s) (bet s) (message s) (collected s) (safeHits
    s) (obstacles s) (activeBet s) (hasCashed s) (joined s) (activeBetRef s)
    (hasCashedRef s) (joinedRef s) (phaseRef s) (collectedRef s) (safeHitsRef
    s) (obstaclesRef s) (lastTsRef s) (speedRef s) (spawnAccumRef s)
    (scrollRef s) (seqRef s) (shipBoundsRef s) (laneWidthRef s)
    (removalScheduledRef s) (rafRef s) (startedRef s) v (startPending s)
    (sweepPending s).
Definition set_startPending (v : option Q) (s : State) : State :=
  mkState (phase s) (balance s) (bet s) (message s) (collected s) (safeHits
    s) (obstacles s) (activeBet s) (hasCashed s) (joined s) (activeBetRef s)
    (hasCashedRef s) (joinedRef s) (phaseRef s) (collectedRef s) (safeHitsRef
    s) (obstaclesRef s) (lastTsRef s) (speedRef s) (spawnAccumRef s)
    (scrollRef s) (seqRef s) (shipBoundsRef s) (laneWidthRef s)
    (removalScheduledRef s) (rafRef s) (startedRef s) (betTimeoutRef s) v
    (sweepPending s).
Definition set_sweepPending (v : bool) (s : State) : State :=
  mkState (phase s) (balance s) (bet s) (message s) (collected s) (safeHits
    s) (obstacles s) (activeBet s) (hasCashed s) (joined s) (activeBetRef s)
    (hasCashedRef s) (joinedRef s) (phaseRef s) (collectedRef s) (safeHitsRef
    s) (obstaclesRef s) (lastTsRef s) (speedRef s) (spawnAccumRef s)
    (scrollRef s) (seqRef s) (shipBoundsRef s) (laneWidthRef s)
    (removalScheduledRef s) (rafRef s) (startedRef s) (betTimeoutRef s)
    (startPending s) v.

(** The cells as the hooks initialise them. *)
Definition init : State :=
  mkState idle 1000 10 msg_empty 1 0%Z [] None false false
          0 false false idle 1 0%Z [] None 320 0 0 seq_reset
          (mkBounds 10 150) 980 [] false false
          None None false.

(** ** What the environment supplies *)

(** The draws of one obstacle literal: [Date.now()] and the random suffix
    of the id, the [Math.random()] of [planNextMultiplier], and the
    [Math.random()] compared with [icebergChance()]. *)
Record SpawnDraw : Set := mkSpawnDraw {
  sd_id : string;
  sd_mult : Q;
  sd_ice : Q
}.

(** One animation frame: the timestamp [ts], the survival draw of the crash
    handling, and the draws of the obstacle spawned in this frame, if any. *)
Record TickEnv : Set := mkTickEnv {
  te_ts : Q;
  te_crash : Q;
  te_spawn : SpawnDraw
}.

(** The round start: the draws of the two initial obstacles and the two
    values of [performance.now()]. *)
Record BeginEnv : Set := mkBeginEnv {
  be_first : SpawnDraw;
  be_second : SpawnDraw;
  be_now1 : Q;
  be_now2 : Q
}.

(** ** Kinematics *)

(** [spawnWorldXFor(k, shipRightNow, currentScroll)] *)
Definition spawnWorldXFor (k shipRightNow currentScroll : Q) (s : State) : Q :=
  shipRightNow - ICE_LEFT_PAD + currentScroll + speedRef s * (k * HIT_INTERVAL).

(** The obstacle literal of the three spawn sites. *)
Definition new_obstacle (d : SpawnDraw) (x m bornAt : Q) : Obstacle :=
  mkObstacle (sd_id d) x 220 110 m (Qlt_bool (sd_ice d) icebergChance)
             ob_idle bornAt.

(** [contact] of the collision loop, for the obstacle [o]. *)
Definition contact (scroll shipLeft shipRightNow : Q) (o : Obstacle) : bool :=
  let screenLeft := (ob_x o - scroll) + ICE_LEFT_PAD in
  let screenRight := (ob_x o - scroll) + ob_width o - ICE_RIGHT_PAD in
  Qle_bool screenLeft shipRightNow && Qle_bool shipLeft screenRight.

(** [fresh] of the collision loop. *)
Definition fresh (ts : Q) (o : Obstacle) : bool :=
  Qlt_bool (ts - ob_bornAt o) 250.

(** What the collision loop found: nothing, a safe hit on [o]
    ([safeHitThisFrame]), or an iceberg ([crashedNow]). *)
Inductive Contact : Set :=
| no_contact
| safe_hit (o : Obstacle)
| hazard_hit (o : Obstacle).

(** The [for] loop over [prev]: obstacles that are not idle are skipped and
    the loop ends at the first idle obstacle that is in contact and not
    fresh. *)
Fixpoint collide (ts scroll shipLeft shipRightNow : Q) (prev : list Obstacle)
  : Contact :=
  match prev with
  | [] => no_contact
  | o :: rest =>
      if negb (is_idle (ob_state o)) then
        collide ts scroll shipLeft shipRightNow rest
      else if negb (fresh ts o) && contact scroll shipLeft shipRightNow o then
        if ob_iceberg o then hazard_hit o else safe_hit o
      else collide ts scroll shipLeft shipRightNow rest
  end.

(** [prev.map((p) => (p.id === o.id ? { ...p, state: "breaking" } : p))] *)
Definition mark_breaking (o : Obstacle) (prev : list Obstacle) : list Obstacle :=
  map (fun p => if String.eqb (ob_id p) (ob_id o) then set_breaking p else p)
      prev.

(** ** Round state machine *)

(** [stopLoop] *)
Definition stopLoop (s : State) : State := set_rafRef false s.

(** [clearBettingTimers] *)
Definition clearBettingTimers (s : State) : State := set_betTimeoutRef None s.

(** [commitObstacles(next)] *)
Definition commitObstacles (next : list Obstacle) (s : State) : State :=
  set_obstacles next (set_obstaclesRef next s).

(** [startBettingPhase], called in the render whose values are [c]. *)
Definition startBettingPhase (c : Closure) (s : State) : State :=
  let s := stopLoop s in
  let s := clearBettingTimers s in
  let s := set_phase betting s in
  let s := set_phaseRef betting s in
  let s := set_hasCashed false s in
  let s := set_joined false s in
  let s := set_activeBet None s in
  let s := set_message msg_place_your_bet s in
  set_betTimeoutRef (Some c) s.

(** [startRound] up to the start of the ship animation; [c] holds the
    [balance] and [bet] the function closes over.  The stake is handed to
    the continuation [roundBegin] through [startPending]. *)
Definition startRound (c : Closure) (s : State) : State :=
  let minStake := 1 in
  if Qlt_bool (cl_balance c) minStake then
    startBettingPhase c (set_message msg_insufficient_balance s)
  else
    let stake := clamp (cl_bet c) minStake (cl_balance c) in
    let stake :=
      if joinedRef s && Qlt_bool 0 (activeBetRef s)
      then clamp (activeBetRef s) minStake (cl_balance c) else stake in
    if Phase_eqb (phaseRef s) running then s
    else
      let s := stopLoop s in
      let s := clearBettingTimers s in
      let s := set_obstacles (map set_breaking (obstacles s)) s in
      let s := set_sweepPending true s in
      set_startPending (Some stake) s.

(** The callback of [controls.start(...).then] in [startRound]: the round
    begins.  [stake] is the value [startRound] computed. *)
Definition roundBegin (stake : Q) (e : BeginEnv) (s : State) : State :=
  let s := set_phase running s in
  let s := set_phaseRef running s in
  let s := set_hasCashed false s in
  let s := set_collected 1 s in
  let s := set_safeHits 0%Z s in
  let s :=
    if joinedRef s then
      let s := set_activeBet (Some stake) s in
      let s := set_bet stake s in
      set_balance (balance s - stake) s
    else set_activeBet None s in
  let s := set_message msg_sail_on s in
  let s := set_seqRef seq_reset s in
  let s := set_scrollRef 0 s in
  let shipRight := right (shipBoundsRef s) in
  let laneW := laneWidthRef s in
  let margin := 12 in
  let s := set_speedRef (Qmax 60 ((laneW - margin - shipRight) / 4)) s in
  let s := set_speedRef (speedRef s * SPEED_MULTIPLIER) s in
  let baseX1 := spawnWorldXFor 1 (right (shipBoundsRef s)) (scrollRef s) s in
  let baseX2 := spawnWorldXFor 2 (right (shipBoundsRef s)) (scrollRef s) s in
  let '(m1, q1) := planNextMultiplier (sd_mult (be_first e)) (seqRef s) in
  let '(m2, q2) := planNextMultiplier (sd_mult (be_second e)) q1 in
  let s := set_seqRef q2 s in
  let s := set_obstacles
             [ new_obstacle (be_first e) baseX1 m1 (be_now1 e);
               new_obstacle (be_second e) baseX2 m2 (be_now2 e) ] s in
  let s := set_lastTsRef None s in
  let s := set_spawnAccumRef 0 s in
  set_rafRef true s.

(** ** The frame callback [loop] *)

(** The local variables of [loop] that outlive the collision loop. *)
Record Frame : Set := mkFrame {
  updated : list Obstacle;
  needCommit : bool;
  spawnedThisFrame : bool
}.

(** The effects of a safe hit on the counters: the two functional
    [setCollected] and [setSafeHits], which also write the refs. *)
Definition safeHit (o : Obstacle) (s : State) : State :=
  let nv := ob_multiplier o in
  let s := set_collectedRef nv (set_collected nv s) in
  let nh := (safeHits s + 1)%Z in
  set_safeHitsRef nh (set_safeHits nh s).

(** The crash outcome handling of [loop]; [r] is its [Math.random()].
    [needCommit] is false on this path (a safe hit ends the collision loop
    before an iceberg can be met), so no obstacle list is committed. *)
Definition crashOutcome (r : Q) (s : State) : State :=
  let s :=
    if Qlt_bool r (5 # 100) then
      let s := set_phase lifeboat s in
      let s :=
        if negb (hasCashedRef s) then
          let payout := activeBetRef s * collectedRef s in
          set_balance (balance s + payout) s
        else s in
      set_message msg_lifeboat s
    else
      let s := set_phase crashed s in
      set_message msg_crashed s in
  stopLoop s.

(** The statements shared by the two spawn paths: plan a multiplier, place
    the obstacle two intervals ahead and append it to [updated]. *)
Definition spawn (d : SpawnDraw) (ts : Q) (s : State) (upd : list Obstacle)
  : State * list Obstacle :=
  let '(m, q) := planNextMultiplier (sd_mult d) (seqRef s) in
  let s := set_seqRef q s in
  let x := spawnWorldXFor 2 (right (shipBoundsRef s)) (scrollRef s) s in
  (s, upd ++ [new_obstacle d x m ts]).

(** 3a) the immediate replacement on a safe hit. *)
Definition replacementSpawn (d : SpawnDraw) (ts : Q) (safeHitThisFrame : bool)
    (sf : State * Frame) : State * Frame :=
  let '(s, f) := sf in
  let idleCount := idle_count (updated f) in
  if safeHitThisFrame && (idleCount <? 2)%nat then
    let '(s, upd) := spawn d ts s (updated f) in
    (set_spawnAccumRef 0 s, mkFrame upd true true)
  else sf.

(** The test of the [while] of the cadence spawns. *)
Definition cadenceGuard (idleNow : nat) (sf : State * Frame) : bool :=
  negb (spawnedThisFrame (snd sf))
  && Qle_bool HIT_INTERVAL (spawnAccumRef (fst sf))
  && (idleNow <? 2)%nat.

(** 3b) the cadence spawns: the [while] loop, one unfolding per unit of
    [fuel]; [cadenceSpawns_fuel] shows that one unit is enough. *)
Fixpoint cadenceSpawns (fuel : nat) (d : SpawnDraw) (ts : Q) (idleNow : nat)
    (sf : State * Frame) : State * Frame :=
  if cadenceGuard idleNow sf then
    match fuel with
    | O => sf
    | S fuel' =>
        let '(s, upd) := spawn d ts (fst sf) (updated (snd sf)) in
        let s := set_spawnAccumRef (spawnAccumRef s - HIT_INTERVAL) s in
        cadenceSpawns fuel' d ts (S idleNow) (s, mkFrame upd true true)
    end
  else sf.

(** 4) the ids added to [removalScheduledRef] by the [forEach]. *)
Definition scheduleRemovals (upd : list Obstacle) (sched : list string)
  : list string :=
  fold_left
    (fun acc o =>
       if negb (is_idle (ob_state o))
          && negb (existsb (String.eqb (ob_id o)) acc)
       then acc ++ [ob_id o] else acc)
    upd sched.

(** 5) the off-screen cull. *)
Definition cull (sf : State * Frame) : State * Frame :=
  let '(s, f) := sf in
  let culled :=
    filter (fun o => Qlt_bool (-40) ((ob_x o - scrollRef s) + ob_width o))
           (updated f) in
  if negb (length culled =? length (updated f))%nat
  then (s, mkFrame culled true (spawnedThisFrame f))
  else sf.

(** The time step of a frame: [Math.min(0.05, (ts - lastTsRef.current) / 1000)],
    after [lastTsRef] was set to [ts] when it was null. *)
Definition frame_dt (ts : Q) (s : State) : Q :=
  let last := match lastTsRef s with Some t => t | None => ts end in
  Qmin (5 # 100) ((ts - last) / 1000).

(** The scroll and the spawn accumulator advance. *)
Definition advance (ts : Q) (s : State) : State :=
  let dt := frame_dt ts s in
  let s := set_lastTsRef (Some ts) s in
  let s := set_spawnAccumRef (spawnAccumRef s + dt) s in
  set_scrollRef (scrollRef s + speedRef s * dt) s.

(** The collision loop of a frame, on the state after [advance]. *)
Definition frame_contact (ts : Q) (s : State) : Contact :=
  let shipLeft := left (shipBoundsRef s) + SHIP_LEFT_PAD in
  let shipRightNow := right (shipBoundsRef s) + SHIP_RIGHT_PAD in
  collide ts (scrollRef s) shipLeft shipRightNow (obstaclesRef s).

(** The part of [loop] after the crash handling: the two spawn paths, the
    removal schedule, the cull and the commit. *)
Definition frame_spawns (e : TickEnv) (safeHitThisFrame : bool)
    (sf : State * Frame) : State * Frame :=
  let sf := replacementSpawn (te_spawn e) (te_ts e) safeHitThisFrame sf in
  let idleNow := idle_count (updated (snd sf)) in
  cadenceSpawns 1 (te_spawn e) (te_ts e) idleNow sf.

Definition frame_finish (sf : State * Frame) : State :=
  let '(s, f) := sf in
  let s := set_removalScheduledRef
             (scheduleRemovals (updated f) (removalScheduledRef s)) s in
  let '(s, f) := cull (s, f) in
  let s := if needCommit f then commitObstacles (updated f) s else s in
  set_rafRef true s.

(** [loop(ts)] *)
Definition loop (e : TickEnv) (s : State) : State :=
  if negb (Phase_eqb (phaseRef s) running) then set_rafRef true s
  else
    let s := advance (te_ts e) s in
    let prev := obstaclesRef s in
    match frame_contact (te_ts e) s with
    | hazard_hit _ => crashOutcome (te_crash e) s
    | safe_hit o =>
        let s := safeHit o s in
        frame_finish
          (frame_spawns e true (s, mkFrame (mark_breaking o prev) true false))
    | no_contact =>
        frame_finish (frame_spawns e false (s, mkFrame prev false false))
    end.

(** ** Ledger operations *)

(** [cashOutNow] *)
Definition cashOutNow (s : State) : State :=
  if negb (Phase_eqb (phaseRef s) running) then s
  else if negb (joinedRef s) then s
  else if hasCashedRef s then s
  else
    let payout := activeBetRef s * collectedRef s in
    let s := set_balance (balance s + payout) s in
    let s := set_hasCashed true s in
    set_message msg_cashed_out s.

(** [cancelBet] *)
Definition cancelBet (s : State) : State :=
  if negb (Phase_eqb (phaseRef s) betting) then s
  else if negb (joinedRef s) then s
  else
    let s := set_joined false s in
    let s := set_activeBet None s in
    set_message msg_bet_canceled s.

(** [placeBet] *)
Definition placeBet (s : State) : State :=
  if negb (Phase_eqb (phaseRef s) betting) then s
  else
    let stake := clamp (bet s) 1 (balance s) in
    if Qlt_bool stake 1 then set_message msg_insufficient_to_bet s
    else
      let s := set_joined true s in
      let s := set_activeBet (Some stake) s in
      let s := set_bet stake s in
      set_message (msg_bet_placed stake) s.

(** ** Renders and events *)

(** The effects that copy a state cell into its ref. *)
Definition syncRefs (s : State) : State :=
  let s := set_activeBetRef
             (match activeBet s with Some a => a | None => 0 end) s in
  let s := set_hasCashedRef (hasCashed s) s in
  let s := set_joinedRef (joined s) s in
  let s := set_phaseRef (phase s) s in
  let s := set_safeHitsRef (safeHits s) s in
  let s := set_collectedRef (collected s) s in
  set_obstaclesRef (obstacles s) s.

(** The effect on [phase]: after a round ends the betting window opens. *)
Definition phaseEffect (s : State) : State :=
  match phase s with
  | crashed | lifeboat =>
      startBettingPhase (mkClosure (balance s) (bet s)) s
  | _ => s
  end.

(** A render with its effects, and the render the phase effect causes. *)
Definition commit (s : State) : State :=
  syncRefs (phaseEffect (syncRefs s)).

(** What can happen to the component. *)
Inductive Event : Set :=
| ev_ready (laneW : Q) (b : Bounds)
| ev_bet_input (v : Q)
| ev_bet_double
| ev_bet_halve
| ev_place_bet
| ev_cancel_bet
| ev_cash_out
| ev_bet_timeout
| ev_round_begin (e : BeginEnv)
| ev_frame (e : TickEnv)
| ev_sweep
| ev_removal (id : string).

(** The bet controls are [disabled] unless this holds. *)
Definition bet_editable (s : State) : bool :=
  Phase_eqb (phase s) betting && negb (joined s).

(** The handler of each event.
    - [ev_ready]: [measure] stores the geometry and the effect on [ready]
      opens the first betting window;
    - [ev_bet_input], [ev_bet_double], [ev_bet_halve]: the bet field and its
      two buttons;
    - [ev_bet_timeout]: the callback of the 5-second timer;
    - [ev_round_begin]: the continuation of [startRound];
    - [ev_frame]: a frame callback;
    - [ev_sweep]: the 650 ms timer of [startRound];
    - [ev_removal]: the 950 ms timer of a breaking obstacle. *)
Definition handle (ev : Event) (s : State) : State :=
  match ev with
  | ev_ready laneW b =>
      if negb (startedRef s) && Phase_eqb (phaseRef s) idle then
        let s := set_laneWidthRef laneW s in
        let s := set_shipBoundsRef b s in
        let s := set_startedRef true s in
        startBettingPhase (mkClosure (balance s) (bet s)) s
      else s
  | ev_bet_input v =>
      if bet_editable s then set_bet (clamp v 1 (balance s)) s else s
  | ev_bet_double =>
      if bet_editable s then set_bet (clamp (bet s * 2) 1 (balance s)) s
      else s
  | ev_bet_halve =>
      if bet_editable s
      then set_bet (Qmax 1 (inject_Z (Qfloor (bet s / 2)))) s else s
  | ev_place_bet => placeBet s
  | ev_cancel_bet => cancelBet s
  | ev_cash_out => cashOutNow s
  | ev_bet_timeout =>
      match betTimeoutRef s with
      | Some c => startRound c (clearBettingTimers s)
      | None => s
      end
  | ev_round_begin e =>
      match startPending s with
      | Some stake => roundBegin stake e (set_startPending None s)
      | None => s
      end
  | ev_frame e => if rafRef s then loop e s else s
  | ev_sweep =>
      if sweepPending s then
        let s := set_obstacles
                   (filter (fun o => is_idle (ob_state o)) (obstacles s)) s in
        set_sweepPending false s
      else s
  | ev_removal id =>
      if existsb (String.eqb id) (removalScheduledRef s) then
        let next :=
          filter (fun k => negb (String.eqb (ob_id k) id)) (obstaclesRef s) in
        let s := commitObstacles next s in
        set_removalScheduledRef
          (filter (fun k => negb (String.eqb k id)) (removalScheduledRef s)) s
      else s
  end.

(** An event and the render that follows it. *)
Definition step (ev : Event) (s : State) : State := commit (handle ev s).

(** A sequence of events. *)
Definition run (evs : list Event) (s : State) : State :=
  fold_left (fun s ev => step ev s) evs s.

(** What is assumed of the environment: the random draws are values of
    [Math.random()] and the clock does not run backwards. *)
Definition valid_event (ev : Event) (s : State) : Prop :=
  match ev with
  | ev_round_begin e =>
      unit_draw (sd_mult (be_first e)) /\ unit_draw (sd_mult (be_second e))
      /\ be_now1 e <= be_now2 e
  | ev_frame e =>
      unit_draw (sd_mult (te_spawn e)) /\ unit_draw (te_crash e)
      /\ (forall t, lastTsRef s = Some t -> t <= te_ts e)
      /\ (forall o, In o (obstaclesRef s) -> ob_bornAt o <= te_ts e)
  | _ => True
  end.

Fixpoint valid_run (evs : list Event) (s : State) : Prop :=
  match evs with
  | [] => True
  | ev :: rest => valid_event ev s /\ valid_run rest (step ev s)
  end.

(** ** What the render shows *)

(** [payoutPreview]: [(joined && activeBet ? activeBet : 0) * collected];
    a null [activeBet] and the number 0 are falsy. *)
Definition payoutPreview (s : State) : Q :=
  (if joined s then
     match activeBet s with
     | Some a => if Qeq_bool a 0 then 0 else a
     | None => 0
     end
   else 0) * collected s.

(** The buttons of the dynamic action button: [Place Bet] calls [placeBet],
    [Cancel Bet] calls [cancelBet], [Cash Out] calls [cashOutNow], and
    [Wait for next round] is disabled. *)
Inductive Button : Set :=
| btn_place_bet
| btn_cancel_bet
| btn_cash_out
| btn_wait.

(** The three conditional blocks of the action button, in the order of the
    render: the one of the betting window, the one of a running round and
    the one of the phases ["crashed"], ["lifeboat"] and ["idle"]. *)
Definition actionButtons (s : State) : list Button :=
  (if Phase_eqb (phase s) betting
   then [if negb (joined s) then btn_place_bet else btn_cancel_bet]
   else [])
  ++ (if Phase_eqb (phase s) running
      then [if joined s && negb (hasCashed s) then btn_cash_out else btn_wait]
      else [])
  ++ (if Phase_eqb (phase s) crashed || Phase_eqb (phase s) lifeboat
         || Phase_eqb (phase s) idle
      then [btn_wait]
      else []).

(** The [onClick] of a button; a disabled button has none. *)
Definition click (b : Button) (s : State) : State :=
  match b with
  | btn_place_bet => placeBet s
  | btn_cancel_bet => cancelBet s
  | btn_cash_out => cashOutNow s
  | btn_wait => s
  end.


(** ** Layout readiness *)

(** A [DOMRect], as far as [measure] reads it. *)
Record Rect : Set := mkRect {
  rect_left : Q;
  rect_right : Q;
  rect_width : Q
}.

(** The lane element: its [clientWidth] and its bounding rectangle. *)
Record Lane : Set := mkLane {
  clientWidth : Q;
  lane_rect : Rect
}.

(** What [measure] finds in the document: the lane element and the
    bounding rectangle of the ship element, [None] while the ref of the
    element is null. *)
Record Dom : Set := mkDom {
  dom_lane : option Lane;
  dom_ship : option Rect
}.

(** The cells of the component together with those of the readiness gate:
    [shipLoadedRef], [measuredReadyRef] and the state [ready]. *)
Record Page : Set := mkPage {
  game : State;
  shipLoadedRef : bool;
  measuredReadyRef : bool;
  ready : bool
}.

Definition page_init : Page := mkPage init false false false.

(** [setReady(v)] *)
Definition setReady (v : bool) (p : Page) : Page :=
  mkPage (game p) (shipLoadedRef p) (measuredReadyRef p) v.

(** [measure]; [d] is the document at the time of the call. *)
Definition measure (d : Dom) (p : Page) : Page :=
  let g := game p in
  let g := match dom_lane d with
           | Some lane => set_laneWidthRef (clientWidth lane) g
           | None => g
           end in
  match dom_lane d, dom_ship d with
  | Some lane, Some shipRect =>
      let laneRect := lane_rect lane in
      let g := set_shipBoundsRef
                 (mkBounds (rect_left shipRect - rect_left laneRect)
                           (rect_right shipRect - rect_left laneRect)) g in
      if Qlt_bool 0 (rect_width shipRect) && Qlt_bool 0 (rect_width laneRect)
      then
        let p := mkPage g (shipLoadedRef p) true (ready p) in
        setReady (shipLoadedRef p && measuredReadyRef p) p
      else mkPage g (shipLoadedRef p) (measuredReadyRef p) (ready p)
  | _, _ => mkPage g (shipLoadedRef p) (measuredReadyRef p) (ready p)
  end.

(** [onLoad] of the ship image; the [resize] event it dispatches runs the
    listener [measure]. *)
Definition shipLoaded (d : Dom) (p : Page) : Page :=
  let p := mkPage (game p) true (measuredReadyRef p) (ready p) in
  let p := measure d p in
  setReady (measuredReadyRef p && shipLoadedRef p) p.

(** The test and the body shared by the effect on [ready] and by the
    300 ms timer of the mount effect; [r] is the value of [ready] the
    caller sees. *)
Definition readyGate (r : bool) (p : Page) : Page :=
  let g := game p in
  if r && negb (startedRef g) && Phase_eqb (phaseRef g) idle then
    let g := set_startedRef true g in
    mkPage (startBettingPhase (mkClosure (balance g) (bet g)) g)
           (shipLoadedRef p) (measuredReadyRef p) (ready p)
  else p.

(** The layout events: a call of [measure] (at mount, in the next frame,
    or on [resize]), the load of the ship image, and the timer of the mount
    effect. *)
Inductive LayoutEvent : Set :=
| le_measure (d : Dom)
| le_ship_loaded (d : Dom)
| le_mount_timer.

(** The callback of the mount timer closes over the [ready] of the first
    render, which is [false]. *)
Definition layout_handle (ev : LayoutEvent) (p : Page) : Page :=
  match ev with
  | le_measure d => measure d p
  | le_ship_loaded d => shipLoaded d p
  | le_mount_timer => readyGate false p
  end.

(** A layout event and the render that follows it: the effect on [ready]
    runs when [ready] has changed, then the effects of [commit]. *)
Definition layout_step (ev : LayoutEvent) (p : Page) : Page :=
  let p1 := layout_handle ev p in
  let p2 := if Bool.eqb (ready p) (ready p1) then p1
            else readyGate (ready p1) p1 in
  mkPage (commit (game p2)) (shipLoadedRef p2) (measuredReadyRef p2)
         (ready p2).

Definition layout_run (evs : list LayoutEvent) (p : Page) : Page :=
  fold_left (fun p ev => layout_step ev p) evs p.

(** ** Evaluation of the cells

    [cells] computes, by value, the cell accessors and setters and the
    handlers built from them (all but [loop] and [roundBegin]); the
    arithmetic stays folded. *)
Ltac cells :=
  cbv beta iota zeta delta
   [phase balance bet message collected safeHits obstacles activeBet
    hasCashed joined activeBetRef hasCashedRef joinedRef phaseRef
    collectedRef safeHitsRef obstaclesRef lastTsRef speedRef spawnAccumRef
    scrollRef seqRef shipBoundsRef laneWidthRef removalScheduledRef rafRef
    startedRef betTimeoutRef startPending sweepPending set_phase set_balance
    set_bet set_message set_collected set_safeHits set_obstacles
    set_activeBet set_hasCashed set_joined set_activeBetRef set_hasCashedRef
    set_joinedRef set_phaseRef set_collectedRef set_safeHitsRef
    set_obstaclesRef set_lastTsRef set_speedRef set_spawnAccumRef
    set_scrollRef set_seqRef set_shipBoundsRef set_laneWidthRef
    set_removalScheduledRef set_rafRef set_startedRef set_betTimeoutRef
    set_startPending set_sweepPending stopLoop clearBettingTimers
    commitObstacles startBettingPhase startRound safeHit crashOutcome advance
    frame_dt cashOutNow cancelBet placeBet syncRefs phaseEffect commit handle
    step bet_editable
    fst snd].

(** * Vocabulary of the properties *)

(** ** The multiplier sequencer *)

(** What holds of the sequencer refs between two calls within a round. *)
Definition seq_ok (q : Sequencer) : Prop :=
  (1 <= nextIndexRef q)%Z
  /\ on_grid (plannedMultRef q)
  /\ 1 <= plannedMultRef q
  /\ ((nextIndexRef q = 1)%Z -> plannedMultRef q == 1)
  /\ ((nextIndexRef q <= 5)%Z -> plannedMultRef q <= 21 # 10).

(** The bounds of one call, by the index of the call. *)
Definition plan_bounds (i : Z) (prev v : Q) : Prop :=
  ((i = 1)%Z -> 11 # 10 <= v /\ v <= 13 # 10)
  /\ ((2 <= i <= 5)%Z ->
      v <= 21 # 10 /\ prev <= v /\ (prev < 21 # 10 -> prev < v))
  /\ ((6 <= i)%Z -> prev + 1 <= v).

(** ** Renders *)

(** After a render every ref holds the value of its state cell. *)
Definition synced (s : State) : Prop :=
  activeBetRef s = match activeBet s with Some a => a | None => 0 end
  /\ hasCashedRef s = hasCashed s
  /\ joinedRef s = joined s
  /\ phaseRef s = phase s
  /\ collectedRef s = collected s
  /\ obstaclesRef s = obstacles s.

(** The cells of the ledger, the phase and the timers: what the obstacle
    bookkeeping of a frame leaves alone. *)
Definition ledger_cells (s : State) :=
  (phase s, balance s, bet s, activeBet s, hasCashed s, joined s,
   (activeBetRef s, hasCashedRef s, joinedRef s, phaseRef s),
   (betTimeoutRef s, startPending s, startedRef s),
   (shipBoundsRef s, laneWidthRef s, speedRef s)).

(** ** What a render does to the cells *)

(** Whether a round has just ended in [s]. *)
Definition round_over (s : State) : bool :=
  match phase s with crashed | lifeboat => true | _ => false end.

(** The cells a render never writes. *)
Definition world_cells (s : State) :=
  (collected s, safeHits s, obstacles s, bet s,
   (lastTsRef s, speedRef s, spawnAccumRef s, scrollRef s, seqRef s),
   (shipBoundsRef s, laneWidthRef s, removalScheduledRef s, startedRef s,
    sweepPending s)).

(** ** Phase and timers *)

(** What holds of the phase and of the two pending callbacks after a
    handler ran: the phase is never ["cashed"]; the betting timer is armed
    only in the betting window, with the balance of that window in its
    closure; the continuation of [startRound] waits only in the betting
    window, with a stake between 1 and the balance. *)
Definition timers_pre (s : State) : Prop :=
  phase s <> cashed
  /\ (forall c, betTimeoutRef s = Some c ->
        phase s = betting /\ startPending s = None
        /\ cl_balance c = balance s)
  /\ (forall stake, startPending s = Some stake ->
        phase s = betting /\ 1 <= stake /\ stake <= balance s).

(** The same after the render: the two round-end phases have been left. *)
Definition timers_ok (s : State) : Prop :=
  timers_pre s /\ round_over s = false.

(** ** The ledger during a round *)

(** Whether the event is a frame in which an iceberg is hit. *)
Definition crashes (ev : Event) (s : State) : bool :=
  match ev with
  | ev_frame e =>
      rafRef s && Phase_eqb (phaseRef s) running
      && match frame_contact (te_ts e) (advance (te_ts e) s) with
         | hazard_hit _ => true
         | _ => false
         end
  | _ => false
  end.

(** Whether a cash-out is accepted. *)
Definition cashOut_valid (s : State) : bool :=
  Phase_eqb (phaseRef s) running && joinedRef s && negb (hasCashedRef s).

(** ** Cash-out *)


(** ** A frame in closed form *)

(** Whether the replacement path (3a) spawns. *)
Definition replaces (safeHitThisFrame : bool) (base : list Obstacle) : bool :=
  safeHitThisFrame && (idle_count base <? 2)%nat.

(** Whether the cadence path (3b) spawns, when 3a did not. *)
Definition cadences (accum : Q) (base : list Obstacle) : bool :=
  Qle_bool HIT_INTERVAL accum && (idle_count base <? 2)%nat.

(** The test of the off-screen cull. *)
Definition on_screen (scroll : Q) (o : Obstacle) : bool :=
  Qlt_bool (-40) ((ob_x o - scroll) + ob_width o).

(** The cells of the simulation other than the obstacle lists. *)
Definition motion_cells (s : State) :=
  (collected s, collectedRef s, seqRef s, scrollRef s, spawnAccumRef s,
   lastTsRef s).

(** What the collision loop leaves in [updated]. *)
Definition frame_base (c : Contact) (prev : list Obstacle) : list Obstacle :=
  match c with
  | safe_hit o => mark_breaking o prev
  | _ => prev
  end.

Definition is_safe_hit (c : Contact) : bool :=
  match c with safe_hit _ => true | _ => false end.

(** Whether the frame spawns an obstacle; [s1] is the state after
    [advance]. *)
Definition frame_spawned (c : Contact) (s1 : State) : bool :=
  let base := frame_base c (obstaclesRef s1) in
  replaces (is_safe_hit c) base || cadences (spawnAccumRef s1) base.

(** The obstacle a frame spawns. *)
Definition frame_new (e : TickEnv) (s1 : State) : Obstacle :=
  new_obstacle (te_spawn e)
    (spawnWorldXFor 2 (right (shipBoundsRef s1)) (scrollRef s1) s1)
    (fst (planNextMultiplier (sd_mult (te_spawn e)) (seqRef s1))) (te_ts e).

(** The obstacle list a frame without a crash ends with. *)
Definition frame_obstacles (e : TickEnv) (c : Contact) (s1 : State)
  : list Obstacle :=
  let base := frame_base c (obstaclesRef s1) in
  filter (on_screen (scrollRef s1))
         (if frame_spawned c s1 then base ++ [frame_new e s1] else base).

(** ** Placing a bet *)

(** The draws of a round whose first obstacle is an iceberg (its draw 0.1
    is below [icebergChance]); the planned multipliers are 1.20 and
    1.40. *)
Definition all_in_draws : BeginEnv :=
  mkBeginEnv (mkSpawnDraw "a" (1 # 2) (1 # 10))
             (mkSpawnDraw "b" (3 # 5) (9 # 10)) 1000 1000.

(** [n] frames with the timestamps [ts], [ts + dts], ...; each has the
    survival draw [r], and a spawn in it is a safe obstacle. *)
Fixpoint frames (n : nat) (ts dts : Q) (r : Q) : list Event :=
  match n with
  | O => []
  | S n' =>
      ev_frame (mkTickEnv ts r (mkSpawnDraw "c" (3 # 5) (9 # 10)))
      :: frames n' (ts + dts) dts r
  end.

(** A run that ends in a betting window with an empty balance: the player
    stakes the whole balance of 1000 and the round starts; with a frame
    every 45 ms the iceberg is reached in the 46th frame, at 2.025 s, and
    the survival draw is 0.5. *)
Definition all_in_run : list Event :=
  [ev_ready 980 (mkBounds 24 354); ev_bet_input 1000; ev_place_bet;
   ev_bet_timeout; ev_round_begin all_in_draws]
  ++ frames 46 1000 45 (1 # 2).

(** ** The world of a round *)

(** The order in which obstacles are spawned shows in their multiplier,
    their position and their time of birth. *)
Definition ob_le (a b : Obstacle) : Prop :=
  ob_multiplier a <= ob_multiplier b
  /\ ob_x a <= ob_x b
  /\ ob_bornAt a <= ob_bornAt b.

(** The obstacle is wholly to the left of the ship's hitbox. *)
Definition passed (scroll shipLeft : Q) (o : Obstacle) : Prop :=
  (ob_x o - scroll) + ob_width o - ICE_RIGHT_PAD < shipLeft.

(** What holds of each obstacle: its multiplier is at least 1 and at most
    the last planned one, it is not further away than a fresh spawn, and
    when it is idle its multiplier is not below the collected one unless
    the obstacle has passed the ship. *)
Definition ob_ok (planned xmax coll scroll shipLeft : Q) (o : Obstacle)
  : Prop :=
  1 <= ob_multiplier o
  /\ ob_multiplier o <= planned
  /\ ob_x o <= xmax
  /\ (ob_state o = ob_idle ->
      coll <= ob_multiplier o \/ passed scroll shipLeft o).

(** *** The invariant of the world *)

(** Where [spawnWorldXFor] puts an obstacle spawned now. *)
Definition xmax_of (s : State) : Q :=
  spawnWorldXFor 2 (right (shipBoundsRef s)) (scrollRef s) s.

(** [shipLeft] of the frame callback. *)
Definition shipLeft_of (s : State) : Q :=
  left (shipBoundsRef s) + SHIP_LEFT_PAD.

Definition world_ok (s : State) : Prop :=
  seq_ok (seqRef s)
  /\ 0 < speedRef s
  /\ 1 <= collected s
  /\ collected s <= plannedMultRef (seqRef s)
  /\ StronglySorted ob_le (obstacles s)
  /\ Forall (ob_ok (plannedMultRef (seqRef s)) (xmax_of s) (collected s)
                   (scrollRef s) (shipLeft_of s)) (obstacles s)
  /\ (phase s = idle -> obstacles s = []).

(** The cells [world_ok] reads. *)
Definition world_view (s : State) :=
  (seqRef s, speedRef s, collected s, obstacles s, scrollRef s,
   shipBoundsRef s).

(** ** The ledger *)

(** The locked stake is at least 1, and there is none unless the player
    joined. *)
Definition stake_ok (s : State) : Prop :=
  (forall a, activeBet s = Some a -> 1 <= a)
  /\ (joined s = false -> activeBet s = None).

(** [activeBet * collected], with 0 for a null [activeBet]. *)
Definition payout (s : State) : Q :=
  (match activeBet s with Some a => a | None => 0 end) * collected s.

(** The three ways in which an event changes the balance. *)
Definition deducts_stake (ev : Event) (s : State) (stake : Q) : Prop :=
  (exists e, ev = ev_round_begin e)
  /\ startPending s = Some stake /\ joined s = true /\ phase s = betting.

Definition credits_cash_out (ev : Event) (s : State) : Prop :=
  ev = ev_cash_out
  /\ phase s = running /\ joined s = true /\ hasCashed s = false.

Definition credits_lifeboat (ev : Event) (s : State) : Prop :=
  (exists e, ev = ev_frame e /\ te_crash e < 5 # 100)
  /\ crashes ev s = true /\ phase s = running /\ hasCashed s = false.

(** The invariants of a state of a run together. *)
Definition all_ok (s : State) : Prop :=
  synced s /\ timers_ok s /\ world_ok s /\ stake_ok s /\ 0 <= balance s.

(** ** Arrival of a spawned obstacle *)

(** The frames between a spawn and a contact move the world as [advance]
    does: the timestamps [tss] of the frames, one after the other. *)
Fixpoint advance_all (tss : list Q) (s : State) : State :=
  match tss with
  | [] => s
  | ts :: rest => advance_all rest (advance ts s)
  end.

(** The simulated time of these frames: the sum of their [dt]. *)
Fixpoint sim_time (tss : list Q) (s : State) : Q :=
  match tss with
  | [] => 0
  | ts :: rest => frame_dt ts s + sim_time rest (advance ts s)
  end.


(** The width of the window of scroll offsets in which the two hitboxes
    overlap. *)
Definition hit_span (s : State) (o : Obstacle) : Q :=
  (right (shipBoundsRef s) + SHIP_RIGHT_PAD - shipLeft_of s)
  + (ob_width o - ICE_RIGHT_PAD - ICE_LEFT_PAD).

(** ** Checking a run *)

Definition unit_drawb (u : Q) : bool := Qle_bool 0 u && Qlt_bool u 1.

Definition valid_eventb (ev : Event) (s : State) : bool :=
  match ev with
  | ev_round_begin e =>
      unit_drawb (sd_mult (be_first e)) && unit_drawb (sd_mult (be_second e))
      && Qle_bool (be_now1 e) (be_now2 e)
  | ev_frame e =>
      unit_drawb (sd_mult (te_spawn e)) && unit_drawb (te_crash e)
      && match lastTsRef s with
         | Some t => Qle_bool t (te_ts e)
         | None => true
         end
      && forallb (fun o => Qle_bool (ob_bornAt o) (te_ts e)) (obstaclesRef s)
  | _ => true
  end.

Fixpoint valid_runb (evs : list Event) (s : State) : bool :=
  match evs with
  | [] => true
  | ev :: rest => valid_eventb ev s && valid_runb rest (step ev s)
  end.

(** ** A round played through *)

(** The draws of the scenarios of the specification: the first obstacle is
    safe with multiplier 1.20, the second one is an iceberg with multiplier
    1.40. *)
Definition scenario_draws : BeginEnv :=
  mkBeginEnv (mkSpawnDraw "a" (1 # 2) (9 # 10))
             (mkSpawnDraw "b" (3 # 5) (1 # 10)) 1000 1000.

(** The player joins with the bet of 10 and the round starts. *)
Definition scenario_start : list Event :=
  [ev_ready 980 (mkBounds 24 354); ev_place_bet; ev_bet_timeout;
   ev_round_begin scenario_draws].

(** A frame every 45 ms, the first one with [dt = 0]: after 45 frames the
    simulated time is 1.98 s and the first obstacle is not yet reached. *)
Definition scenario_approach : list Event :=
  scenario_start ++ frames 45 1000 45 (1 # 100).

(** The 46th frame, at 2.025 s: the first obstacle is hit. *)
Definition scenario_hit_frame : TickEnv :=
  mkTickEnv 3025 (1 # 100) (mkSpawnDraw "c" (3 # 5) (9 # 10)).

Definition scenario_hit : list Event :=
  scenario_start ++ frames 46 1000 45 (1 # 100).

(** After 89 frames the simulated time is 3.96 s and the second obstacle
    is not yet reached. *)
Definition scenario_sail : list Event :=
  scenario_start ++ frames 89 1000 45 (1 # 100).

(** The 90th frame, at 4.005 s, with the survival draw [r]: the second
    obstacle is hit. *)
Definition scenario_frame (r : Q) : TickEnv :=
  mkTickEnv 5005 r (mkSpawnDraw "c" (3 # 5) (9 # 10)).

(** The second obstacle of the round. *)
Definition scenario_iceberg : Obstacle :=
  nth 1 (obstacles (run scenario_start init))
      (mkObstacle EmptyString 0 0 0 0 false ob_idle 0).

(** The first obstacle of the round. *)
Definition scenario_first : Obstacle :=
  nth 0 (obstacles (run scenario_start init))
      (mkObstacle EmptyString 0 0 0 0 false ob_idle 0).

(** The timestamps of [n] frames. *)
Fixpoint stamps (n : nat) (ts dts : Q) : list Q :=
  match n with
  | O => []
  | S n' => ts :: stamps n' (ts + dts) dts
  end.

(** ** The growth of the multipliers *)

(** The planned value in terms of the index of the next call. *)
Definition growth_ok (q : Sequencer) : Prop :=
  let i := nextIndexRef q in
  let p := plannedMultRef q in
  ((2 <= i)%Z -> 11 # 10 <= p)
  /\ ((2 <= i <= 6)%Z -> p <= 21 # 10)
  /\ ((6 <= i)%Z ->
      (11 # 10) + inject_Z (i - 6) <= p
      /\ p <= (21 # 10) + 3 * inject_Z (i - 6)).

(** ** The bet field *)

(** What holds of the bet field: it is at least 1; while the player is
    joined it shows the locked stake; and in the betting window a locked
    stake does not exceed a balance of at least 1. *)
Definition bet_ok (s : State) : Prop :=
  1 <= bet s
  /\ (joined s = true -> activeBet s = Some (bet s))
  /\ (phase s = betting -> 1 <= balance s ->
      forall a, activeBet s = Some a -> a <= balance s).

(** ** The hit counter *)

(** The counters a frame writes besides the obstacle lists. *)
Definition hit_cells (s : State) := (safeHits s, safeHitsRef s).

(** What holds of the hit counter: it counts from 0, it does not exceed
    the number of obstacles planned in the round less the idle ones still
    in the lane, and before the first hit the collected multiplier
    is 1. *)
Definition hits_ok (s : State) : Prop :=
  (0 <= safeHits s)%Z
  /\ (safeHits s + Z.of_nat (idle_count (obstacles s))
      <= nextIndexRef (seqRef s) - 1)%Z
  /\ (safeHits s = 0%Z -> collected s = 1).

(** ** The balance over a round *)


(** ** The simulated time *)

(** The timestamps of successive frames do not decrease; [t0] is the one
    before the first. *)
Fixpoint clock_ok (t0 : Q) (tss : list Q) : Prop :=
  match tss with
  | [] => True
  | t :: rest => t0 <= t /\ clock_ok t rest
  end.

(** The timestamp of the last frame before [tss]: the one of the first
    frame of [tss] when there was none. *)
Definition clock_start (s : State) (tss : list Q) : Q :=
  match lastTsRef s with
  | Some t => t
  | None => hd 0 tss
  end.

(** ** Where obstacles are spawned *)

(** The speed [startRound] computes from the geometry. *)
Definition speed_of_lane (s : State) : Q :=
  Qmax 60 ((laneWidthRef s - 12 - right (shipBoundsRef s)) / 4)
  * SPEED_MULTIPLIER.

(** While a round runs the speed is the one computed at its start. *)
Definition speed_ok (s : State) : Prop :=
  phase s = running -> speedRef s = speed_of_lane s.

(** ** The removal of breaking ice *)

(** What holds of the removal schedule: no id is in it twice, and unless
    the sweep of [startRound] is pending every breaking obstacle of the
    list has its removal scheduled. *)
Definition removal_ok (s : State) : Prop :=
  NoDup (removalScheduledRef s)
  /\ (sweepPending s = false ->
      forall o, In o (obstacles s) -> ob_state o = ob_breaking ->
        In (ob_id o) (removalScheduledRef s)).

(** ** The collision loop *)

(** The test the collision loop makes of an obstacle: idle, not fresh and
    in contact. *)
Definition hits (ts scroll shipLeft shipRightNow : Q) (o : Obstacle) : bool :=
  is_idle (ob_state o) && negb (fresh ts o)
  && contact scroll shipLeft shipRightNow o.

(** ** Layout readiness *)

(** The game cells with the lane width [w] and the ship bounds [b]
    stored in them. *)
Definition with_geometry (w : Q) (b : Bounds) (g : State) : State :=
  set_shipBoundsRef b (set_laneWidthRef w g).

(** The game cells before and after the first betting window has opened,
    but for the geometry. *)
Definition gate_state (r : bool) : State :=
  if r then step (ev_ready 980 (mkBounds 10 150)) init else init.

(** What holds of a page after layout events only. *)
Definition layout_ok (p : Page) : Prop :=
  ready p = shipLoadedRef p && measuredReadyRef p
  /\ exists w b, game p = with_geometry w b (gate_state (ready p)).

(** ** The pending callbacks *)

(** Which callback is pending in which phase: a frame callback is
    requested exactly while a round runs; in the betting window the betting
    timer is armed or the continuation of [startRound] is waiting; in the
    idle phase the game has not started and nothing is pending. *)
Definition live_ok (s : State) : Prop :=
  (rafRef s = true <-> phase s = running)
  /\ (phase s = betting -> betTimeoutRef s <> None \/ startPending s <> None)
  /\ (phase s = idle ->
      startedRef s = false /\ betTimeoutRef s = None
      /\ startPending s = None).

(** The one-shot guard is set only in the round of a joined player, and a
    player is joined only in the betting window and in the round; the two
    round-end phases count with the round until the render has left
    them. *)
Definition flags_ok (s : State) : Prop :=
  (hasCashed s = true ->
   joined s = true /\ (phase s = running \/ round_over s = true))
  /\ (joined s = true ->
      phase s = betting \/ phase s = running \/ round_over s = true).

(** ** Tactics *)

(** A constant with at most two decimals, given in hundredths. *)
Ltac grid_const n := exists n; reflexivity.

Ltac case_if :=
  match goal with
  | |- context [if ?b then _ else _] => destruct b eqn:?
  end.

Ltac open_state s :=
  destruct s as [? ? ? ? ? ? ? ? ? ? ? ? ? ? ? ? ? ? ? ? ? ? ? ? ? ? ? ? ? ?].

Ltac settle :=
  unfold spawnWorldXFor in *;
  cbn [scrollRef collected collectedRef seqRef spawnAccumRef lastTsRef
       obstaclesRef obstacles shipBoundsRef speedRef set_spawnAccumRef
       set_seqRef safeHit set_collected set_collectedRef set_safeHits
       set_safeHitsRef updated needCommit spawnedThisFrame] in *;
  repeat split; congruence.

(** Split a conjunction into its parts, and nothing else. *)
Ltac splits := repeat match goal with |- _ /\ _ => split end.

(** The cells of a state under names of their own. *)
Ltac open_cells s :=
  destruct s as
    [c_phase c_balance c_bet c_message c_collected c_safeHits c_obstacles
     c_activeBet c_hasCashed c_joined c_activeBetRef c_hasCashedRef
     c_joinedRef c_phaseRef c_collectedRef c_safeHitsRef c_obstaclesRef
     c_lastTsRef c_speedRef c_spawnAccumRef c_scrollRef c_seqRef
     c_shipBoundsRef c_laneWidthRef c_removalScheduledRef c_rafRef
     c_startedRef c_betTimeoutRef c_startPending c_sweepPending].

(** Case analysis on the test of a conditional, the equation named [H]. *)
Ltac case_if_eq H :=
  match goal with
  | |- context [if ?b then _ else _] => destruct b eqn:H
  end.

(** One case of a layout event: the geometry [w], [b] the page ends with. *)
Ltac layout_case w b :=
  split; [reflexivity|]; exists w, b; vm_compute; reflexivity.

(** * Properties *)

(** ** Arithmetic of the helpers *)

Lemma Qlt_bool_iff (a b : Q) : Qlt_bool a b = true <-> a < b.
Proof.
  unfold Qlt_bool. rewrite negb_true_iff. split; intro H.
  - apply Qnot_le_lt. intro L. apply Qle_bool_iff in L. congruence.
  - destruct (Qle_bool b a) eqn:E; [|reflexivity].
    apply Qle_bool_iff in E. apply Qle_not_lt in E. contradiction.
Qed.

Lemma Qlt_bool_false (a b : Q) : Qlt_bool a b = false <-> b <= a.
Proof.
  unfold Qlt_bool. rewrite negb_false_iff. apply Qle_bool_iff.
Qed.

Lemma Qle_bool_false (a b : Q) : Qle_bool a b = false <-> b < a.
Proof.
  split; intro H.
  - apply Qnot_le_lt. intro L. apply Qle_bool_iff in L. congruence.
  - destruct (Qle_bool a b) eqn:E; [|reflexivity].
    apply Qle_bool_iff in E. apply Qle_not_lt in E. contradiction.
Qed.

Lemma Phase_eqb_eq (a b : Phase) : Phase_eqb a b = true <-> a = b.
Proof. destruct a, b; simpl; split; intro H; congruence. Qed.

Lemma Phase_eqb_refl (a : Phase) : Phase_eqb a a = true.
Proof. destruct a; reflexivity. Qed.

Lemma hundredths_le (n m : Z) : (n <= m)%Z <-> n # 100 <= m # 100.
Proof. unfold Qle; simpl. lia. Qed.

Lemma round2_on_grid (x : Q) : on_grid (round2 x).
Proof. exists (Qfloor (x * 100 + (1 # 2))). reflexivity. Qed.

Lemma round2_mono (x y : Q) : x <= y -> round2 x <= round2 y.
Proof.
  intro H. unfold round2. apply (proj1 (hundredths_le _ _)).
  apply Qfloor_resp_le. lra.
Qed.

Lemma Qfloor_half (n : Z) : Qfloor (inject_Z n + (1 # 2)) = n.
Proof.
  pose proof (Qfloor_le (inject_Z n + (1 # 2))) as L.
  pose proof (Qlt_floor (inject_Z n + (1 # 2))) as U.
  set (k := Qfloor (inject_Z n + (1 # 2))) in *.
  rewrite inject_Z_plus in U. change (inject_Z 1) with 1 in U.
  assert (Lz : (k < n + 1)%Z).
  { rewrite Zlt_Qlt, inject_Z_plus. change (inject_Z 1) with 1. lra. }
  assert (Uz : (n < k + 1)%Z).
  { rewrite Zlt_Qlt, inject_Z_plus. change (inject_Z 1) with 1. lra. }
  lia.
Qed.

Lemma round2_fix (x : Q) : on_grid x -> round2 x == x.
Proof.
  intros [n Hn]. unfold round2.
  assert (E : x * 100 + (1 # 2) == inject_Z n + (1 # 2)).
  { rewrite Hn. unfold inject_Z, Qeq; simpl. lia. }
  rewrite (Qfloor_comp _ _ E), Qfloor_half. symmetry. exact Hn.
Qed.

Lemma round2_lower (g x : Q) : on_grid g -> g <= x -> g <= round2 x.
Proof.
  intros G H. rewrite <- (round2_fix _ G). now apply round2_mono.
Qed.

Lemma round2_upper (g x : Q) : on_grid g -> x <= g -> round2 x <= g.
Proof.
  intros G H. rewrite <- (round2_fix _ G). now apply round2_mono.
Qed.

Lemma on_grid_plus (a b : Q) : on_grid a -> on_grid b -> on_grid (a + b).
Proof.
  intros [n Hn] [m Hm]. exists (n + m)%Z. rewrite Hn, Hm.
  unfold Qeq, Qplus; simpl. lia.
Qed.

Lemma on_grid_hundredths (n : Z) : on_grid (n # 100).
Proof. exists n. reflexivity. Qed.

Lemma on_grid_Z (n : Z) : on_grid (inject_Z n).
Proof. exists (n * 100)%Z. unfold inject_Z, Qeq; simpl. lia. Qed.

Lemma on_grid_eq (a b : Q) : a == b -> on_grid a -> on_grid b.
Proof. intros E [n Hn]. exists n. now rewrite <- E. Qed.

Lemma on_grid_min (a b : Q) : on_grid a -> on_grid b -> on_grid (Qmin a b).
Proof.
  intros Ga Gb. destruct (Q.min_spec a b) as [[_ E]|[_ E]];
    eapply on_grid_eq; try (symmetry; exact E); assumption.
Qed.

Lemma clamp_bounds (n a b : Q) : a <= b -> a <= clamp n a b /\ clamp n a b <= b.
Proof.
  intro H. unfold clamp.
  destruct (Q.max_spec a (Qmin b n)) as [[L E]|[L E]];
    destruct (Q.min_spec b n) as [[L' E']|[L' E']]; lra.
Qed.

Lemma clamp_lower (n a b : Q) : a <= clamp n a b.
Proof. unfold clamp. apply Q.le_max_l. Qed.

Create HintDb grid.
#[local] Hint Resolve round2_on_grid on_grid_plus on_grid_hundredths on_grid_Z
  on_grid_min : grid.

(** ** The multiplier sequencer *)

Section Sequencer.

Lemma seq_reset_ok : seq_ok seq_reset.
Proof.
  unfold seq_ok, seq_reset; simpl.
  split; [lia|]. split; [exists 100%Z; reflexivity|].
  split; [lra|]. split; intro; lra.
Qed.

Variable u : Q.
Hypothesis Hu : unit_draw u.

Lemma plan_first (q : Sequencer) :
  (nextIndexRef q = 1)%Z ->
  let v := fst (planNextMultiplier u q) in
  11 # 10 <= v /\ v <= 13 # 10.
Proof.
  intros E. unfold planNextMultiplier. rewrite E. simpl fst.
  destruct Hu as [U0 U1]. unfold rand. split.
  - apply round2_lower; [grid_const 110%Z|]. lra.
  - apply round2_upper; [grid_const 130%Z|]. lra.
Qed.

Lemma plan_early (q : Sequencer) :
  (2 <= nextIndexRef q <= 5)%Z ->
  on_grid (plannedMultRef q) ->
  let v := fst (planNextMultiplier u q) in
  v <= 21 # 10
  /\ (plannedMultRef q <= 21 # 10 -> plannedMultRef q <= v)
  /\ (plannedMultRef q < 21 # 10 -> plannedMultRef q < v).
Proof.
  intros I G. unfold planNextMultiplier.
  assert (E1 : (nextIndexRef q =? 1)%Z = false) by (apply Z.eqb_neq; lia).
  assert (E2 : ((2 <=? nextIndexRef q) && (nextIndexRef q <=? 5))%Z = true).
  { apply andb_true_iff. split; apply Z.leb_le; lia. }
  rewrite E1, E2. simpl fst.
  destruct Hu as [U0 U1]. unfold rand.
  set (last := plannedMultRef q) in *.
  set (inc := u * ((3 # 10) - (5 # 100)) + (5 # 100)).
  assert (Hinc : 5 # 100 <= inc) by (unfold inc; lra).
  set (g := Qmin (21 # 10) (last + (5 # 100))).
  assert (Gg : on_grid g).
  { unfold g. apply on_grid_min; [grid_const 210%Z|].
    apply on_grid_plus; [assumption|grid_const 5%Z]. }
  assert (G21 : on_grid (21 # 10)) by grid_const 210%Z.
  set (next0 := Qmin (21 # 10) (last + inc)).
  assert (Hg0 : g <= next0).
  { unfold g, next0.
    destruct (Q.min_spec (21 # 10) (last + (5 # 100))) as [[? E]|[? E]];
      destruct (Q.min_spec (21 # 10) (last + inc)) as [[? E']|[? E']]; lra. }
  assert (Hg21 : g <= 21 # 10) by (unfold g; apply Q.le_min_l).
  assert (H021 : next0 <= 21 # 10) by (unfold next0; apply Q.le_min_l).
  assert (Hlast : last <= 21 # 10 -> last <= g).
  { intro. unfold g.
    destruct (Q.min_spec (21 # 10) (last + (5 # 100))) as [[? E]|[? E]]; lra. }
  assert (Hlast' : last < 21 # 10 -> last < g).
  { intro. unfold g.
    destruct (Q.min_spec (21 # 10) (last + (5 # 100))) as [[? E]|[? E]]; lra. }
  destruct (Qle_bool next0 last) eqn:B.
  - apply Qle_bool_iff in B. fold g. split; [|split].
    + now apply round2_upper.
    + intro L. specialize (Hlast L).
      apply Qle_trans with g; [assumption|].
      apply round2_lower; [assumption|apply Qle_refl].
    + intro L. specialize (Hlast' L). lra.
  - apply Qle_bool_false in B. split; [|split].
    + now apply round2_upper.
    + intro L. specialize (Hlast L).
      apply Qle_trans with g; [assumption|]. now apply round2_lower.
    + intro L. specialize (Hlast' L).
      apply Qlt_le_trans with g; [assumption|]. now apply round2_lower.
Qed.

Lemma plan_late (q : Sequencer) :
  (nextIndexRef q <> 1)%Z -> ~ (2 <= nextIndexRef q <= 5)%Z ->
  on_grid (plannedMultRef q) ->
  let v := fst (planNextMultiplier u q) in
  plannedMultRef q + 1 <= v.
Proof.
  intros N1 N2 G. unfold planNextMultiplier.
  assert (E1 : (nextIndexRef q =? 1)%Z = false) by (apply Z.eqb_neq; lia).
  assert (E2 : ((2 <=? nextIndexRef q) && (nextIndexRef q <=? 5))%Z = false).
  { apply andb_false_iff.
    destruct (Z.leb_spec 2 (nextIndexRef q)); [right|left; reflexivity].
    apply Z.leb_gt. lia. }
  rewrite E1, E2. simpl fst.
  destruct Hu as [U0 U1]. unfold rand.
  set (inc := round2 (u * (3 - 1) + 1)).
  assert (Hinc : 1 <= inc).
  { unfold inc. apply round2_lower; [grid_const 100%Z|]. lra. }
  assert (Gs : on_grid (plannedMultRef q + inc)).
  { apply on_grid_plus; [assumption|apply round2_on_grid]. }
  rewrite (round2_fix _ Gs). lra.
Qed.

Lemma plan_result (q : Sequencer) :
  planNextMultiplier u q
  = (fst (planNextMultiplier u q),
     mkSequencer (nextIndexRef q + 1) (fst (planNextMultiplier u q))).
Proof. reflexivity. Qed.

Lemma plan_on_grid (q : Sequencer) : on_grid (fst (planNextMultiplier u q)).
Proof.
  unfold planNextMultiplier. simpl fst.
  destruct (nextIndexRef q =? 1)%Z; [apply round2_on_grid|].
  destruct ((2 <=? nextIndexRef q) && (nextIndexRef q <=? 5))%Z;
    apply round2_on_grid.
Qed.

(** One call from a state that satisfies [seq_ok]: the bounds hold, the
    planned value does not decrease, and [seq_ok] holds again. *)
Lemma plan_step (q : Sequencer) :
  seq_ok q ->
  let v := fst (planNextMultiplier u q) in
  plan_bounds (nextIndexRef q) (plannedMultRef q) v
  /\ plannedMultRef q <= v
  /\ seq_ok (snd (planNextMultiplier u q)).
Proof.
  intros (I & G & L1 & F & C). cbv zeta.
  assert (B : plan_bounds (nextIndexRef q) (plannedMultRef q)
                          (fst (planNextMultiplier u q))).
  { unfold plan_bounds. split; [|split].
    - intro E. now apply plan_first.
    - intro R. destruct (plan_early q R G) as (P1 & P2 & P3).
      split; [exact P1|]. split; [|exact P3]. apply P2, C. lia.
    - intro R. apply plan_late; try assumption; lia. }
  assert (M : plannedMultRef q <= fst (planNextMultiplier u q)).
  { destruct B as (B1 & B2 & B3).
    destruct (Z.eq_dec (nextIndexRef q) 1) as [E|N].
    - specialize (B1 E). specialize (F E). clear - B1 F. lra.
    - destruct (Z_le_gt_dec (nextIndexRef q) 5).
      + apply B2. lia.
      + assert (H : (6 <= nextIndexRef q)%Z) by lia.
        specialize (B3 H). clear - B3. lra. }
  split; [exact B|]. split; [exact M|].
  rewrite plan_result. unfold seq_ok. cbn [nextIndexRef plannedMultRef snd].
  split; [lia|]. split; [apply plan_on_grid|].
  split; [clear - L1 M; lra|].
  split; [intro; lia|].
  intro I5. destruct B as (B1 & B2 & _).
  destruct (Z.eq_dec (nextIndexRef q) 1) as [E|N].
  - specialize (B1 E). clear - B1. lra.
  - apply B2. lia.
Qed.

End Sequencer.

(** *** The sequence of one round *)

Lemma plan_from_app (q : Sequencer) (us : list Q) (u : Q) :
  plan_from q (us ++ [u])
  = (fst (plan_from q us) ++ [fst (planNextMultiplier u (snd (plan_from q us)))],
     snd (planNextMultiplier u (snd (plan_from q us)))).
Proof.
  revert q. induction us as [|a us IH]; intro q.
  - reflexivity.
  - cbn [app plan_from]. rewrite (plan_result a q).
    rewrite IH. destruct (plan_from _ us) as [ms q'']. reflexivity.
Qed.

Lemma plan_from_index (q : Sequencer) (us : list Q) :
  nextIndexRef (snd (plan_from q us))
  = (nextIndexRef q + Z.of_nat (length us))%Z.
Proof.
  revert q. induction us as [|a us IH]; intro q.
  - simpl. lia.
  - cbn [plan_from]. rewrite (plan_result a q).
    specialize (IH (mkSequencer (nextIndexRef q + 1)
                                (fst (planNextMultiplier a q)))).
    destruct (plan_from _ us) as [ms q'']. cbn [snd] in *. rewrite IH.
    cbn [nextIndexRef length]. lia.
Qed.

Lemma last_cons_default (A : Type) (l : list A) (a d : A) :
  last (a :: l) d = last l a.
Proof.
  revert a d. induction l as [|b l IH]; intros a d; [reflexivity|].
  change (last (a :: b :: l) d) with (last (b :: l) d).
  rewrite IH. symmetry. apply IH.
Qed.

Lemma plan_from_last (q : Sequencer) (us : list Q) :
  plannedMultRef (snd (plan_from q us))
  = last (fst (plan_from q us)) (plannedMultRef q).
Proof.
  revert q. induction us as [|a us IH]; intro q.
  - reflexivity.
  - cbn [plan_from]. rewrite (plan_result a q).
    specialize (IH (mkSequencer (nextIndexRef q + 1)
                                (fst (planNextMultiplier a q)))).
    destruct (plan_from _ us) as [ms q'']. cbn [fst snd] in *.
    rewrite last_cons_default. exact IH.
Qed.

Lemma plan_from_ok (q : Sequencer) (us : list Q) :
  seq_ok q -> Forall unit_draw us -> seq_ok (snd (plan_from q us)).
Proof.
  revert q. induction us as [|a us IH]; intros q Hq Hus.
  - exact Hq.
  - inversion Hus as [|? ? Ha Hrest]; subst.
    cbn [plan_from]. rewrite (plan_result a q).
    destruct (plan_step _ Ha _ Hq) as (_ & _ & Hq').
    rewrite plan_result in Hq'. cbn [snd] in Hq'.
    specialize (IH _ Hq' Hrest).
    destruct (plan_from _ us) as [ms q'']. exact IH.
Qed.

(** C2, amended.  In the multipliers of a round, the value of call
    [i] (the one generated after the [i - 1] values of [us]) has two
    decimals; for [i = 1] it lies in [1.10, 1.30]; for [2 <= i <= 5] it is
    at most 2.10, not below the previous value, and strictly above it
    whenever the previous value is below 2.10; for [i >= 6] it exceeds the
    previous value by at least 1.00. *)
Theorem round_multipliers_bounds (us : list Q) (u : Q) :
  Forall unit_draw us -> unit_draw u ->
  let i := (Z.of_nat (length us) + 1)%Z in
  let prev := last (round_multipliers us) 1 in
  exists v,
    round_multipliers (us ++ [u]) = round_multipliers us ++ [v]
    /\ on_grid v
    /\ ((i = 1)%Z -> 11 # 10 <= v /\ v <= 13 # 10)
    /\ ((2 <= i <= 5)%Z ->
        v <= 21 # 10 /\ prev <= v /\ (prev < 21 # 10 -> prev < v))
    /\ ((6 <= i)%Z -> prev + 1 <= v).
Proof.
  intros Hus Hu i prev.
  set (q := snd (plan_from seq_reset us)).
  exists (fst (planNextMultiplier u q)).
  assert (Hq : seq_ok q) by (apply plan_from_ok; [apply seq_reset_ok|assumption]).
  assert (Hi : nextIndexRef q = i).
  { unfold q, i. rewrite plan_from_index. unfold seq_reset.
    cbn [nextIndexRef]. lia. }
  assert (Hp : plannedMultRef q = prev).
  { unfold q, prev, round_multipliers. now rewrite plan_from_last. }
  destruct (plan_step _ Hu _ Hq) as (B & _ & _).
  rewrite Hi, Hp in B. destruct B as (B1 & B2 & B3).
  split.
  { unfold round_multipliers. now rewrite plan_from_app. }
  split; [apply plan_on_grid|].
  split; [exact B1|]. split; [exact B2|exact B3].
Qed.

Lemma round_multipliers_bounds_witness :
  exists v,
    round_multipliers ([1 # 2; 3 # 5] ++ [2 # 5])
    = round_multipliers [1 # 2; 3 # 5] ++ [v]
    /\ on_grid v.
Proof.
  destruct (round_multipliers_bounds [1 # 2; 3 # 5] (2 # 5)) as (v & E & G & _).
  - repeat constructor; unfold Qle, Qlt; simpl; lia.
  - split; unfold Qle, Qlt; simpl; lia.
  - exists v. split; assumption.
Defined.

(** C2 as stated fails: with every draw equal to 0.96 the values are 1.29,
    1.58, 1.87, 2.10 and 2.10: the fourth value reaches the cap and the
    fifth value, with index [2 <= 5 <= 5], is 2.10 again, not strictly
    greater. *)
Lemma strict_increase_fails_at_cap :
  let us := [24 # 25; 24 # 25; 24 # 25; 24 # 25] in
  let u := 24 # 25 in
  Forall unit_draw us /\ unit_draw u
  /\ (2 <= Z.of_nat (length us) + 1 <= 5)%Z
  /\ round_multipliers (us ++ [u])
     = [129 # 100; 158 # 100; 187 # 100; 210 # 100; 210 # 100]
  /\ last (round_multipliers us) 1 == 21 # 10
  /\ last (round_multipliers (us ++ [u])) 1 == 21 # 10
  /\ ~ (last (round_multipliers us) 1 < last (round_multipliers (us ++ [u])) 1).
Proof.
  cbv zeta. split; [|split; [|split; [|split; [|split; [|split]]]]].
  - repeat constructor; unfold Qle, Qlt; simpl; lia.
  - split; unfold Qle, Qlt; simpl; lia.
  - simpl. lia.
  - vm_compute. reflexivity.
  - vm_compute. reflexivity.
  - vm_compute. reflexivity.
  - vm_compute. intro H. discriminate H.
Qed.

(** ** Renders *)

Lemma syncRefs_synced (s : State) : synced (syncRefs s).
Proof. unfold synced, syncRefs. cbn. repeat split. Qed.

Lemma commit_synced (s : State) : synced (commit s).
Proof. unfold commit. apply syncRefs_synced. Qed.

Lemma step_synced (ev : Event) (s : State) : synced (step ev s).
Proof. apply commit_synced. Qed.

Lemma init_synced : synced init.
Proof. unfold synced. cbn. repeat split. Qed.

Lemma ledger_cells_phase s t : ledger_cells s = ledger_cells t -> phase s = phase t.
Proof. unfold ledger_cells. congruence. Qed.

Lemma ledger_cells_balance s t :
  ledger_cells s = ledger_cells t -> balance s = balance t.
Proof. unfold ledger_cells. congruence. Qed.

Lemma spawn_ledger d ts s upd :
  ledger_cells (fst (spawn d ts s upd)) = ledger_cells s.
Proof. reflexivity. Qed.

Lemma replacementSpawn_ledger d ts b sf :
  ledger_cells (fst (replacementSpawn d ts b sf)) = ledger_cells (fst sf).
Proof.
  destruct sf as [s f]. unfold replacementSpawn.
  destruct (b && _); reflexivity.
Qed.

Lemma cadenceSpawns_ledger fuel d ts n sf :
  ledger_cells (fst (cadenceSpawns fuel d ts n sf)) = ledger_cells (fst sf).
Proof.
  revert n sf. induction fuel as [|fuel IH]; intros n sf; cbn [cadenceSpawns].
  - destruct (cadenceGuard n sf); reflexivity.
  - destruct (cadenceGuard n sf); [|reflexivity].
    rewrite (surjective_pairing (spawn d ts (fst sf) (updated (snd sf)))).
    rewrite IH. reflexivity.
Qed.

Lemma frame_spawns_ledger e b sf :
  ledger_cells (fst (frame_spawns e b sf)) = ledger_cells (fst sf).
Proof.
  unfold frame_spawns. rewrite cadenceSpawns_ledger.
  apply replacementSpawn_ledger.
Qed.

Lemma cull_fst sf : fst (cull sf) = fst sf.
Proof.
  destruct sf as [s f]. unfold cull.
  destruct (negb _); reflexivity.
Qed.

Lemma frame_finish_ledger sf :
  ledger_cells (frame_finish sf) = ledger_cells (fst sf).
Proof.
  destruct sf as [s f]. unfold frame_finish.
  destruct (cull _) as [s' f'] eqn:E.
  assert (Hs : s' = fst (cull (set_removalScheduledRef
             (scheduleRemovals (updated f) (removalScheduledRef s)) s, f)))
    by (rewrite E; reflexivity).
  rewrite cull_fst in Hs. cbn [fst] in Hs. subst s'.
  destruct (needCommit f'); reflexivity.
Qed.

Lemma advance_ledger ts s : ledger_cells (advance ts s) = ledger_cells s.
Proof. reflexivity. Qed.

Lemma safeHit_ledger o s : ledger_cells (safeHit o s) = ledger_cells s.
Proof. reflexivity. Qed.

(** ** The frame callback, case by case *)

Lemma loop_not_running e s :
  phaseRef s <> running -> loop e s = set_rafRef true s.
Proof.
  intro H. unfold loop.
  destruct (Phase_eqb (phaseRef s) running) eqn:E; [|reflexivity].
  apply Phase_eqb_eq in E. contradiction.
Qed.

Lemma loop_hazard e s o :
  phaseRef s = running ->
  frame_contact (te_ts e) (advance (te_ts e) s) = hazard_hit o ->
  loop e s = crashOutcome (te_crash e) (advance (te_ts e) s).
Proof.
  intros H C. unfold loop. rewrite H. cbn [Phase_eqb negb].
  cbv zeta. rewrite C. reflexivity.
Qed.

Lemma loop_safe e s o :
  phaseRef s = running ->
  frame_contact (te_ts e) (advance (te_ts e) s) = safe_hit o ->
  loop e s
  = frame_finish
      (frame_spawns e true
         (safeHit o (advance (te_ts e) s),
          mkFrame (mark_breaking o (obstaclesRef (advance (te_ts e) s)))
                  true false)).
Proof.
  intros H C. unfold loop. rewrite H. cbn [Phase_eqb negb].
  cbv zeta. rewrite C. reflexivity.
Qed.

Lemma loop_no_contact e s :
  phaseRef s = running ->
  frame_contact (te_ts e) (advance (te_ts e) s) = no_contact ->
  loop e s
  = frame_finish
      (frame_spawns e false
         (advance (te_ts e) s,
          mkFrame (obstaclesRef (advance (te_ts e) s)) false false)).
Proof.
  intros H C. unfold loop. rewrite H. cbn [Phase_eqb negb].
  cbv zeta. rewrite C. reflexivity.
Qed.

(** A frame without an iceberg contact leaves the ledger, the phase and the
    timers alone. *)
Lemma loop_ledger e s :
  (forall o, frame_contact (te_ts e) (advance (te_ts e) s) <> hazard_hit o) ->
  ledger_cells (loop e s) = ledger_cells s.
Proof.
  intro N.
  destruct (Phase_eqb (phaseRef s) running) eqn:E.
  - apply Phase_eqb_eq in E.
    destruct (frame_contact (te_ts e) (advance (te_ts e) s)) as [|o|o] eqn:C.
    + rewrite (loop_no_contact e s E C), frame_finish_ledger, frame_spawns_ledger.
      reflexivity.
    + rewrite (loop_safe e s o E C), frame_finish_ledger, frame_spawns_ledger.
      reflexivity.
    + elim (N o). reflexivity.
  - rewrite loop_not_running; [reflexivity|].
    intro F. rewrite F in E. discriminate.
Qed.

(** ** What a render does to the cells *)

Lemma commit_over (s : State) :
  round_over s = true ->
  commit s
  = syncRefs (startBettingPhase (mkClosure (balance s) (bet s)) (syncRefs s)).
Proof.
  destruct s as [p ? ? ? ? ? ? ? ? ? ? ? ? ? ? ? ? ? ? ? ? ? ? ? ? ? ? ? ? ?].
  unfold round_over. cbn [phase]. intro H.
  destruct p; try discriminate H; cells; reflexivity.
Qed.

Lemma commit_going (s : State) :
  round_over s = false -> commit s = syncRefs s.
Proof.
  destruct s as [p ? ? ? ? ? ? ? ? ? ? ? ? ? ? ? ? ? ? ? ? ? ? ? ? ? ? ? ? ?].
  unfold round_over. cbn [phase]. intro H.
  destruct p; try discriminate H; cells; reflexivity.
Qed.

Lemma commit_phase (s : State) :
  phase (commit s) = if round_over s then betting else phase s.
Proof.
  destruct (round_over s) eqn:E.
  - rewrite commit_over by assumption. reflexivity.
  - rewrite commit_going by assumption. reflexivity.
Qed.

Lemma commit_balance (s : State) : balance (commit s) = balance s.
Proof.
  destruct (round_over s) eqn:E.
  - rewrite commit_over by assumption. reflexivity.
  - rewrite commit_going by assumption. reflexivity.
Qed.

Lemma commit_hasCashed (s : State) :
  hasCashed (commit s) = if round_over s then false else hasCashed s.
Proof.
  destruct (round_over s) eqn:E.
  - rewrite commit_over by assumption. reflexivity.
  - rewrite commit_going by assumption. reflexivity.
Qed.

Lemma commit_joined (s : State) :
  joined (commit s) = if round_over s then false else joined s.
Proof.
  destruct (round_over s) eqn:E.
  - rewrite commit_over by assumption. reflexivity.
  - rewrite commit_going by assumption. reflexivity.
Qed.

Lemma commit_activeBet (s : State) :
  activeBet (commit s) = if round_over s then None else activeBet s.
Proof.
  destruct (round_over s) eqn:E.
  - rewrite commit_over by assumption. reflexivity.
  - rewrite commit_going by assumption. reflexivity.
Qed.

Lemma commit_betTimeoutRef (s : State) :
  betTimeoutRef (commit s)
  = if round_over s then Some (mkClosure (balance s) (bet s))
    else betTimeoutRef s.
Proof.
  destruct (round_over s) eqn:E.
  - rewrite commit_over by assumption. reflexivity.
  - rewrite commit_going by assumption. reflexivity.
Qed.

Lemma commit_startPending (s : State) :
  startPending (commit s) = startPending s.
Proof.
  destruct (round_over s) eqn:E.
  - rewrite commit_over by assumption. reflexivity.
  - rewrite commit_going by assumption. reflexivity.
Qed.

Lemma commit_world (s : State) : world_cells (commit s) = world_cells s.
Proof.
  destruct (round_over s) eqn:E.
  - rewrite commit_over by assumption. reflexivity.
  - rewrite commit_going by assumption. reflexivity.
Qed.

Lemma commit_collected (s : State) : collected (commit s) = collected s.
Proof. pose proof (commit_world s) as H. unfold world_cells in H. congruence. Qed.

Lemma commit_obstacles (s : State) : obstacles (commit s) = obstacles s.
Proof. pose proof (commit_world s) as H. unfold world_cells in H. congruence. Qed.

Lemma commit_seqRef (s : State) : seqRef (commit s) = seqRef s.
Proof. pose proof (commit_world s) as H. unfold world_cells in H. congruence. Qed.

(** ** Phase and timers *)

Lemma timers_pre_ledger (s t : State) :
  ledger_cells t = ledger_cells s -> timers_pre s -> timers_pre t.
Proof.
  unfold ledger_cells, timers_pre. intros E H.
  injection E as E1 E2 E3 E4 E5 E6 E7 E8 E9 E10 E11 E12 E13 E14 E15 E16.
  rewrite E1, E2, E11, E12. exact H.
Qed.

Lemma init_timers : timers_ok init.
Proof.
  unfold timers_ok, timers_pre. cbn.
  repeat split; try discriminate; intros; discriminate.
Qed.

Lemma commit_timers (s : State) : timers_pre s -> timers_ok (commit s).
Proof.
  intros (N & T & R). unfold timers_ok, timers_pre.
  rewrite commit_phase, commit_balance, commit_betTimeoutRef,
    commit_startPending.
  assert (O : round_over (commit s) = false).
  { unfold round_over. rewrite commit_phase.
    unfold round_over. destruct (phase s); reflexivity. }
  split; [|exact O].
  destruct (round_over s) eqn:E.
  - split; [discriminate|]. split.
    + intros c Hc. injection Hc as <-. cbn. repeat split.
      destruct (startPending s) as [st|] eqn:P; [|reflexivity].
      destruct (R st eq_refl) as (Pb & _).
      unfold round_over in E. rewrite Pb in E. discriminate.
    + intros st P. destruct (R st P) as (Pb & _).
      unfold round_over in E. rewrite Pb in E. discriminate.
  - split; [exact N|]. split; assumption.
Qed.

Lemma crashOutcome_timers (r : Q) (s : State) :
  betTimeoutRef s = None -> startPending s = None ->
  timers_pre (crashOutcome r s).
Proof.
  intros B P. unfold timers_pre, crashOutcome.
  destruct (Qlt_bool r (5 # 100)); cbn; [destruct (hasCashedRef s)|];
    cbn; rewrite B, P; (split; [discriminate|]); split; intros; discriminate.
Qed.

Lemma loop_timers (e : TickEnv) (s : State) :
  synced s -> timers_ok s -> timers_pre (loop e s).
Proof.
  intros Sy [T O].
  destruct (Phase_eqb (phaseRef s) running) eqn:E.
  - apply Phase_eqb_eq in E.
    destruct (frame_contact (te_ts e) (advance (te_ts e) s)) as [|o|o] eqn:C.
    + apply timers_pre_ledger with s; [|exact T].
      apply loop_ledger. rewrite C. discriminate.
    + apply timers_pre_ledger with s; [|exact T].
      apply loop_ledger. rewrite C. discriminate.
    + rewrite (loop_hazard e s o E C).
      destruct Sy as (_ & _ & _ & Sp & _). rewrite Sp in E.
      destruct T as (_ & T1 & T2).
      apply crashOutcome_timers; cbn.
      * destruct (betTimeoutRef s) as [c|] eqn:B; [|reflexivity].
        destruct (T1 c eq_refl) as (Pb & _). congruence.
      * destruct (startPending s) as [st|] eqn:B; [|reflexivity].
        destruct (T2 st eq_refl) as (Pb & _). congruence.
  - rewrite loop_not_running.
    + apply timers_pre_ledger with s; [reflexivity|exact T].
    + intro F. rewrite F in E. discriminate.
Qed.

(** The cells [roundBegin] writes. *)
Lemma roundBegin_cells (stake : Q) (e : BeginEnv) (s : State) :
  let s' := roundBegin stake e s in
  phase s' = running /\ phaseRef s' = running
  /\ hasCashed s' = false /\ collected s' = 1
  /\ joined s' = joined s /\ joinedRef s' = joinedRef s
  /\ betTimeoutRef s' = betTimeoutRef s
  /\ startPending s' = startPending s
  /\ balance s' = (if joinedRef s then balance s - stake else balance s)
  /\ activeBet s' = (if joinedRef s then Some stake else None).
Proof.
  destruct s. unfold roundBegin, planNextMultiplier. cells.
  case_if; repeat split.
Qed.

Lemma handle_timers (ev : Event) (s : State) :
  synced s -> timers_ok s -> timers_pre (handle ev s).
Proof.
  intros Sy [T O].
  destruct ev as [laneW b|v| | | | | | |e|e| |id].
  10: { (* ev_frame *)
    cbn [handle]. case_if; [|exact T].
    apply loop_timers; [assumption|split; assumption]. }
  9: { (* ev_round_begin *)
    cbn [handle].
    pose proof T as (N & T1 & T2).
    destruct (startPending s) as [stake|] eqn:P; [|exact T].
    destruct (T2 stake eq_refl) as (Pb & _).
    destruct (roundBegin_cells stake e (set_startPending None s))
      as (R1 & _ & _ & _ & _ & _ & R7 & R8 & _).
    unfold timers_pre. rewrite R1, R7, R8.
    change (betTimeoutRef (set_startPending None s)) with (betTimeoutRef s).
    change (startPending (set_startPending None s)) with (@None Q).
    split; [discriminate|]. split.
    - intros c Hc. destruct (T1 c Hc) as (_ & Pn & _). congruence.
    - intros st F. discriminate. }
  all: revert Sy T O; open_state s;
    unfold synced, timers_pre, round_over; cells;
    intros (Sa & Sh & Sj & Sp & Sc & So) (N & T1 & T2) O; subst.
  - (* ev_ready *)
    case_if; cells; [|exact (conj N (conj T1 T2))].
    apply andb_true_iff in Heqb0 as [_ I]. apply Phase_eqb_eq in I. subst.
    split; [discriminate|]. split.
    + intros c Hc. injection Hc as <-. cells. repeat split.
      destruct startPending0 as [st|] eqn:P; [|reflexivity].
      destruct (T2 st eq_refl) as (Pb & _). discriminate.
    + intros st P. destruct (T2 st P) as (Pb & _). discriminate.
  - case_if; cells; exact (conj N (conj T1 T2)).
  - case_if; cells; exact (conj N (conj T1 T2)).
  - case_if; cells; exact (conj N (conj T1 T2)).
  - (* placeBet *)
    repeat (case_if; cells); exact (conj N (conj T1 T2)).
  - (* cancelBet *)
    repeat (case_if; cells); exact (conj N (conj T1 T2)).
  - (* cashOutNow *)
    repeat (case_if; cells); try (exact (conj N (conj T1 T2))).
    apply negb_false_iff, Phase_eqb_eq in Heqb. subst.
    split; [exact N|]. split.
    + intros c Hc. destruct (T1 c Hc) as (Pb & _). discriminate.
    + intros st P. destruct (T2 st P) as (Pb & _). discriminate.
  - (* ev_bet_timeout *)
    destruct betTimeoutRef0 as [c|] eqn:B; cells;
      [|exact (conj N (conj T1 T2))].
    destruct (T1 c eq_refl) as (Pb & Pn & Cb). subst.
    destruct (Qlt_bool (cl_balance c) 1) eqn:L; cells.
    + split; [discriminate|]. split.
      * intros c' Hc. injection Hc as <-. repeat split.
      * intros st P. discriminate.
    + apply Qlt_bool_false in L. cbn [Phase_eqb].
      split; [discriminate|]. split.
      * intros c' Hc. discriminate.
      * intros st P. injection P as <-. split; [reflexivity|].
        destruct (joined0 && Qlt_bool 0 _);
          apply clamp_bounds; assumption.
  - case_if; cells; exact (conj N (conj T1 T2)).
  - case_if; cells; exact (conj N (conj T1 T2)).
Qed.

(** The invariant of phase and timers is kept by every event. *)
Lemma step_timers (ev : Event) (s : State) :
  synced s -> timers_ok s -> timers_ok (step ev s).
Proof.
  intros Sy T. unfold step. apply commit_timers. now apply handle_timers.
Qed.

(** ** Runs *)

Lemma run_snoc (evs : list Event) (ev : Event) (s : State) :
  run (evs ++ [ev]) s = step ev (run evs s).
Proof. unfold run. rewrite fold_left_app. reflexivity. Qed.

Lemma run_cons (evs : list Event) (ev : Event) (s : State) :
  run (ev :: evs) s = run evs (step ev s).
Proof. reflexivity. Qed.

Lemma run_synced (evs : list Event) : synced (run evs init).
Proof.
  induction evs as [|ev evs IH] using rev_ind.
  - apply init_synced.
  - rewrite run_snoc. apply step_synced.
Qed.

Lemma run_timers (evs : list Event) : timers_ok (run evs init).
Proof.
  induction evs as [|ev evs IH] using rev_ind.
  - apply init_timers.
  - rewrite run_snoc. apply step_timers; [apply run_synced|exact IH].
Qed.

(** C10.  No operation assigns the phase ["cashed"]: it is the phase of no
    state of a run, also not between a handler and the render after it; a
    cash-out leaves the phase as it is and writes only the balance, the
    one-shot flag [hasCashed] and the message. *)
Theorem phase_never_cashed (evs : list Event) (ev : Event) :
  let s := run evs init in
  phase s <> cashed
  /\ phase (handle ev s) <> cashed
  /\ phase (cashOutNow s) = phase s
  /\ exists b h m,
       cashOutNow s = set_message m (set_hasCashed h (set_balance b s)).
Proof.
  intro s.
  pose proof (run_synced evs) as Sy. pose proof (run_timers evs) as T.
  fold s in Sy, T.
  split; [apply T|]. split; [apply (handle_timers ev s Sy T)|].
  clear. open_state s. cells.
  repeat (case_if; cells); (split; [reflexivity|]);
    repeat eexists; reflexivity.
Qed.

(** ** The ledger during a round *)

Lemma cashOutNow_rejected (s : State) :
  cashOut_valid s = false -> cashOutNow s = s.
Proof.
  unfold cashOut_valid, cashOutNow.
  destruct (Phase_eqb (phaseRef s) running); [|reflexivity].
  destruct (joinedRef s); [|reflexivity].
  destruct (hasCashedRef s); [reflexivity|discriminate].
Qed.

Lemma cashOutNow_accepted (s : State) :
  cashOut_valid s = true ->
  cashOutNow s
  = set_message msg_cashed_out
      (set_hasCashed true
         (set_balance (balance s + activeBetRef s * collectedRef s) s)).
Proof.
  unfold cashOut_valid, cashOutNow.
  destruct (Phase_eqb (phaseRef s) running); [|discriminate].
  destruct (joinedRef s); [|discriminate].
  destruct (hasCashedRef s); [discriminate|reflexivity].
Qed.





(** An iceberg frame ends the round: after the render the betting window
    is open. *)
Lemma crash_step_phase (ev : Event) (s : State) :
  crashes ev s = true -> phase (step ev s) = betting.
Proof.
  destruct ev as [laneW b|v| | | | | | |e|e| |id]; try discriminate.
  cbn [crashes]. intro C.
  apply andb_true_iff in C as [C C3]. apply andb_true_iff in C as [C1 C2].
  apply Phase_eqb_eq in C2.
  destruct (frame_contact (te_ts e) (advance (te_ts e) s)) as [|o|o] eqn:F;
    try discriminate.
  unfold step. cbn [handle]. rewrite C1, (loop_hazard e s o C2 F).
  rewrite commit_phase.
  replace (round_over (crashOutcome (te_crash e) (advance (te_ts e) s)))
    with true; [reflexivity|].
  unfold round_over, crashOutcome.
  destruct (Qlt_bool (te_crash e) (5 # 100)); [|reflexivity].
  destruct (negb (hasCashedRef (set_phase lifeboat (advance (te_ts e) s))));
    reflexivity.
Qed.

(** ** Cash-out *)

Lemma cashOut_valid_spec (s : State) :
  synced s ->
  cashOut_valid s = true
  <-> phase s = running /\ joined s = true /\ hasCashed s = false.
Proof.
  intros (_ & Sh & Sj & Sp & _). unfold cashOut_valid.
  rewrite Sh, Sj, Sp, !andb_true_iff, Phase_eqb_eq, negb_true_iff. tauto.
Qed.



(** ** A frame in closed form *)

Lemma spawn_eq (d : SpawnDraw) (ts : Q) (s : State) (upd : list Obstacle) :
  spawn d ts s upd
  = (set_seqRef (snd (planNextMultiplier (sd_mult d) (seqRef s))) s,
     upd ++ [new_obstacle d
               (spawnWorldXFor 2 (right (shipBoundsRef s)) (scrollRef s) s)
               (fst (planNextMultiplier (sd_mult d) (seqRef s))) ts]).
Proof. unfold spawn. rewrite plan_result. reflexivity. Qed.

(** One unit of fuel is enough for the [while] of the cadence spawns: the
    result is the same with any more fuel, and the test of the loop is
    false on exit. *)
Lemma cadenceSpawns_fuel (fuel : nat) d ts (n : nat) (sf : State * Frame) :
  cadenceSpawns (S fuel) d ts n sf = cadenceSpawns 1 d ts n sf
  /\ forall m, cadenceGuard m (cadenceSpawns (S fuel) d ts n sf) = false
               \/ cadenceSpawns (S fuel) d ts n sf = sf.
Proof.
  assert (Stop : forall k m (s : State) upd,
             cadenceSpawns k d ts m (s, mkFrame upd true true)
             = (s, mkFrame upd true true)).
  { intros k m s upd. destruct k; reflexivity. }
  cbn [cadenceSpawns]. destruct (cadenceGuard n sf) eqn:G.
  - rewrite spawn_eq. rewrite !Stop. split; [reflexivity|].
    intro m. left. reflexivity.
  - split; [reflexivity|]. intro m. right. reflexivity.
Qed.

Lemma frame_spawns_eq (e : TickEnv) (b : bool) (s : State)
    (base : list Obstacle) (nc : bool) :
  frame_spawns e b (s, mkFrame base nc false)
  = if replaces b base then
      (set_spawnAccumRef 0 (fst (spawn (te_spawn e) (te_ts e) s base)),
       mkFrame (snd (spawn (te_spawn e) (te_ts e) s base)) true true)
    else if cadences (spawnAccumRef s) base then
      (set_spawnAccumRef (spawnAccumRef s - HIT_INTERVAL)
         (fst (spawn (te_spawn e) (te_ts e) s base)),
       mkFrame (snd (spawn (te_spawn e) (te_ts e) s base)) true true)
    else (s, mkFrame base nc false).
Proof.
  unfold frame_spawns, replacementSpawn, replaces, cadences.
  cbn [updated].
  destruct (b && (idle_count base <? 2)%nat) eqn:R.
  - rewrite spawn_eq. cbn [cadenceSpawns]. unfold cadenceGuard.
    cbn [fst snd spawnedThisFrame negb andb]. reflexivity.
  - cbn [cadenceSpawns]. unfold cadenceGuard.
    cbn [fst snd spawnedThisFrame updated negb andb].
    destruct (Qle_bool HIT_INTERVAL (spawnAccumRef s)
              && (idle_count base <? 2)%nat) eqn:C; [|reflexivity].
    rewrite spawn_eq. cbn [fst snd spawnedThisFrame negb andb]. reflexivity.
Qed.

Lemma filter_all (A : Type) (p : A -> bool) (l : list A) :
  length (filter p l) = length l -> filter p l = l.
Proof.
  induction l as [|a l IH]; [reflexivity|]. cbn [filter].
  destruct (p a); cbn [length]; intro H.
  - f_equal. apply IH. lia.
  - pose proof (filter_length_le p l). lia.
Qed.

(** The obstacle list a frame ends with: the cull leaves [updated] as it is
    exactly when it removes nothing. *)
Lemma cull_updated (s : State) (f : Frame) :
  updated (snd (cull (s, f))) = filter (on_screen (scrollRef s)) (updated f).
Proof.
  unfold cull. fold (on_screen (scrollRef s)).
  destruct (length (filter (on_screen (scrollRef s)) (updated f))
            =? length (updated f))%nat eqn:E; cbn [negb snd updated].
  - apply Nat.eqb_eq in E. symmetry. now apply filter_all.
  - reflexivity.
Qed.

Lemma cull_needCommit (s : State) (f : Frame) :
  needCommit f = true -> needCommit (snd (cull (s, f))) = true.
Proof.
  unfold cull. intro H. destruct (negb _); [reflexivity|exact H].
Qed.

Lemma cull_no_commit (s : State) (f : Frame) :
  needCommit (snd (cull (s, f))) = false ->
  filter (on_screen (scrollRef s)) (updated f) = updated f.
Proof.
  unfold cull. fold (on_screen (scrollRef s)).
  destruct (length (filter (on_screen (scrollRef s)) (updated f))
            =? length (updated f))%nat eqn:E; cbn [negb snd needCommit].
  - intros _. apply Nat.eqb_eq in E. now apply filter_all.
  - discriminate.
Qed.

Lemma frame_finish_motion (s : State) (f : Frame) :
  motion_cells (frame_finish (s, f)) = motion_cells s.
Proof.
  unfold frame_finish.
  destruct (cull _) as [s' f'] eqn:E.
  assert (Hs : s' = fst (cull (set_removalScheduledRef
             (scheduleRemovals (updated f) (removalScheduledRef s)) s, f)))
    by (rewrite E; reflexivity).
  rewrite cull_fst in Hs. cbn [fst] in Hs. subst s'.
  destruct (needCommit f'); reflexivity.
Qed.

Lemma frame_finish_obstacles (s : State) (f : Frame) :
  (needCommit f = false ->
   updated f = obstaclesRef s /\ obstacles s = obstaclesRef s) ->
  obstaclesRef (frame_finish (s, f))
  = filter (on_screen (scrollRef s)) (updated f)
  /\ obstacles (frame_finish (s, f))
     = filter (on_screen (scrollRef s)) (updated f).
Proof.
  intro H. unfold frame_finish.
  set (s2 := set_removalScheduledRef _ s).
  pose proof (cull_fst (s2, f)) as F.
  pose proof (cull_updated s2 f) as U.
  pose proof (cull_needCommit s2 f) as N.
  pose proof (cull_no_commit s2 f) as M.
  destruct (cull (s2, f)) as [s3 f3]. cbn [fst snd] in *. subst s3.
  change (scrollRef s2) with (scrollRef s) in *.
  destruct (needCommit f3) eqn:C.
  - rewrite <- U. split; reflexivity.
  - rewrite (M eq_refl).
    destruct (needCommit f) eqn:Cf; [specialize (N eq_refl); discriminate|].
    destruct (H eq_refl) as [H1 H2]. rewrite H1.
    split; [reflexivity|exact H2].
Qed.

(** A frame of a running round in which no iceberg is hit, cell by cell. *)
Lemma loop_frame (e : TickEnv) (s : State) :
  synced s -> phaseRef s = running ->
  let s1 := advance (te_ts e) s in
  let c := frame_contact (te_ts e) s1 in
  (forall o, c <> hazard_hit o) ->
  let s' := loop e s in
  obstaclesRef s' = frame_obstacles e c s1
  /\ obstacles s' = frame_obstacles e c s1
  /\ seqRef s'
     = (if frame_spawned c s1
        then snd (planNextMultiplier (sd_mult (te_spawn e)) (seqRef s))
        else seqRef s)
  /\ scrollRef s' = scrollRef s1
  /\ collected s'
     = (match c with safe_hit o => ob_multiplier o | _ => collected s end)
  /\ collectedRef s'
     = (match c with safe_hit o => ob_multiplier o | _ => collectedRef s end)
  /\ lastTsRef s' = Some (te_ts e).
Proof.
  intros Sy R. cbv zeta.
  assert (So : obstacles s = obstaclesRef s) by (symmetry; apply Sy).
  assert (M : forall (s2 : State) (f : Frame),
             motion_cells (frame_finish (s2, f)) = motion_cells s2)
    by apply frame_finish_motion.
  unfold motion_cells in M.
  pose proof (loop_no_contact e s R) as LN.
  pose proof (fun o => loop_safe e s o R) as LS.
  assert (A1 : lastTsRef (advance (te_ts e) s) = Some (te_ts e))
    by reflexivity.
  assert (A2 : collected (advance (te_ts e) s) = collected s) by reflexivity.
  assert (A3 : collectedRef (advance (te_ts e) s) = collectedRef s)
    by reflexivity.
  assert (A4 : seqRef (advance (te_ts e) s) = seqRef s) by reflexivity.
  assert (A5 : obstacles (advance (te_ts e) s) = obstacles s) by reflexivity.
  assert (A6 : obstaclesRef (advance (te_ts e) s) = obstaclesRef s)
    by reflexivity.
  set (s1 := advance (te_ts e) s) in *. clearbody s1.
  intro NH.
  destruct (frame_contact (te_ts e) s1) as [|o|o] eqn:C;
    [| |elim (NH o); reflexivity].
  - (* no contact *)
    rewrite (LN eq_refl). rewrite frame_spawns_eq.
    unfold frame_obstacles, frame_spawned, frame_new.
    cbn [frame_base is_safe_hit]. unfold replaces. cbn [andb orb].
    destruct (cadences (spawnAccumRef s1) (obstaclesRef s1)) eqn:Cd.
    + rewrite spawn_eq. cbn [fst snd].
      match goal with |- context [frame_finish (?a, ?b)] =>
        destruct (frame_finish_obstacles a b) as [F1 F2];
          [discriminate|]; specialize (M a b) end.
      settle.
    + match goal with |- context [frame_finish (?a, ?b)] =>
        destruct (frame_finish_obstacles a b) as [F1 F2];
          [intros _; split; [reflexivity|congruence]|];
          specialize (M a b) end.
      settle.
  - (* safe hit *)
    rewrite (LS o eq_refl). rewrite frame_spawns_eq.
    unfold frame_obstacles, frame_spawned, frame_new.
    cbn [frame_base is_safe_hit].
    change (spawnAccumRef (safeHit o s1)) with (spawnAccumRef s1).
    destruct (replaces true (mark_breaking o (obstaclesRef s1))) eqn:Rp;
      cbn [orb].
    + rewrite spawn_eq. cbn [fst snd].
      match goal with |- context [frame_finish (?a, ?b)] =>
        destruct (frame_finish_obstacles a b) as [F1 F2];
          [discriminate|]; specialize (M a b) end.
      settle.
    + destruct (cadences (spawnAccumRef s1)
                  (mark_breaking o (obstaclesRef s1))) eqn:Cd.
      * rewrite spawn_eq. cbn [fst snd].
        match goal with |- context [frame_finish (?a, ?b)] =>
          destruct (frame_finish_obstacles a b) as [F1 F2];
            [discriminate|]; specialize (M a b) end.
        settle.
      * match goal with |- context [frame_finish (?a, ?b)] =>
          destruct (frame_finish_obstacles a b) as [F1 F2];
            [discriminate|]; specialize (M a b) end.
        settle.
Qed.

(** ** At most two idle obstacles *)

Lemma idle_count_app (l l' : list Obstacle) :
  idle_count (l ++ l') = (idle_count l + idle_count l')%nat.
Proof. unfold idle_count. now rewrite filter_app, length_app. Qed.

Lemma idle_count_filter (p : Obstacle -> bool) (l : list Obstacle) :
  (idle_count (filter p l) <= idle_count l)%nat.
Proof.
  unfold idle_count. induction l as [|a l IH]; [apply le_n|].
  cbn [filter]. destruct (p a); cbn [filter];
    destruct (is_idle (ob_state a)); cbn [length]; lia.
Qed.

Lemma idle_count_map_breaking (f : Obstacle -> Obstacle) (l : list Obstacle) :
  (forall o, f o = o \/ f o = set_breaking o) ->
  (idle_count (map f l) <= idle_count l)%nat.
Proof.
  intro H. unfold idle_count. induction l as [|a l IH]; [apply le_n|].
  cbn [map filter]. destruct (H a) as [E|E]; rewrite E.
  - destruct (is_idle (ob_state a)); cbn [length]; lia.
  - cbn [set_breaking ob_state is_idle].
    destruct (is_idle (ob_state a)); cbn [length]; lia.
Qed.

Lemma idle_count_mark (o : Obstacle) (l : list Obstacle) :
  (idle_count (mark_breaking o l) <= idle_count l)%nat.
Proof.
  apply idle_count_map_breaking. intro p.
  destruct (String.eqb (ob_id p) (ob_id o)); [right|left]; reflexivity.
Qed.

Lemma idle_count_base (c : Contact) (l : list Obstacle) :
  (idle_count (frame_base c l) <= idle_count l)%nat.
Proof.
  destruct c; cbn [frame_base]; try apply le_n. apply idle_count_mark.
Qed.

Lemma frame_spawned_room (c : Contact) (s1 : State) :
  frame_spawned c s1 = true ->
  (idle_count (frame_base c (obstaclesRef s1)) < 2)%nat.
Proof.
  unfold frame_spawned, replaces, cadences. intro H.
  apply orb_true_iff in H as [H|H]; apply andb_true_iff in H as [_ H];
    now apply Nat.ltb_lt in H.
Qed.

Lemma idle_count_frame (e : TickEnv) (c : Contact) (s1 : State) :
  (idle_count (obstaclesRef s1) <= 2)%nat ->
  (idle_count (frame_obstacles e c s1) <= 2)%nat.
Proof.
  intro H. unfold frame_obstacles.
  eapply Nat.le_trans; [apply idle_count_filter|].
  pose proof (idle_count_base c (obstaclesRef s1)) as B.
  destruct (frame_spawned c s1) eqn:S.
  - apply frame_spawned_room in S. rewrite idle_count_app.
    unfold frame_new, new_obstacle, idle_count at 2. cbn. lia.
  - lia.
Qed.

Lemma roundBegin_obstacles (stake : Q) (e : BeginEnv) (s : State) :
  let s' := roundBegin stake e s in
  let q1 := snd (planNextMultiplier (sd_mult (be_first e)) seq_reset) in
  let sp := Qmax 60 ((laneWidthRef s - 12 - right (shipBoundsRef s)) / 4)
            * SPEED_MULTIPLIER in
  obstacles s'
  = [ new_obstacle (be_first e)
        (right (shipBoundsRef s) - ICE_LEFT_PAD + 0 + sp * (1 * HIT_INTERVAL))
        (fst (planNextMultiplier (sd_mult (be_first e)) seq_reset))
        (be_now1 e);
      new_obstacle (be_second e)
        (right (shipBoundsRef s) - ICE_LEFT_PAD + 0 + sp * (2 * HIT_INTERVAL))
        (fst (planNextMultiplier (sd_mult (be_second e)) q1))
        (be_now2 e) ]
  /\ seqRef s' = snd (planNextMultiplier (sd_mult (be_second e)) q1)
  /\ speedRef s' = sp /\ scrollRef s' = 0
  /\ shipBoundsRef s' = shipBoundsRef s
  /\ lastTsRef s' = None /\ spawnAccumRef s' = 0 /\ rafRef s' = true.
Proof.
  open_state s. unfold roundBegin, spawnWorldXFor. cells.
  destruct (planNextMultiplier (sd_mult (be_first e)) seq_reset) as [m1 q1].
  destruct (planNextMultiplier (sd_mult (be_second e)) q1) as [m2 q2].
  case_if; cells; repeat split.
Qed.

(** What each handler does to the obstacle list of the state. *)
Lemma handle_idle_count (ev : Event) (s : State) :
  synced s ->
  (idle_count (obstacles s) <= 2)%nat ->
  (idle_count (obstacles (handle ev s)) <= 2)%nat.
Proof.
  intros Sy H.
  assert (Hr : (idle_count (obstaclesRef s) <= 2)%nat).
  { destruct Sy as (_ & _ & _ & _ & _ & So). now rewrite So. }
  destruct ev as [laneW b|v| | | | | | |e|e| |id].
  10: { (* ev_frame *)
    cbn [handle]. destruct (rafRef s); [|exact H].
    destruct (Phase_eqb (phaseRef s) running) eqn:E.
    - apply Phase_eqb_eq in E.
      destruct (frame_contact (te_ts e) (advance (te_ts e) s)) as [|o|o] eqn:C.
      + destruct (loop_frame e s Sy E) as (_ & F & _);
          [rewrite C; discriminate|].
        rewrite F. now apply idle_count_frame.
      + destruct (loop_frame e s Sy E) as (_ & F & _);
          [rewrite C; discriminate|].
        rewrite F. now apply idle_count_frame.
      + rewrite (loop_hazard e s o E C).
        replace (obstacles (crashOutcome _ _)) with (obstacles s); [exact H|].
        unfold crashOutcome.
        destruct (Qlt_bool (te_crash e) (5 # 100)); [|reflexivity].
        destruct (negb (hasCashedRef (set_phase lifeboat (advance (te_ts e) s))));
          reflexivity.
    - rewrite loop_not_running; [exact H|].
      intro F. rewrite F in E. discriminate. }
  9: { (* ev_round_begin *)
    cbn [handle]. destruct (startPending s) as [stake|]; [|exact H].
    destruct (roundBegin_obstacles stake e (set_startPending None s))
      as (O & _). rewrite O. unfold idle_count. cbn. lia. }
  all: clear Sy; revert H Hr; open_state s; cells; intros H Hr.
  8: { (* ev_bet_timeout *)
    destruct betTimeoutRef0 as [c|]; cells; [|exact H].
    repeat (case_if; cells); try exact H.
    eapply Nat.le_trans; [|exact H].
    apply idle_count_map_breaking. intro o. now right. }
  all: repeat (case_if; cells); try exact H.
  - eapply Nat.le_trans; [apply idle_count_filter|exact H].
  - eapply Nat.le_trans; [apply idle_count_filter|exact Hr].
Qed.

Lemma step_idle_count (ev : Event) (s : State) :
  synced s ->
  (idle_count (obstacles s) <= 2)%nat ->
  (idle_count (obstacles (step ev s)) <= 2)%nat.
Proof.
  intros Sy H. unfold step. rewrite commit_obstacles.
  now apply handle_idle_count.
Qed.

Lemma run_idle_count (evs : list Event) :
  (idle_count (obstacles (run evs init)) <= 2)%nat.
Proof.
  induction evs as [|ev evs IH] using rev_ind.
  - cbn. lia.
  - rewrite run_snoc. apply step_idle_count; [apply run_synced|exact IH].
Qed.

(** C5.  In every state of a run at most two obstacles are idle, in the
    list of the state and in the list the frame callback reads; this
    covers the round start, the replacement spawn and the cadence spawn.
    And within one frame the two spawn paths exclude each other: when the
    replacement path has spawned, the cadence loop returns its input, with
    whatever fuel it is unfolded. *)
Theorem idle_at_most_two (evs : list Event) :
  let s := run evs init in
  (idle_count (obstacles s) <= 2)%nat
  /\ (idle_count (obstaclesRef s) <= 2)%nat
  /\ forall (d : SpawnDraw) (ts : Q) (b : bool) (s0 : State)
            (base : list Obstacle) (nc : bool) (fuel n : nat),
       let sf1 := replacementSpawn d ts b (s0, mkFrame base nc false) in
       (updated (snd sf1) <> base -> cadenceSpawns fuel d ts n sf1 = sf1)
       /\ (length (updated (snd (cadenceSpawns fuel d ts n sf1)))
           <= S (length base))%nat.
Proof.
  intro s. pose proof (run_idle_count evs) as H. fold s in H.
  split; [exact H|]. split.
  { pose proof (run_synced evs) as (_ & _ & _ & _ & _ & So).
    fold s in So. now rewrite So. }
  intros d ts b s0 base nc fuel n.
  assert (Stop : forall k m (s : State) upd,
             cadenceSpawns k d ts m (s, mkFrame upd true true)
             = (s, mkFrame upd true true)).
  { intros k m s2 upd. destruct k; reflexivity. }
  unfold replacementSpawn. cbn [updated].
  destruct (b && (idle_count base <? 2)%nat).
  - rewrite spawn_eq. cbv zeta. rewrite Stop. cbn [snd updated].
    split; [reflexivity|]. rewrite length_app. cbn [length]. lia.
  - cbv zeta. cbn [snd updated]. split; [intro F; now elim F|].
    destruct fuel as [|fuel]; cbn [cadenceSpawns].
    + destruct (cadenceGuard n _); cbn [snd updated]; lia.
    + destruct (cadenceGuard n _); [|cbn [snd updated]; lia].
      rewrite spawn_eq. rewrite Stop. cbn [snd updated].
      rewrite length_app. cbn [length]. lia.
Qed.

(** ** The outcome of an iceberg contact *)

Lemma crashOutcome_cells (r : Q) (s : State) :
  let s' := crashOutcome r s in
  phase s' = (if Qlt_bool r (5 # 100) then lifeboat else crashed)
  /\ balance s'
     = (if Qlt_bool r (5 # 100) && negb (hasCashedRef s)
        then balance s + activeBetRef s * collectedRef s else balance s)
  /\ hasCashed s' = hasCashed s /\ obstacles s' = obstacles s
  /\ collected s' = collected s /\ rafRef s' = false.
Proof.
  open_state s. cells.
  destruct (Qlt_bool r (5 # 100)); cells;
    [destruct hasCashedRef0|]; cells; repeat split.
Qed.

(** C3.  In a state of a run in which the frame callback is live, a frame
    whose collision loop meets an iceberg draws one value [te_crash e].
    Below 0.05 the phase becomes ["lifeboat"] and the balance is credited
    with [activeBet * collected] if the player has not cashed out in this
    round, and is left as it is if they have; otherwise the phase becomes
    ["crashed"] and the balance is left as it is, so that a credit granted
    earlier in the round stays.  The render that follows opens the betting
    window and does not touch the balance. *)
Theorem hazard_contact_outcome (evs : list Event) (e : TickEnv) (o : Obstacle) :
  let s := run evs init in
  rafRef s = true -> phase s = running ->
  frame_contact (te_ts e) (advance (te_ts e) s) = hazard_hit o ->
  let s' := handle (ev_frame e) s in
  let payout :=
    (match activeBet s with Some a => a | None => 0 end) * collected s in
  (te_crash e < 5 # 100 ->
     phase s' = lifeboat
     /\ (hasCashed s = false -> balance s' = balance s + payout)
     /\ (hasCashed s = true -> balance s' = balance s))
  /\ (5 # 100 <= te_crash e -> phase s' = crashed /\ balance s' = balance s)
  /\ balance (step (ev_frame e) s) = balance s'
  /\ phase (step (ev_frame e) s) = betting.
Proof.
  intros s Raf R C s' payout.
  pose proof (run_synced evs) as (Sa & Sh & _ & Sp & Sc & _). fold s in Sa, Sh, Sp, Sc.
  assert (Rr : phaseRef s = running) by congruence.
  assert (E : s' = crashOutcome (te_crash e) (advance (te_ts e) s)).
  { unfold s'. cbn [handle]. rewrite Raf. now apply loop_hazard with o. }
  destruct (crashOutcome_cells (te_crash e) (advance (te_ts e) s))
    as (P & B & _).
  rewrite <- E in P, B.
  change (hasCashedRef (advance (te_ts e) s)) with (hasCashedRef s) in B.
  change (activeBetRef (advance (te_ts e) s)) with (activeBetRef s) in B.
  change (collectedRef (advance (te_ts e) s)) with (collectedRef s) in B.
  change (balance (advance (te_ts e) s)) with (balance s) in B.
  rewrite Sa, Sh, Sc in B. fold payout in B.
  split; [|split; [|split]].
  - intro L. apply Qlt_bool_iff in L. rewrite L in P, B. cbn [andb] in B.
    split; [exact P|]. split; intro H; rewrite H in B; exact B.
  - intro L. apply Qlt_bool_false in L. rewrite L in P, B. split; assumption.
  - unfold step. fold s'. apply commit_balance.
  - apply crash_step_phase. cbn [crashes]. rewrite Raf, Rr, C. reflexivity.
Qed.

(** ** Placing a bet *)

(** [placeBet] outside the betting window changes nothing; inside it the
    stake is at least 1, and at most the balance when the balance is at
    least 1; and the player is joined in every case: the test [stake < 1]
    of the source never holds, since [clamp] returns at least its lower
    bound. *)
Lemma placeBet_cases (s : State) :
  (phaseRef s <> betting -> placeBet s = s)
  /\ (phaseRef s = betting ->
      let stake := clamp (bet s) 1 (balance s) in
      joined (placeBet s) = true
      /\ activeBet (placeBet s) = Some stake
      /\ bet (placeBet s) = stake
      /\ balance (placeBet s) = balance s
      /\ 1 <= stake
      /\ (1 <= balance s -> stake <= balance s)).
Proof.
  split.
  - intro H. unfold placeBet.
    destruct (Phase_eqb (phaseRef s) betting) eqn:E; [|reflexivity].
    apply Phase_eqb_eq in E. contradiction.
  - intros H stake.
    assert (L : 1 <= stake) by apply clamp_lower.
    assert (G : Qlt_bool stake 1 = false) by (now apply Qlt_bool_false).
    unfold placeBet. rewrite H. cbn [Phase_eqb negb]. fold stake.
    rewrite G. repeat split; try assumption.
    intro B. now apply clamp_bounds.
Qed.

(** C6 fails on the code.  After [all_in_run] the betting window is open,
    the balance is 0 and the player has not joined; [placeBet] then joins
    the player with a stake of 1 and reports the bet as placed. *)
Theorem placeBet_joins_on_empty_balance :
  let s := run all_in_run init in
  phase s = betting /\ phaseRef s = betting
  /\ balance s == 0 /\ joined s = false
  /\ joined (placeBet s) = true
  /\ (exists stake, activeBet (placeBet s) = Some stake /\ stake == 1
        /\ message (placeBet s) = msg_bet_placed stake)
  /\ placeBet s <> set_message msg_insufficient_to_bet s.
Proof.
  cbv zeta.
  assert (J : joined (placeBet (run all_in_run init)) = true)
    by (vm_compute; reflexivity).
  split; [vm_compute; reflexivity|]. split; [vm_compute; reflexivity|].
  split; [vm_compute; reflexivity|]. split; [vm_compute; reflexivity|].
  split; [exact J|]. split.
  - eexists. split; [vm_compute; reflexivity|].
    split; vm_compute; reflexivity.
  - intro F. rewrite F in J. vm_compute in J. discriminate J.
Qed.

(** ** Lists of obstacles *)

Section Lists.

Variable A : Type.
Variable R : A -> A -> Prop.

Lemma Forall_filter_keep (P : A -> Prop) (p : A -> bool) (l : list A) :
  Forall P l -> Forall P (filter p l).
Proof.
  rewrite !Forall_forall. intros H a Ha. apply H.
  now apply (incl_filter p l).
Qed.

Lemma StronglySorted_filter (p : A -> bool) (l : list A) :
  StronglySorted R l -> StronglySorted R (filter p l).
Proof.
  induction 1 as [|a l S IH F]; cbn [filter]; [constructor|].
  destruct (p a); [|exact IH].
  constructor; [exact IH|]. now apply Forall_filter_keep.
Qed.

Lemma StronglySorted_map (f : A -> A) (l : list A) :
  (forall a b, R a b -> R (f a) (f b)) ->
  StronglySorted R l -> StronglySorted R (map f l).
Proof.
  intro H. induction 1 as [|a l S IH F]; cbn [map]; constructor.
  - exact IH.
  - rewrite Forall_map. eapply Forall_impl; [|exact F]. intros b. apply H.
Qed.

Lemma StronglySorted_snoc (l : list A) (b : A) :
  StronglySorted R l -> Forall (fun a => R a b) l ->
  StronglySorted R (l ++ [b]).
Proof.
  induction 1 as [|a l S IH F]; intro H; cbn [app].
  - repeat constructor.
  - inversion H as [|? ? Hab Hl]; subst. constructor.
    + now apply IH.
    + apply Forall_app. split; [exact F|]. now repeat constructor.
Qed.

Lemma StronglySorted_split (l1 l2 : list A) (a : A) :
  StronglySorted R (l1 ++ a :: l2) ->
  Forall (fun x => R x a) l1 /\ Forall (R a) l2.
Proof.
  induction l1 as [|b l1 IH]; cbn [app]; intro H.
  - apply StronglySorted_inv in H as [_ H]. split; [constructor|exact H].
  - apply StronglySorted_inv in H as [S F].
    destruct (IH S) as [I1 I2]. split; [|exact I2].
    constructor; [|exact I1].
    apply Forall_app in F as [_ F]. now inversion F.
Qed.

End Lists.

(** The collision loop stops at the first idle obstacle that is in contact
    and not fresh: the obstacles before it are not idle, or fresh, or not
    in contact. *)
Lemma collide_safe ts scroll shipLeft shipRightNow prev o :
  collide ts scroll shipLeft shipRightNow prev = safe_hit o ->
  exists l1 l2,
    prev = l1 ++ o :: l2
    /\ ob_state o = ob_idle /\ fresh ts o = false
    /\ contact scroll shipLeft shipRightNow o = true
    /\ ob_iceberg o = false
    /\ Forall (fun a => ob_state a = ob_idle ->
                 fresh ts a = true
                 \/ contact scroll shipLeft shipRightNow a = false) l1.
Proof.
  induction prev as [|a prev IH]; cbn [collide]; [discriminate|].
  destruct (ob_state a) eqn:St; cbn [is_idle negb].
  - destruct (fresh ts a) eqn:Fr; cbn [negb andb].
    + intro H. destruct (IH H) as (l1 & l2 & E & I).
      exists (a :: l1), l2. rewrite E. split; [reflexivity|].
      destruct I as (I1 & I2 & I3 & I4 & I5).
      repeat split; try assumption. constructor; [|exact I5].
      intros _. now left.
    + destruct (contact scroll shipLeft shipRightNow a) eqn:Ct.
      * destruct (ob_iceberg a) eqn:Ice; [discriminate|].
        intro H. injection H as <-. exists [], prev.
        repeat split; try assumption. constructor.
      * intro H. destruct (IH H) as (l1 & l2 & E & I).
        exists (a :: l1), l2. rewrite E. split; [reflexivity|].
        destruct I as (I1 & I2 & I3 & I4 & I5).
        repeat split; try assumption. constructor; [|exact I5].
        intros _. now right.
  - intro H. destruct (IH H) as (l1 & l2 & E & I).
    exists (a :: l1), l2. rewrite E. split; [reflexivity|].
    destruct I as (I1 & I2 & I3 & I4 & I5).
    repeat split; try assumption. constructor; [|exact I5].
    intro F. rewrite St in F. discriminate F.
Qed.

Lemma collide_hazard ts scroll shipLeft shipRightNow prev o :
  collide ts scroll shipLeft shipRightNow prev = hazard_hit o ->
  In o prev /\ ob_state o = ob_idle /\ fresh ts o = false
  /\ contact scroll shipLeft shipRightNow o = true /\ ob_iceberg o = true.
Proof.
  induction prev as [|a prev IH]; cbn [collide]; [discriminate|].
  destruct (ob_state a) eqn:St; cbn [is_idle negb].
  - destruct (fresh ts a) eqn:Fr; cbn [negb andb].
    + intro H. destruct (IH H) as (I & J). split; [now right|exact J].
    + destruct (contact scroll shipLeft shipRightNow a) eqn:Ct.
      * destruct (ob_iceberg a) eqn:Ice; [|discriminate].
        intro H. injection H as <-. repeat split; try assumption. now left.
      * intro H. destruct (IH H) as (I & J). split; [now right|exact J].
  - intro H. destruct (IH H) as (I & J). split; [now right|exact J].
Qed.

(** ** The world of a round *)

Lemma ob_ok_mono planned planned' xmax xmax' coll scroll scroll' shipLeft o :
  planned <= planned' -> xmax <= xmax' -> scroll <= scroll' ->
  ob_ok planned xmax coll scroll shipLeft o ->
  ob_ok planned' xmax' coll scroll' shipLeft o.
Proof.
  intros Hp Hx Hs (O1 & O2 & O3 & O4). unfold ob_ok, passed in *.
  repeat split; try lra.
  intro I. destruct (O4 I) as [L|P]; [left; exact L|right; lra].
Qed.

Lemma set_breaking_le (a b : Obstacle) :
  ob_le a b -> ob_le (set_breaking a) (set_breaking b).
Proof. intro H. exact H. Qed.

Lemma mark_breaking_in (o a' : Obstacle) (prev : list Obstacle) :
  In a' (mark_breaking o prev) ->
  exists a, In a prev
    /\ ob_multiplier a' = ob_multiplier a /\ ob_x a' = ob_x a
    /\ ob_width a' = ob_width a /\ ob_bornAt a' = ob_bornAt a
    /\ (ob_state a' = ob_idle ->
        a' = a /\ String.eqb (ob_id a) (ob_id o) = false).
Proof.
  unfold mark_breaking. rewrite in_map_iff. intros (a & E & I).
  exists a. split; [exact I|].
  destruct (String.eqb (ob_id a) (ob_id o)); subst a'.
  - repeat split; discriminate.
  - repeat split; reflexivity.
Qed.

Lemma mark_breaking_sorted (o : Obstacle) (prev : list Obstacle) :
  StronglySorted ob_le prev -> StronglySorted ob_le (mark_breaking o prev).
Proof.
  apply StronglySorted_map. intros a b H.
  destruct (String.eqb (ob_id a) (ob_id o)), (String.eqb (ob_id b) (ob_id o));
    exact H.
Qed.

Lemma contact_spec scroll shipLeft shipRightNow o :
  contact scroll shipLeft shipRightNow o = true
  <-> (ob_x o - scroll) + ICE_LEFT_PAD <= shipRightNow
      /\ shipLeft <= (ob_x o - scroll) + ob_width o - ICE_RIGHT_PAD.
Proof.
  unfold contact. rewrite andb_true_iff, !Qle_bool_iff. tauto.
Qed.

Lemma contact_false scroll shipLeft shipRightNow o :
  contact scroll shipLeft shipRightNow o = false ->
  shipRightNow < (ob_x o - scroll) + ICE_LEFT_PAD
  \/ passed scroll shipLeft o.
Proof.
  unfold contact, passed. intro H. apply andb_false_iff in H as [H|H];
    apply Qle_bool_false in H; [left|right]; exact H.
Qed.

Lemma fresh_older ts a o :
  ob_bornAt a <= ob_bornAt o -> fresh ts o = false -> fresh ts a = false.
Proof.
  unfold fresh. intros B H. apply Qlt_bool_false in H.
  apply Qlt_bool_false. lra.
Qed.

Section FrameStep.

Variables ts scroll shipLeft shipRightNow planned planned' xmax coll : Q.
Variable prev : list Obstacle.
Variable new : Obstacle.
Variable keep : Obstacle -> bool.

Hypothesis Hsorted : StronglySorted ob_le prev.
Hypothesis Hok : Forall (ob_ok planned xmax coll scroll shipLeft) prev.
Hypothesis Hborn : forall a, In a prev -> ob_bornAt a <= ts.
Hypothesis Hplanned : planned <= planned'.
Hypothesis Hcoll : coll <= planned.
Hypothesis Hnew_m : ob_multiplier new = planned'.
Hypothesis Hnew_1 : 1 <= planned'.
Hypothesis Hnew_x : ob_x new = xmax.
Hypothesis Hnew_b : ob_bornAt new = ts.

Local Abbreviation c := (collide ts scroll shipLeft shipRightNow prev).
Local Abbreviation coll' :=
  (match c with safe_hit o => ob_multiplier o | _ => coll end).

(** The collected multiplier does not decrease in a frame. *)
Lemma frame_collected_mono : coll <= coll' /\ coll' <= planned.
Proof.
  destruct c as [|o|o] eqn:C; try (split; [lra|exact Hcoll]).
  destruct (collide_safe _ _ _ _ _ _ C) as (l1 & l2 & E & I & F & Ct & _).
  assert (Io : In o prev) by (rewrite E; apply in_elt).
  rewrite Forall_forall in Hok. destruct (Hok o Io) as (O1 & O2 & O3 & O4).
  split; [|exact O2].
  destruct (O4 I) as [L|P]; [exact L|].
  apply contact_spec in Ct as [_ Ct]. unfold passed in P. lra.
Qed.

(** After the collision loop every obstacle left idle is ahead of the
    collected multiplier or behind the ship. *)
Lemma frame_base_ok :
  Forall (ob_ok planned xmax coll' scroll shipLeft) (frame_base c prev).
Proof.
  destruct c as [|o|o] eqn:C; cbn [frame_base]; try exact Hok.
  destruct (collide_safe _ _ _ _ _ _ C) as (l1 & l2 & E & I & F & Ct & _ & N).
  apply contact_spec in Ct as [Ct1 Ct2].
  rewrite Forall_forall in Hok |- *. intros a' Ha'.
  destruct (mark_breaking_in _ _ _ Ha') as (a & Ia & Em & Ex & Ew & Eb & Ei).
  destruct (Hok a Ia) as (O1 & O2 & O3 & O4).
  unfold ob_ok. rewrite Em, Ex. repeat split; try assumption.
  intro Idle. destruct (Ei Idle) as [-> Nid].
  rewrite E in Ia, Hsorted. apply StronglySorted_split in Hsorted as [S1 S2].
  apply in_app_or in Ia as [I1|[->|I2]].
  - (* before the hit obstacle in the list *)
    right. rewrite Forall_forall in S1, N.
    destruct (S1 a I1) as (_ & Sx & Sb).
    destruct (N a I1 Idle) as [Fr|Nc].
    + rewrite (fresh_older ts a o Sb F) in Fr. discriminate.
    + apply contact_false in Nc as [Nc|Nc]; [lra|exact Nc].
  - (* the hit obstacle itself *)
    rewrite String.eqb_refl in Nid. discriminate.
  - (* after it *)
    left. rewrite Forall_forall in S2. apply (S2 a I2).
Qed.

Lemma frame_base_sorted : StronglySorted ob_le (frame_base c prev).
Proof.
  destruct c; cbn [frame_base]; try exact Hsorted.
  now apply mark_breaking_sorted.
Qed.

Lemma frame_base_le_new : Forall (fun a => ob_le a new) (frame_base c prev).
Proof.
  assert (H : Forall (fun a => ob_le a new) prev).
  { rewrite Forall_forall in Hok |- *. intros a Ia.
    destruct (Hok a Ia) as (O1 & O2 & O3 & _).
    specialize (Hborn a Ia). unfold ob_le. rewrite Hnew_m, Hnew_x, Hnew_b.
    repeat split; lra. }
  destruct c as [|o|o]; cbn [frame_base]; try exact H.
  rewrite Forall_forall in H |- *. intros a' Ha'.
  destruct (mark_breaking_in _ _ _ Ha') as (a & Ia & Em & Ex & Ew & Eb & _).
  destruct (H a Ia) as (L1 & L2 & L3). unfold ob_le.
  rewrite Em, Ex, Eb. repeat split; assumption.
Qed.

(** The obstacle list at the end of the frame, with or without a spawn. *)
Lemma frame_list_ok (spawned : bool) :
  let l' := filter keep (if spawned then frame_base c prev ++ [new]
                         else frame_base c prev) in
  StronglySorted ob_le l'
  /\ Forall (ob_ok planned' xmax coll' scroll shipLeft) l'.
Proof.
  intros l'. unfold l'. clear l'.
  destruct frame_collected_mono as [M1 M2].
  assert (B : Forall (ob_ok planned' xmax coll' scroll shipLeft)
                (frame_base c prev)).
  { eapply Forall_impl; [|exact frame_base_ok]. intros a.
    apply ob_ok_mono; lra. }
  split.
  - apply StronglySorted_filter. destruct spawned.
    + apply StronglySorted_snoc; [exact frame_base_sorted|].
      exact frame_base_le_new.
    + exact frame_base_sorted.
  - apply Forall_filter_keep. destruct spawned; [|exact B].
    apply Forall_app. split; [exact B|].
    constructor; [|constructor].
    unfold ob_ok. rewrite Hnew_m, Hnew_x. repeat split; try lra.
Qed.

End FrameStep.

(** *** The invariant of the world *)

Lemma world_ok_view (s t : State) :
  world_view t = world_view s -> (phase t = idle -> phase s = idle) ->
  world_ok s -> world_ok t.
Proof.
  unfold world_view, world_ok, xmax_of, shipLeft_of, spawnWorldXFor.
  intros E P. injection E as -> -> -> -> -> ->.
  intros (W1 & W2 & W3 & W4 & W5 & W6 & W7).
  splits; try assumption. intro I. apply W7, P, I.
Qed.

Lemma init_world : world_ok init.
Proof.
  unfold world_ok. cbn [init seqRef speedRef collected obstacles phase].
  split; [apply seq_reset_ok|]. split; [reflexivity|].
  split; [apply Qle_refl|]. split; [apply Qle_refl|].
  split; [constructor|]. split; [constructor|reflexivity].
Qed.

Lemma commit_world_ok (s : State) : world_ok s -> world_ok (commit s).
Proof.
  apply world_ok_view.
  - pose proof (commit_world s) as H. unfold world_cells in H.
    unfold world_view. congruence.
  - rewrite commit_phase. destruct (round_over s); [discriminate|trivial].
Qed.

Lemma frame_dt_nonneg (ts : Q) (s : State) :
  (forall t, lastTsRef s = Some t -> t <= ts) -> 0 <= frame_dt ts s.
Proof.
  intro H. unfold frame_dt.
  apply Q.min_glb; [discriminate|].
  destruct (lastTsRef s) as [t|].
  - specialize (H t eq_refl).
    apply Qle_shift_div_l; [reflexivity|]. lra.
  - apply Qle_shift_div_l; [reflexivity|]. lra.
Qed.

Lemma advance_world_ok (ts : Q) (s : State) :
  (forall t, lastTsRef s = Some t -> t <= ts) ->
  world_ok s -> world_ok (advance ts s).
Proof.
  intros V (W1 & W2 & W3 & W4 & W5 & W6 & W7).
  pose proof (frame_dt_nonneg ts s V) as D.
  assert (M : 0 <= speedRef s * frame_dt ts s)
    by (apply Qmult_le_0_compat; [apply Qlt_le_weak|]; assumption).
  unfold world_ok.
  change (seqRef (advance ts s)) with (seqRef s).
  change (speedRef (advance ts s)) with (speedRef s).
  change (collected (advance ts s)) with (collected s).
  change (obstacles (advance ts s)) with (obstacles s).
  change (phase (advance ts s)) with (phase s).
  splits; try assumption.
  eapply Forall_impl; [|exact W6]. intro a.
  apply ob_ok_mono; unfold xmax_of, spawnWorldXFor, shipLeft_of.
  - apply Qle_refl.
  - change (scrollRef (advance ts s))
      with (scrollRef s + speedRef s * frame_dt ts s).
    change (shipBoundsRef (advance ts s)) with (shipBoundsRef s).
    change (speedRef (advance ts s)) with (speedRef s). lra.
  - change (scrollRef (advance ts s))
      with (scrollRef s + speedRef s * frame_dt ts s). lra.
Qed.

Lemma crashOutcome_view (r : Q) (s : State) :
  world_view (crashOutcome r s) = world_view s
  /\ phase (crashOutcome r s) <> idle.
Proof.
  open_state s. unfold world_view. cells.
  destruct (Qlt_bool r (5 # 100)); cells;
    [destruct hasCashedRef0|]; cells; split; (reflexivity || discriminate).
Qed.

(** A frame of a running round keeps the invariant of the world and does
    not lower the collected multiplier. *)
Lemma loop_world_ok (e : TickEnv) (s : State) :
  synced s -> phaseRef s = running -> valid_event (ev_frame e) s ->
  world_ok s ->
  world_ok (loop e s) /\ collected s <= collected (loop e s).
Proof.
  intros Sy R (Vu & Vr & Vt & Vb) W.
  pose proof (advance_world_ok (te_ts e) s Vt W) as W1.
  pose proof (loop_frame e s Sy R) as F. cbv zeta in F.
  pose proof (loop_ledger e s) as L.
  pose proof (loop_hazard e s) as H.
  assert (So : obstaclesRef (advance (te_ts e) s) = obstacles s)
    by (apply Sy).
  assert (A1 : seqRef (advance (te_ts e) s) = seqRef s) by reflexivity.
  assert (A2 : speedRef (advance (te_ts e) s) = speedRef s) by reflexivity.
  assert (A3 : collected (advance (te_ts e) s) = collected s) by reflexivity.
  assert (A4 : obstacles (advance (te_ts e) s) = obstacles s) by reflexivity.
  assert (A5 : shipBoundsRef (advance (te_ts e) s) = shipBoundsRef s)
    by reflexivity.
  assert (Fc : frame_contact (te_ts e) (advance (te_ts e) s)
               = collide (te_ts e) (scrollRef (advance (te_ts e) s))
                   (shipLeft_of (advance (te_ts e) s))
                   (right (shipBoundsRef (advance (te_ts e) s))
                    + SHIP_RIGHT_PAD)
                   (obstaclesRef (advance (te_ts e) s))) by reflexivity.
  set (s1 := advance (te_ts e) s) in *. clearbody s1.
  destruct (frame_contact (te_ts e) s1) as [|o|o] eqn:C.
  3: { (* an iceberg *)
    rewrite (H o R eq_refl).
    destruct (crashOutcome_view (te_crash e) s1) as [V P].
    split.
    - apply world_ok_view with s1; [exact V| |exact W1].
      intro I. contradiction.
    - destruct (crashOutcome_cells (te_crash e) s1) as (_ & _ & _ & _ & Cc & _).
      rewrite Cc, A3. apply Qle_refl. }
  all: destruct F as (_ & Fo & Fq & Fsc & Fco & _); [discriminate|];
    specialize (L ltac:(discriminate)); unfold ledger_cells in L;
    injection L as Lp _ _ _ _ _ _ _ _ _ _ _ _ Lb _ Ls;
    destruct W1 as (Q1 & Q2 & Q3 & Q4 & Q5 & Q6 & Q7);
    rewrite A1 in Q1, Q4, Q6; rewrite A3 in Q3, Q4, Q6; rewrite A4 in Q5, Q6;
    rewrite A2 in Q2;
    destruct (plan_step (sd_mult (te_spawn e)) Vu (seqRef s) Q1)
      as (_ & Pm & Pq);
    change (fst (planNextMultiplier (sd_mult (te_spawn e)) (seqRef s)))
      with (plannedMultRef
              (snd (planNextMultiplier (sd_mult (te_spawn e)) (seqRef s))))
      in Pm;
    pose proof (frame_collected_mono (te_ts e) (scrollRef s1)
                  (shipLeft_of s1) (right (shipBoundsRef s1) + SHIP_RIGHT_PAD)
                  _ _ _ _ Q6 Q4) as [M1 M2];
    rewrite <- So in Q5, Q6;
    rewrite <- So, <- Fc in M1, M2;
    assert (Vb' : forall a, In a (obstaclesRef s1) -> ob_bornAt a <= te_ts e)
      by (intros a Ia; apply Vb; destruct Sy as (_ & _ & _ & _ & _ & Sr);
          rewrite Sr, <- So; exact Ia);
    (split; [|rewrite Fco; exact M1]);
    unfold world_ok, xmax_of, shipLeft_of, spawnWorldXFor;
    rewrite Fo, Fq, Fsc, Fco, Lp, Lb, Ls;
    unfold frame_obstacles;
    (destruct (frame_spawned _ s1) eqn:Sp;
     [ pose proof (frame_list_ok (te_ts e) (scrollRef s1) (shipLeft_of s1)
                     (right (shipBoundsRef s1) + SHIP_RIGHT_PAD)
                     (plannedMultRef (seqRef s))
                     (plannedMultRef
                        (snd (planNextMultiplier (sd_mult (te_spawn e))
                                (seqRef s))))
                     (xmax_of s1) (collected s) (obstaclesRef s1)
                     (frame_new e s1) (on_screen (scrollRef s1))
                     Q5 Q6 Vb') as K
     | pose proof (frame_list_ok (te_ts e) (scrollRef s1) (shipLeft_of s1)
                     (right (shipBoundsRef s1) + SHIP_RIGHT_PAD)
                     (plannedMultRef (seqRef s))
                     (plannedMultRef (seqRef s))
                     (xmax_of s1) (collected s) (obstaclesRef s1)
                     (mkObstacle EmptyString (xmax_of s1) 0 0
                        (plannedMultRef (seqRef s)) false ob_idle (te_ts e))
                     (on_screen (scrollRef s1))
                     Q5 Q6 Vb') as K ]).
  all: rewrite <- Fc in K.
  all: assert (Np : phase s <> idle)
    by (destruct Sy as (_ & _ & _ & Sp' & _); congruence).
  - (* no contact, spawn *)
    pose proof Pq as (_ & _ & P2 & _).
    assert (G3 : ob_multiplier (frame_new e s1)
                 = plannedMultRef
                     (snd (planNextMultiplier (sd_mult (te_spawn e))
                             (seqRef s))))
      by (unfold frame_new, new_obstacle; cbn [ob_multiplier];
          rewrite A1; reflexivity).
    destruct (K Pm M2 G3 P2 eq_refl eq_refl true) as [K1 K2].
    unfold xmax_of, shipLeft_of, spawnWorldXFor in K2.
    rewrite A2, A5 in K2.
    splits; try assumption; try (repeat split; assumption).
    + apply Qle_trans with (plannedMultRef (seqRef s)); assumption.
    + intro I. contradiction.
  - (* no contact, no spawn *)
    pose proof Q1 as (_ & _ & P2 & _).
    destruct (K (Qle_refl _) M2 eq_refl P2 eq_refl eq_refl false) as [K1 K2].
    unfold xmax_of, shipLeft_of, spawnWorldXFor in K2.
    rewrite A2, A5 in K2.
    splits; try assumption; try (repeat split; assumption).
    intro I. contradiction.
  - (* safe hit, spawn *)
    pose proof Pq as (_ & _ & P2 & _).
    assert (G3 : ob_multiplier (frame_new e s1)
                 = plannedMultRef
                     (snd (planNextMultiplier (sd_mult (te_spawn e))
                             (seqRef s))))
      by (unfold frame_new, new_obstacle; cbn [ob_multiplier];
          rewrite A1; reflexivity).
    destruct (K Pm Q4 G3 P2 eq_refl eq_refl true) as [K1 K2].
    unfold xmax_of, shipLeft_of, spawnWorldXFor in K2.
    rewrite A2, A5 in K2.
    splits; try assumption; try (repeat split; assumption).
    + apply Qle_trans with (collected s); assumption.
    + apply Qle_trans with (plannedMultRef (seqRef s)); assumption.
    + intro I. contradiction.
  - (* safe hit, no spawn *)
    pose proof Q1 as (_ & _ & P2 & _).
    destruct (K (Qle_refl _) Q4 eq_refl P2 eq_refl eq_refl false) as [K1 K2].
    unfold xmax_of, shipLeft_of, spawnWorldXFor in K2.
    rewrite A2, A5 in K2.
    splits; try assumption; try (repeat split; assumption).
    + apply Qle_trans with (collected s); assumption.
    + intro I. contradiction.
Qed.

Lemma plan_planned (u : Q) (q : Sequencer) :
  plannedMultRef (snd (planNextMultiplier u q)) = fst (planNextMultiplier u q).
Proof. reflexivity. Qed.

Lemma roundBegin_world_ok (stake : Q) (e : BeginEnv) (s : State) :
  valid_event (ev_round_begin e) s -> world_ok (roundBegin stake e s).
Proof.
  intros (V1 & V2 & V3).
  destruct (roundBegin_obstacles stake e s)
    as (Ho & Hq & Hs & Hsc & Hb & _).
  destruct (roundBegin_cells stake e s) as (Hp & _ & _ & Hc & _).
  destruct (plan_step _ V1 _ seq_reset_ok) as (_ & M1 & S1).
  destruct (plan_step _ V2 _ S1) as (_ & M2 & S2).
  rewrite plan_planned in M2.
  change (plannedMultRef seq_reset) with 1 in M1.
  set (m1 := fst (planNextMultiplier (sd_mult (be_first e)) seq_reset)) in *.
  set (q1 := snd (planNextMultiplier (sd_mult (be_first e)) seq_reset)) in *.
  set (m2 := fst (planNextMultiplier (sd_mult (be_second e)) q1)) in *.
  set (sp := Qmax 60 ((laneWidthRef s - 12 - right (shipBoundsRef s)) / 4)
             * SPEED_MULTIPLIER) in *.
  assert (Psp : 0 < sp).
  { unfold sp, SPEED_MULTIPLIER.
    pose proof (Q.le_max_l 60 ((laneWidthRef s - 12 - right (shipBoundsRef s)) / 4)).
    set (k := Qmax 60 _) in *. lra. }
  unfold world_ok, xmax_of, shipLeft_of, spawnWorldXFor.
  rewrite Ho, Hq, Hs, Hsc, Hb, Hc, Hp, plan_planned. fold m2.
  unfold HIT_INTERVAL, ICE_LEFT_PAD.
  splits; try assumption; try lra.
  - constructor; [constructor; constructor|].
    constructor; [|constructor].
    unfold ob_le, new_obstacle. cbn [ob_multiplier ob_x ob_bornAt].
    splits; lra.
  - constructor; [|constructor; [|constructor]];
      unfold ob_ok, new_obstacle; cbn [ob_multiplier ob_x ob_state];
      splits; try lra; intros _; left; lra.
  - discriminate.
Qed.

Lemma sorted_map_breaking (l : list Obstacle) :
  StronglySorted ob_le l -> StronglySorted ob_le (map set_breaking l).
Proof. apply StronglySorted_map. intros a b H. exact H. Qed.

Lemma ob_ok_map_breaking planned xmax coll scroll shipLeft l :
  Forall (ob_ok planned xmax coll scroll shipLeft) l ->
  Forall (ob_ok planned xmax coll scroll shipLeft) (map set_breaking l).
Proof.
  intro H. rewrite Forall_map. eapply Forall_impl; [|exact H].
  intros a (O1 & O2 & O3 & _). unfold ob_ok. cbn [set_breaking ob_multiplier
    ob_x ob_state]. splits; try assumption. discriminate.
Qed.

(** Every handler keeps the invariant of the world. *)
Lemma handle_world_ok (ev : Event) (s : State) :
  synced s -> valid_event ev s -> world_ok s -> world_ok (handle ev s).
Proof.
  intros Sy V W.
  destruct ev as [laneW b|v| | | | | | |e|e| |id].
  10: { (* ev_frame *)
    cbn [handle]. destruct (rafRef s); [|exact W].
    destruct (Phase_eqb (phaseRef s) running) eqn:E.
    - apply Phase_eqb_eq in E. now apply loop_world_ok.
    - rewrite loop_not_running.
      + apply world_ok_view with s; [reflexivity|trivial|exact W].
      + intro F. rewrite F in E. discriminate. }
  9: { (* ev_round_begin *)
    cbn [handle]. destruct (startPending s) as [stake|]; [|exact W].
    now apply roundBegin_world_ok. }
  all: clear V; revert Sy W; open_state s;
    unfold synced, world_ok, xmax_of, shipLeft_of, spawnWorldXFor; cells;
    intros (Sa & Sh & Sj & Sp & Sc & So)
           (W1 & W2 & W3 & W4 & W5 & W6 & W7); subst.
  - (* ev_ready *)
    case_if; cells; [|splits; assumption].
    apply andb_true_iff in Heqb0 as [_ I]. apply Phase_eqb_eq in I.
    rewrite (W7 I). splits; try assumption; try constructor.
  - case_if; cells; splits; assumption.
  - case_if; cells; splits; assumption.
  - case_if; cells; splits; assumption.
  - repeat (case_if; cells); splits; try assumption; discriminate.
  - repeat (case_if; cells); splits; assumption.
  - repeat (case_if; cells); splits; assumption.
  - (* ev_bet_timeout *)
    destruct betTimeoutRef0 as [c|]; cells; [|splits; assumption].
    repeat (case_if; cells); splits; try assumption; try discriminate.
    + now apply sorted_map_breaking.
    + now apply ob_ok_map_breaking.
    + intro I. now rewrite (W7 I).
  - (* ev_sweep *)
    case_if; cells; splits; try assumption.
    + now apply StronglySorted_filter.
    + now apply Forall_filter_keep.
    + intro I. now rewrite (W7 I).
  - (* ev_removal *)
    case_if; cells; splits; try assumption.
    + now apply StronglySorted_filter.
    + now apply Forall_filter_keep.
    + intro I. now rewrite (W7 I).
Qed.

Lemma step_world_ok (ev : Event) (s : State) :
  synced s -> valid_event ev s -> world_ok s -> world_ok (step ev s).
Proof.
  intros Sy V W. unfold step. apply commit_world_ok.
  now apply handle_world_ok.
Qed.

(** The states of a run whose events are valid satisfy the three
    invariants. *)
Lemma run_invariants (evs : list Event) (s : State) :
  synced s -> timers_ok s -> world_ok s -> valid_run evs s ->
  synced (run evs s) /\ timers_ok (run evs s) /\ world_ok (run evs s).
Proof.
  revert s. induction evs as [|ev evs IH]; intros s Sy T W V.
  - splits; assumption.
  - destruct V as [V1 V2]. rewrite run_cons. apply IH.
    + apply step_synced.
    + now apply step_timers.
    + now apply step_world_ok.
    + exact V2.
Qed.

(** ** The collected multiplier *)

Lemma valid_run_app (evs evs' : list Event) (s : State) :
  valid_run (evs ++ evs') s
  <-> valid_run evs s /\ valid_run evs' (run evs s).
Proof.
  revert s. induction evs as [|ev evs IH]; intro s; cbn [app valid_run].
  - change (run [] s) with s. tauto.
  - rewrite IH, run_cons. tauto.
Qed.

Lemma run_valid_invariants (evs : list Event) :
  valid_run evs init ->
  synced (run evs init) /\ timers_ok (run evs init)
  /\ world_ok (run evs init).
Proof.
  apply run_invariants;
    [apply init_synced|apply init_timers|apply init_world].
Qed.

(** The handlers other than the round start and the frame leave the
    collected multiplier alone. *)
Lemma handle_collected_same (ev : Event) (s : State) :
  (forall e, ev <> ev_round_begin e) -> (forall e, ev <> ev_frame e) ->
  collected (handle ev s) = collected s.
Proof.
  intros N1 N2.
  destruct ev as [laneW b|v| | | | | | |e|e| |id];
    try (elim (N1 e); reflexivity); try (elim (N2 e); reflexivity);
    open_state s; cells; repeat (case_if; cells); try reflexivity.
  all: destruct betTimeoutRef0; cells; repeat (case_if; cells); reflexivity.
Qed.

(** How a frame changes the collected multiplier. *)
Lemma frame_collected (e : TickEnv) (s : State) :
  synced s ->
  let c := frame_contact (te_ts e) (advance (te_ts e) s) in
  collected (handle (ev_frame e) s)
  = if rafRef s && Phase_eqb (phaseRef s) running
    then match c with safe_hit o => ob_multiplier o | _ => collected s end
    else collected s.
Proof.
  intros Sy c. cbn [handle]. destruct (rafRef s); [|reflexivity].
  cbn [andb]. destruct (Phase_eqb (phaseRef s) running) eqn:E.
  - apply Phase_eqb_eq in E. unfold c.
    destruct (frame_contact (te_ts e) (advance (te_ts e) s)) as [|o|o] eqn:C.
    + destruct (loop_frame e s Sy E) as (_ & _ & _ & _ & F & _);
        [rewrite C; discriminate|]. now rewrite F, C.
    + destruct (loop_frame e s Sy E) as (_ & _ & _ & _ & F & _);
        [rewrite C; discriminate|]. now rewrite F, C.
    + rewrite (loop_hazard e s o E C).
      now destruct (crashOutcome_cells (te_crash e) (advance (te_ts e) s))
        as (_ & _ & _ & _ & F & _).
  - rewrite loop_not_running; [reflexivity|].
    intro F. rewrite F in E. discriminate.
Qed.

(** C8.  In every state of a run with valid events the collected
    multiplier is at least 1.  An event that leaves the round running does
    not lower it.  The round start sets it to 1.  And an event changes it
    only if it is the round start, or a frame of the running round whose
    collision loop meets a safe obstacle of the list, whose multiplier it
    then takes. *)
Theorem collected_monotone (evs : list Event) (ev : Event) :
  valid_run evs init -> valid_event ev (run evs init) ->
  let s := run evs init in
  let s' := step ev s in
  1 <= collected s
  /\ (phase s = running -> phase s' = running -> collected s <= collected s')
  /\ (forall e stake,
        ev = ev_round_begin e -> startPending s = Some stake ->
        phase s = betting /\ phase s' = running /\ collected s' = 1)
  /\ (collected s' <> collected s ->
        (exists e stake, ev = ev_round_begin e /\ startPending s = Some stake)
        \/ (exists e o,
              ev = ev_frame e /\ phase s = running
              /\ frame_contact (te_ts e) (advance (te_ts e) s) = safe_hit o
              /\ ob_iceberg o = false /\ In o (obstacles s)
              /\ collected s' = ob_multiplier o)).
Proof.
  intros V Ve s s'.
  destruct (run_valid_invariants evs V) as (Sy & T & W).
  fold s in Sy, T, W.
  assert (Es' : collected s' = collected (handle ev s))
    by (unfold s', step; apply commit_collected).
  splits.
  - apply W.
  - intros R R'.
    destruct (crashes ev s) eqn:C.
    { unfold s' in R'. rewrite (crash_step_phase ev s C) in R'. discriminate. }
    destruct ev as [laneW b|v| | | | | | |e|e| |id];
      try (rewrite Es', handle_collected_same;
           [apply Qle_refl|discriminate|discriminate]).
    + (* a round start cannot be pending while the round runs *)
      rewrite Es'. cbn [handle].
      destruct (startPending s) as [st|] eqn:P; [|apply Qle_refl].
      destruct T as ((_ & _ & T2) & _).
      destruct (T2 st P) as (F & _). congruence.
    + rewrite Es'. cbn [handle]. destruct (rafRef s); [|apply Qle_refl].
      destruct Sy as (Sa & Sh & Sj & Sp & Sc & So).
      apply loop_world_ok; try assumption; [|congruence].
      repeat split; assumption.
  - intros e stake -> P.
    destruct T as ((_ & _ & T2) & _). destruct (T2 stake P) as (Pb & _).
    split; [exact Pb|].
    destruct (roundBegin_cells stake e (set_startPending None s))
      as (R1 & _ & _ & R4 & _).
    split.
    + unfold s', step. rewrite commit_phase. cbn [handle]. rewrite P.
      unfold round_over. now rewrite R1.
    + rewrite Es'. cbn [handle]. rewrite P. exact R4.
  - intro D. rewrite Es' in D.
    destruct ev as [laneW b|v| | | | | | |e|e| |id];
      try (elim D; apply handle_collected_same; discriminate).
    + left. cbn [handle] in D.
      destruct (startPending s) as [st|] eqn:P; [|elim D; reflexivity].
      exists e, st. split; reflexivity.
    + right. rewrite (frame_collected e s Sy) in D.
      destruct (rafRef s) eqn:Raf; [|elim D; reflexivity]. cbn [andb] in D.
      destruct (Phase_eqb (phaseRef s) running) eqn:E; [|elim D; reflexivity].
      apply Phase_eqb_eq in E.
      destruct (frame_contact (te_ts e) (advance (te_ts e) s))
        as [|o|o] eqn:C; try (elim D; reflexivity).
      exists e, o.
      pose proof C as C'. unfold frame_contact in C'.
      apply collide_safe in C' as (l1 & l2 & El & _ & _ & _ & Ice & _).
      destruct Sy as (Sa & Sh & Sj & Sp & Sc & So).
      splits; try reflexivity; try assumption.
      * congruence.
      * rewrite <- So.
        change (obstaclesRef s) with (obstaclesRef (advance (te_ts e) s)).
        rewrite El. apply in_elt.
      * rewrite Es', (frame_collected e s (conj Sa (conj Sh (conj Sj
          (conj Sp (conj Sc So)))))), Raf, E, C. reflexivity.
Qed.

(** ** The ledger *)

Lemma init_stake : stake_ok init.
Proof. split; [discriminate|reflexivity]. Qed.

Lemma commit_stake_ok (s : State) : stake_ok s -> stake_ok (commit s).
Proof.
  unfold stake_ok. rewrite commit_activeBet, commit_joined.
  destruct (round_over s); [|trivial].
  intros _. split; [discriminate|reflexivity].
Qed.

Lemma handle_stake_ok (ev : Event) (s : State) :
  synced s -> timers_ok s -> stake_ok s -> stake_ok (handle ev s).
Proof.
  intros Sy T K.
  destruct ev as [laneW b|v| | | | | | |e|e| |id].
  10: { (* ev_frame *)
    cbn [handle]. destruct (rafRef s); [|exact K].
    destruct (Phase_eqb (phaseRef s) running) eqn:E.
    - apply Phase_eqb_eq in E.
      destruct (frame_contact (te_ts e) (advance (te_ts e) s)) as [|o|o] eqn:C.
      + pose proof (loop_ledger e s) as L. rewrite C in L.
        specialize (L ltac:(discriminate)). unfold ledger_cells in L.
        injection L as _ _ _ La _ Lj _ _ _ _ _ _ _ _ _ _.
        unfold stake_ok. now rewrite La, Lj.
      + pose proof (loop_ledger e s) as L. rewrite C in L.
        specialize (L ltac:(discriminate)). unfold ledger_cells in L.
        injection L as _ _ _ La _ Lj _ _ _ _ _ _ _ _ _ _.
        unfold stake_ok. now rewrite La, Lj.
      + rewrite (loop_hazard e s o E C). revert K. clear. open_state s.
        unfold stake_ok. cells. intro K.
        destruct (Qlt_bool (te_crash e) (5 # 100)); cells;
          [destruct hasCashedRef0|]; cells; exact K.
    - rewrite loop_not_running; [exact K|].
      intro F. rewrite F in E. discriminate. }
  9: { (* ev_round_begin *)
    cbn [handle]. destruct (startPending s) as [stake|] eqn:P; [|exact K].
    destruct T as ((_ & _ & T2) & _). destruct (T2 stake P) as (_ & L & _).
    destruct (roundBegin_cells stake e (set_startPending None s))
      as (_ & _ & _ & _ & Rj & _ & _ & _ & _ & Ra).
    unfold stake_ok. rewrite Rj, Ra.
    change (joinedRef (set_startPending None s)) with (joinedRef s).
    change (joined (set_startPending None s)) with (joined s).
    destruct Sy as (_ & _ & Sj & _). rewrite Sj.
    destruct (joined s); split; try discriminate; try reflexivity.
    intros a Ha. injection Ha as <-. exact L. }
  all: revert Sy T K; open_state s;
    unfold synced, timers_ok, timers_pre, stake_ok; cells;
    intros (Sa & Sh & Sj & Sp & Sc & So) ((N & T1 & T2) & O) (K1 & K2); subst.
  8: { destruct betTimeoutRef0 as [c|]; cells; [|split; assumption].
       repeat (case_if; cells); split; (assumption || discriminate || trivial). }
  all: repeat (case_if; cells); split;
    try assumption; try discriminate; try reflexivity.
  (* placeBet *)
  intros a Ha. injection Ha as <-. apply clamp_lower.
Qed.

Lemma run_stake_ok (evs : list Event) : stake_ok (run evs init).
Proof.
  induction evs as [|ev evs IH] using rev_ind.
  - apply init_stake.
  - rewrite run_snoc. unfold step. apply commit_stake_ok.
    apply handle_stake_ok; [apply run_synced|apply run_timers|exact IH].
Qed.

Lemma balance_change (ev : Event) (s : State) :
  synced s -> timers_ok s ->
  let s' := step ev s in
  balance s' = balance s
  \/ (exists stake,
        deducts_stake ev s stake /\ 1 <= stake /\ stake <= balance s
        /\ balance s' = balance s - stake)
  \/ (credits_cash_out ev s /\ balance s' = balance s + payout s)
  \/ (credits_lifeboat ev s /\ balance s' = balance s + payout s).
Proof.
  intros Sy T s'.
  assert (Es' : balance s' = balance (handle ev s))
    by (unfold s', step; apply commit_balance).
  rewrite Es'. clear Es' s'.
  destruct ev as [laneW b|v| | | | | | |e|e| |id].
  10: { (* ev_frame *)
    cbn [handle]. destruct (rafRef s) eqn:Raf; [|now left].
    destruct (Phase_eqb (phaseRef s) running) eqn:E.
    - apply Phase_eqb_eq in E.
      destruct (frame_contact (te_ts e) (advance (te_ts e) s)) as [|o|o] eqn:C.
      + left. apply ledger_cells_balance, loop_ledger.
        rewrite C. discriminate.
      + left. apply ledger_cells_balance, loop_ledger.
        rewrite C. discriminate.
      + rewrite (loop_hazard e s o E C).
        destruct (crashOutcome_cells (te_crash e) (advance (te_ts e) s))
          as (_ & B & _). rewrite B.
        change (hasCashedRef (advance (te_ts e) s)) with (hasCashedRef s).
        change (activeBetRef (advance (te_ts e) s)) with (activeBetRef s).
        change (collectedRef (advance (te_ts e) s)) with (collectedRef s).
        change (balance (advance (te_ts e) s)) with (balance s).
        destruct Sy as (Sa & Sh & Sj & Sp & Sc & So).
        destruct (Qlt_bool (te_crash e) (5 # 100)) eqn:L; [|now left].
        destruct (hasCashedRef s) eqn:H; [now left|]. cbn [andb negb].
        right. right. right. split.
        * unfold credits_lifeboat. splits.
          -- exists e. split; [reflexivity|now apply Qlt_bool_iff].
          -- cbn [crashes]. rewrite Raf, E, C. reflexivity.
          -- congruence.
          -- congruence.
        * unfold payout. now rewrite Sa, Sc.
    - left. rewrite loop_not_running; [reflexivity|].
      intro F. rewrite F in E. discriminate. }
  9: { (* ev_round_begin *)
    cbn [handle]. destruct (startPending s) as [stake|] eqn:P; [|now left].
    destruct T as ((_ & _ & T2) & _). destruct (T2 stake P) as (Pb & L & U).
    destruct (roundBegin_cells stake e (set_startPending None s))
      as (_ & _ & _ & _ & _ & _ & _ & _ & Rb & _).
    rewrite Rb.
    change (joinedRef (set_startPending None s)) with (joinedRef s).
    change (balance (set_startPending None s)) with (balance s).
    destruct Sy as (_ & _ & Sj & _). rewrite Sj.
    destruct (joined s) eqn:J; [|now left].
    right. left. exists stake. unfold deducts_stake.
    splits; try assumption; try reflexivity. now exists e. }
  7: { (* ev_cash_out *)
    cbn [handle]. destruct (cashOut_valid s) eqn:V.
    - rewrite (cashOutNow_accepted s V). right. right. left.
      pose proof (proj1 (cashOut_valid_spec s Sy) V) as (R & J & H).
      destruct Sy as (Sa & _ & _ & _ & Sc & _).
      unfold credits_cash_out, payout. rewrite <- Sa, <- Sc.
      splits; try assumption; reflexivity.
    - left. now rewrite (cashOutNow_rejected s V). }
  all: left; clear; open_state s; cells; repeat (case_if; cells);
    try reflexivity.
  all: destruct betTimeoutRef0; cells; repeat (case_if; cells); reflexivity.
Qed.

Lemma payout_nonneg (s : State) : stake_ok s -> world_ok s -> 0 <= payout s.
Proof.
  intros (K1 & _) (_ & _ & W3 & _). unfold payout.
  apply Qmult_le_0_compat; [|lra].
  destruct (activeBet s) as [a|]; [|apply Qle_refl].
  specialize (K1 a eq_refl). lra.
Qed.

Lemma init_all_ok : all_ok init.
Proof.
  unfold all_ok. splits.
  - apply init_synced.
  - apply init_timers.
  - apply init_world.
  - apply init_stake.
  - discriminate.
Qed.

Lemma step_all_ok (ev : Event) (s : State) :
  valid_event ev s -> all_ok s -> all_ok (step ev s).
Proof.
  intros V (Sy & T & W & K & B). unfold all_ok. splits.
  - apply step_synced.
  - now apply step_timers.
  - now apply step_world_ok.
  - unfold step. apply commit_stake_ok. now apply handle_stake_ok.
  - pose proof (payout_nonneg s K W) as P.
    destruct (balance_change ev s Sy T)
      as [E|[(st & _ & L & U & E)|[(_ & E)|(_ & E)]]]; rewrite E; lra.
Qed.

Lemma run_all_ok (evs : list Event) (s : State) :
  all_ok s -> valid_run evs s -> all_ok (run evs s).
Proof.
  revert s. induction evs as [|ev evs IH]; intros s A V; [exact A|].
  destruct V as [V1 V2]. rewrite run_cons. apply IH; [|exact V2].
  now apply step_all_ok.
Qed.

(** C9.  In every state of a run with valid events the balance is at least
    0, and so is the payout.  An event leaves the balance as it is, or it
    is the round start of a joined player and deducts the stake, which is
    between 1 and the balance held at that moment, or it is an accepted
    cash-out or a lifeboat survival without an earlier cash-out and
    credits the payout. *)
Theorem balance_ledger (evs : list Event) (ev : Event) :
  valid_run evs init ->
  let s := run evs init in
  let s' := step ev s in
  0 <= balance s
  /\ 0 <= payout s
  /\ (balance s' = balance s
      \/ (exists stake,
            deducts_stake ev s stake /\ 1 <= stake /\ stake <= balance s
            /\ balance s' = balance s - stake)
      \/ (credits_cash_out ev s /\ balance s' = balance s + payout s)
      \/ (credits_lifeboat ev s /\ balance s' = balance s + payout s))
  /\ 0 <= balance s'.
Proof.
  intros V s s'.
  destruct (run_all_ok evs init init_all_ok V) as (Sy & T & W & K & B).
  fold s in Sy, T, W, K, B.
  pose proof (payout_nonneg s K W) as P.
  pose proof (balance_change ev s Sy T) as C. cbv zeta in C. fold s' in C.
  splits; try assumption.
  destruct C as [E|[(st & _ & L & U & E)|[(_ & E)|(_ & E)]]]; rewrite E; lra.
Qed.

(** ** The stake *)

Lemma syncRefs_rafRef (s : State) : rafRef (syncRefs s) = rafRef s.
Proof. open_state s. cells. reflexivity. Qed.

(** The round start, after the render. *)
Lemma round_begin_step (e : BeginEnv) (stake : Q) (s : State) :
  synced s -> startPending s = Some stake ->
  let s' := step (ev_round_begin e) s in
  phase s' = running /\ rafRef s' = true
  /\ idle_count (obstacles s') = 2%nat
  /\ nextIndexRef (seqRef s') = 3%Z
  /\ joined s' = joined s
  /\ balance s' = (if joined s then balance s - stake else balance s)
  /\ activeBet s' = (if joined s then Some stake else None).
Proof.
  intros Sy P s'.
  set (t := roundBegin stake e (set_startPending None s)).
  assert (Et : handle (ev_round_begin e) s = t)
    by (cbn [handle]; rewrite P; reflexivity).
  destruct (roundBegin_cells stake e (set_startPending None s))
    as (R1 & _ & _ & _ & R5 & _ & _ & _ & R9 & R10).
  destruct (roundBegin_obstacles stake e (set_startPending None s))
    as (O1 & O2 & _ & _ & _ & _ & _ & O8).
  fold t in R1, R5, R9, R10, O1, O2, O8.
  change (joinedRef (set_startPending None s)) with (joinedRef s) in *.
  change (joined (set_startPending None s)) with (joined s) in *.
  change (balance (set_startPending None s)) with (balance s) in *.
  destruct Sy as (_ & _ & Sj & _). rewrite Sj in R9, R10.
  clearbody t.
  assert (G : round_over t = false) by (unfold round_over; now rewrite R1).
  unfold s', step. rewrite Et.
  rewrite commit_phase, commit_obstacles, commit_seqRef, commit_joined,
    commit_balance, commit_activeBet, G.
  rewrite (commit_going t G).
  rewrite syncRefs_rafRef.
  splits; try assumption.
  - rewrite O1. reflexivity.
  - rewrite O2. reflexivity.
Qed.


(** ** Arrival of a spawned obstacle *)

(** A frame of a running round without a crash moves the world as
    [advance] does. *)
Lemma loop_kinematics (e : TickEnv) (s : State) :
  synced s -> phaseRef s = running ->
  (forall o, frame_contact (te_ts e) (advance (te_ts e) s) <> hazard_hit o) ->
  scrollRef (loop e s) = scrollRef (advance (te_ts e) s)
  /\ lastTsRef (loop e s) = lastTsRef (advance (te_ts e) s)
  /\ speedRef (loop e s) = speedRef s
  /\ shipBoundsRef (loop e s) = shipBoundsRef s.
Proof.
  intros Sy R N.
  destruct (loop_frame e s Sy R N) as (_ & _ & _ & F4 & _ & _ & F7).
  pose proof (loop_ledger e s N) as L. unfold ledger_cells in L.
  injection L as _ _ _ _ _ _ _ _ _ _ _ _ _ Lb _ Ls.
  splits; assumption.
Qed.

Lemma advance_all_cells (tss : list Q) (s : State) :
  scrollRef (advance_all tss s) == scrollRef s + speedRef s * sim_time tss s
  /\ speedRef (advance_all tss s) = speedRef s
  /\ shipBoundsRef (advance_all tss s) = shipBoundsRef s.
Proof.
  revert s. induction tss as [|ts tss IH]; intro s; cbn [advance_all sim_time].
  - splits; try reflexivity. lra.
  - destruct (IH (advance ts s)) as (I1 & I2 & I3).
    change (scrollRef (advance ts s))
      with (scrollRef s + speedRef s * frame_dt ts s) in I1.
    change (speedRef (advance ts s)) with (speedRef s) in I1, I2.
    change (shipBoundsRef (advance ts s)) with (shipBoundsRef s) in I3.
    splits; try assumption. rewrite I1. lra.
Qed.


(** The hypothesis on the span holds for every lane the layout can
    measure: when the round start computes the speed from a lane at most
    9000 px wider than the ship's right edge, an obstacle of width 220
    cannot jump over the ship within one frame, whose [dt] is at most
    0.05. *)
Lemma round_speed_within_span (stake : Q) (e : BeginEnv) (s0 : State)
    (o : Obstacle) (ts : Q) (st : State) :
  laneWidthRef s0 - right (shipBoundsRef s0) <= 9000 ->
  left (shipBoundsRef s0) <= right (shipBoundsRef s0) ->
  ob_width o == 220 ->
  let s := roundBegin stake e s0 in
  speedRef s * frame_dt ts st <= hit_span s o.
Proof.
  intros Hl Hb Hw s.
  destruct (roundBegin_obstacles stake e s0) as (_ & _ & Hsp & _ & Hbd & _).
  fold s in Hsp, Hbd.
  unfold hit_span, shipLeft_of. rewrite Hsp, Hbd, Hw.
  unfold SPEED_MULTIPLIER, SHIP_LEFT_PAD, SHIP_RIGHT_PAD, ICE_LEFT_PAD,
    ICE_RIGHT_PAD.
  set (R := right (shipBoundsRef s0)) in *.
  set (L := left (shipBoundsRef s0)) in *.
  set (W := laneWidthRef s0) in *.
  assert (D : frame_dt ts st <= 5 # 100) by (unfold frame_dt; apply Q.le_min_l).
  set (d := frame_dt ts st) in *.
  assert (M : Qmax 60 ((W - 12 - R) / 4) <= 2250).
  { apply Q.max_lub; [discriminate|].
    apply Qle_shift_div_r; [reflexivity|]. lra. }
  assert (P : 60 <= Qmax 60 ((W - 12 - R) / 4)) by apply Q.le_max_l.
  set (m := Qmax 60 ((W - 12 - R) / 4)) in *.
  assert (G : m * (15 # 10) * d <= m * (15 # 10) * (5 # 100)).
  { apply Qmult_le_l; [lra|exact D]. }
  lra.
Qed.

(** ** Checking a run *)

Lemma unit_drawb_sound (u : Q) : unit_drawb u = true -> unit_draw u.
Proof.
  unfold unit_drawb, unit_draw. rewrite andb_true_iff.
  intros [A B]. split; [now apply Qle_bool_iff|now apply Qlt_bool_iff].
Qed.

Lemma valid_eventb_sound (ev : Event) (s : State) :
  valid_eventb ev s = true -> valid_event ev s.
Proof.
  destruct ev as [laneW b|v| | | | | | |e|e| |id]; cbn [valid_eventb valid_event];
    trivial; rewrite !andb_true_iff.
  - intros [[A B] C]. splits.
    + now apply unit_drawb_sound.
    + now apply unit_drawb_sound.
    + now apply Qle_bool_iff.
  - intros [[[A B] C] D]. splits.
    + now apply unit_drawb_sound.
    + now apply unit_drawb_sound.
    + intros t Ht. rewrite Ht in C. now apply Qle_bool_iff.
    + intros o Io. rewrite forallb_forall in D.
      apply Qle_bool_iff. now apply D.
Qed.

Lemma valid_runb_sound (evs : list Event) (s : State) :
  valid_runb evs s = true -> valid_run evs s.
Proof.
  revert s. induction evs as [|ev evs IH]; intro s; cbn [valid_runb valid_run];
    [trivial|].
  rewrite andb_true_iff. intros [A B].
  split; [now apply valid_eventb_sound|now apply IH].
Qed.

(** ** A round played through *)

(** Scenario A: after the safe hit the collected multiplier is 1.20, one
    safe hit is counted and the balance is 990. *)
Example scenario_A :
  let s := run scenario_hit init in
  phase s = running /\ collected s == 12 # 10 /\ safeHits s = 1%Z
  /\ balance s == 990.
Proof. vm_compute. splits; reflexivity. Qed.

(** Scenario B: a cash-out right after the hit brings the balance to 1002,
    and a second one leaves it there. *)
Example scenario_B :
  balance (run (scenario_hit ++ [ev_cash_out]) init) == 1002
  /\ balance (run (scenario_hit ++ [ev_cash_out; ev_cash_out]) init) == 1002.
Proof. vm_compute. splits; reflexivity. Qed.

(** Scenario C: the player does not join; the round runs, the balance
    stays at 1000 and a cash-out changes nothing. *)
Example scenario_C :
  let evs := [ev_ready 980 (mkBounds 24 354); ev_bet_timeout;
              ev_round_begin scenario_draws]
             ++ frames 46 1000 45 (1 # 100) in
  let s := run evs init in
  phase s = running /\ collected s == 12 # 10 /\ balance s == 1000
  /\ cashOutNow s = s.
Proof.
  cbv zeta. split; [vm_compute; reflexivity|].
  split; [vm_compute; reflexivity|]. split; [vm_compute; reflexivity|].
  apply cashOutNow_rejected. vm_compute. reflexivity.
Qed.

Lemma hazard_contact_outcome_witness :
  phase (handle (ev_frame (scenario_frame (3 # 100))) (run scenario_sail init))
  = lifeboat
  /\ balance (handle (ev_frame (scenario_frame (3 # 100)))
                (run scenario_sail init))
     = balance (run scenario_sail init) + payout (run scenario_sail init)
  /\ phase (step (ev_frame (scenario_frame (3 # 100)))
              (run scenario_sail init)) = betting.
Proof.
  assert (H1 : rafRef (run scenario_sail init) = true)
    by (vm_compute; reflexivity).
  assert (H2 : phase (run scenario_sail init) = running)
    by (vm_compute; reflexivity).
  assert (H3 : frame_contact (te_ts (scenario_frame (3 # 100)))
                 (advance (te_ts (scenario_frame (3 # 100)))
                    (run scenario_sail init))
               = hazard_hit scenario_iceberg)
    by (vm_compute; reflexivity).
  destruct (hazard_contact_outcome scenario_sail (scenario_frame (3 # 100))
              scenario_iceberg H1 H2 H3) as (L & _ & _ & P).
  destruct L as (L1 & L2 & _); [vm_compute; reflexivity|].
  split; [exact L1|]. split; [|exact P].
  apply L2. vm_compute. reflexivity.
Defined.



Lemma collected_monotone_witness :
  let s := run scenario_approach init in
  let s' := step (ev_frame scenario_hit_frame) s in
  1 <= collected s /\ collected s <= collected s'
  /\ phase s' = running /\ collected s' == 12 # 10.
Proof.
  cbv zeta.
  assert (V : valid_run scenario_approach init)
    by (apply valid_runb_sound; vm_compute; reflexivity).
  assert (Ve : valid_event (ev_frame scenario_hit_frame)
                 (run scenario_approach init))
    by (apply valid_eventb_sound; vm_compute; reflexivity).
  assert (R' : phase (step (ev_frame scenario_hit_frame)
                        (run scenario_approach init)) = running)
    by (vm_compute; reflexivity).
  destruct (collected_monotone scenario_approach _ V Ve) as (A & M & _).
  split; [exact A|]. split; [|split; [exact R'|vm_compute; reflexivity]].
  apply M; [vm_compute; reflexivity|exact R'].
Defined.

Lemma balance_ledger_witness :
  0 <= balance (run scenario_hit init)
  /\ 0 <= balance (step ev_cash_out (run scenario_hit init)).
Proof.
  assert (V : valid_run scenario_hit init)
    by (apply valid_runb_sound; vm_compute; reflexivity).
  destruct (balance_ledger scenario_hit ev_cash_out V) as (A & _ & _ & B).
  split; assumption.
Defined.

(** ** The multipliers of a whole round *)

Lemma round2_comp (x y : Q) : x == y -> round2 x = round2 y.
Proof. intro E. unfold round2. now rewrite E. Qed.

(** The value planned next is not below the one planned last, whatever
    the index. *)
Lemma plan_from_sorted (q : Sequencer) (us : list Q) :
  seq_ok q -> Forall unit_draw us ->
  StronglySorted Qle (fst (plan_from q us))
  /\ Forall (fun v => on_grid v /\ plannedMultRef q <= v) (fst (plan_from q us)).
Proof.
  revert q. induction us as [|a us IH]; intros q Hq Hus.
  - split; constructor.
  - inversion Hus as [|? ? Ha Hrest]; subst.
    cbn [plan_from]. rewrite (plan_result a q).
    destruct (plan_step _ Ha _ Hq) as (_ & M & Hq').
    rewrite plan_result in Hq'. cbn [snd] in Hq'.
    destruct (IH _ Hq' Hrest) as (S1 & F1).
    destruct (plan_from _ us) as [ms q'']. cbn [fst plannedMultRef] in *.
    split.
    + constructor; [exact S1|].
      eapply Forall_impl; [|exact F1]. intros v (_ & L). exact L.
    + constructor; [split; [apply plan_on_grid|exact M]|].
      eapply Forall_impl; [|exact F1]. intros v (G & L).
      split; [exact G|]. eapply Qle_trans; [exact M|exact L].
Qed.

(** X1.  The multipliers planned in a round, in the order of the calls of
    [planNextMultiplier]: the list never decreases, and every value has at
    most two decimals and is at least 1.10. *)
Theorem round_multipliers_sorted (us : list Q) :
  Forall unit_draw us ->
  StronglySorted Qle (round_multipliers us)
  /\ Forall (fun v => on_grid v /\ 11 # 10 <= v) (round_multipliers us).
Proof.
  intro Hus. unfold round_multipliers.
  split; [apply plan_from_sorted; [apply seq_reset_ok|exact Hus]|].
  destruct us as [|a us]; [constructor|].
  inversion Hus as [|? ? Ha Hrest]; subst.
  cbn [plan_from]. rewrite (plan_result a seq_reset).
  destruct (plan_step _ Ha _ seq_reset_ok) as (_ & _ & Hq').
  rewrite plan_result in Hq'. cbn [snd] in Hq'.
  destruct (plan_from_sorted _ us Hq' Hrest) as (_ & F1).
  assert (L1 : 11 # 10 <= fst (planNextMultiplier a seq_reset)).
  { apply (plan_first a Ha seq_reset). reflexivity. }
  destruct (plan_from _ us) as [ms q'']. cbn [fst plannedMultRef] in *.
  constructor; [split; [apply plan_on_grid|exact L1]|].
  eapply Forall_impl; [|exact F1]. intros v (G & L).
  split; [exact G|]. eapply Qle_trans; [exact L1|exact L].
Qed.

Lemma round_multipliers_sorted_witness :
  StronglySorted Qle (round_multipliers [1 # 2; 3 # 5; 24 # 25])
  /\ Forall (fun v => on_grid v /\ 11 # 10 <= v)
            (round_multipliers [1 # 2; 3 # 5; 24 # 25]).
Proof.
  apply (round_multipliers_sorted [1 # 2; 3 # 5; 24 # 25]).
  repeat constructor; unfold Qle, Qlt; simpl; lia.
Defined.

(** ** The growth of the multipliers *)

(** From the sixth call on a value exceeds the previous one by at most
    3.00. *)
Lemma plan_late_upper (u : Q) (q : Sequencer) :
  unit_draw u ->
  (nextIndexRef q <> 1)%Z -> ~ (2 <= nextIndexRef q <= 5)%Z ->
  on_grid (plannedMultRef q) ->
  fst (planNextMultiplier u q) <= plannedMultRef q + 3.
Proof.
  intros [U0 U1] N1 N2 G. unfold planNextMultiplier.
  assert (E1 : (nextIndexRef q =? 1)%Z = false) by (apply Z.eqb_neq; lia).
  assert (E2 : ((2 <=? nextIndexRef q) && (nextIndexRef q <=? 5))%Z = false).
  { apply andb_false_iff.
    destruct (Z.leb_spec 2 (nextIndexRef q)); [right|left; reflexivity].
    apply Z.leb_gt. lia. }
  rewrite E1, E2. simpl fst. unfold rand.
  set (inc := round2 (u * (3 - 1) + 1)).
  assert (Hinc : inc <= 3).
  { unfold inc. apply round2_upper; [grid_const 300%Z|]. lra. }
  assert (Gs : on_grid (plannedMultRef q + inc)).
  { apply on_grid_plus; [assumption|apply round2_on_grid]. }
  rewrite (round2_fix _ Gs). lra.
Qed.

Lemma growth_step (u : Q) (q : Sequencer) :
  unit_draw u -> seq_ok q -> growth_ok q ->
  growth_ok (snd (planNextMultiplier u q)).
Proof.
  intros Hu Hq (A & B & C).
  destruct (plan_step _ Hu _ Hq) as ((B1 & B2 & B3) & M & _).
  destruct Hq as (I & G & _).
  pose proof (plan_late_upper u q Hu) as U.
  rewrite plan_result. unfold growth_ok. cbn [nextIndexRef plannedMultRef snd].
  set (v := fst (planNextMultiplier u q)) in *.
  set (i := nextIndexRef q) in *. set (p := plannedMultRef q) in *.
  assert (L : 11 # 10 <= v).
  { destruct (Z.eq_dec i 1) as [E|N].
    - apply (B1 E).
    - assert (H2 : (2 <= i)%Z) by lia. specialize (A H2).
      clear - A M. lra. }
  assert (V5 : (i <= 5)%Z -> v <= 21 # 10).
  { intro H. destruct (Z.eq_dec i 1) as [E|N].
    - destruct (B1 E) as (_ & H13). clear - H13. lra.
    - apply B2. lia. }
  split; [intros _; exact L|].
  split; [intro H; apply V5; lia|].
  intro H. destruct (Z.eq_dec i 5) as [E|N].
  - replace (i + 1 - 6)%Z with 0%Z by lia.
    assert (V : v <= 21 # 10) by (apply V5; lia).
    change (inject_Z 0) with 0. clear - L V. lra.
  - assert (H6 : (6 <= i)%Z) by lia.
    destruct (C H6) as (C1 & C2). specialize (B3 H6).
    assert (U' : v <= p + 3) by (apply U; [lia|lia|exact G]).
    replace (i + 1 - 6)%Z with ((i - 6) + 1)%Z by lia.
    rewrite inject_Z_plus. change (inject_Z 1) with 1.
    clear - C1 C2 B3 U'. lra.
Qed.

Lemma plan_from_growth (q : Sequencer) (us : list Q) :
  seq_ok q -> growth_ok q -> Forall unit_draw us ->
  growth_ok (snd (plan_from q us)).
Proof.
  revert q. induction us as [|a us IH]; intros q Hq Gq Hus.
  - exact Gq.
  - inversion Hus as [|? ? Ha Hrest]; subst.
    cbn [plan_from]. rewrite (plan_result a q).
    destruct (plan_step _ Ha _ Hq) as (_ & _ & Hq').
    pose proof (growth_step a q Ha Hq Gq) as Gq'.
    rewrite plan_result in Hq', Gq'. cbn [snd] in Hq', Gq'.
    specialize (IH _ Hq' Gq' Hrest).
    destruct (plan_from _ us) as [ms q'']. exact IH.
Qed.

(** X2.  The [n]-th multiplier of a round: up to the fifth it lies between
    1.10 and 2.10; from the fifth on it lies between [1.10 + (n - 5)] and
    [2.10 + 3 (n - 5)]. *)
Theorem round_multipliers_growth (us : list Q) :
  Forall unit_draw us ->
  let n := Z.of_nat (length us) in
  let v := last (round_multipliers us) 1 in
  (1 <= n)%Z ->
  ((n <= 5)%Z -> 11 # 10 <= v /\ v <= 21 # 10)
  /\ ((5 <= n)%Z ->
      (11 # 10) + inject_Z (n - 5) <= v
      /\ v <= (21 # 10) + 3 * inject_Z (n - 5)).
Proof.
  intros Hus n v Hn.
  assert (G0 : growth_ok seq_reset).
  { unfold growth_ok, seq_reset. cbn [nextIndexRef plannedMultRef].
    split; [|split]; intro; lia. }
  pose proof (plan_from_growth _ us seq_reset_ok G0 Hus) as (A & B & C).
  rewrite plan_from_index, plan_from_last in *.
  unfold seq_reset in *. cbn [nextIndexRef plannedMultRef] in *.
  fold (round_multipliers us) in *. fold v in A, B, C. fold n in A, B, C.
  split.
  - intro H. split; [apply A; lia|apply B; lia].
  - intro H. replace (n - 5)%Z with (1 + n - 6)%Z by lia. apply C. lia.
Qed.

Lemma round_multipliers_growth_witness :
  let us := [1 # 2; 3 # 5; 24 # 25; 1 # 2; 1 # 2; 1 # 2; 1 # 4] in
  (11 # 10) + inject_Z 2 <= last (round_multipliers us) 1
  /\ last (round_multipliers us) 1 <= (21 # 10) + 3 * inject_Z 2.
Proof.
  cbv zeta.
  apply (round_multipliers_growth [1 # 2; 3 # 5; 24 # 25; 1 # 2; 1 # 2; 1 # 2; 1 # 4]).
  - repeat constructor; unfold Qle, Qlt; simpl; lia.
  - simpl. lia.
  - simpl. lia.
Defined.

(** ** The retry of the second to fifth call *)

(** X3.  In the calls 2 to 5 the retry [if (next <= plannedMultRef.current)]
    never changes the result: the value is the previous one plus the drawn
    increment, capped at 2.10 and rounded. *)
Theorem retry_never_changes_plan (u : Q) (q : Sequencer) :
  0 <= u -> (2 <= nextIndexRef q <= 5)%Z ->
  fst (planNextMultiplier u q)
  = round2 (Qmin (21 # 10) (plannedMultRef q + rand u (5 # 100) (3 # 10))).
Proof.
  intros U0 I. unfold planNextMultiplier.
  assert (E1 : (nextIndexRef q =? 1)%Z = false) by (apply Z.eqb_neq; lia).
  assert (E2 : ((2 <=? nextIndexRef q) && (nextIndexRef q <=? 5))%Z = true).
  { apply andb_true_iff. split; apply Z.leb_le; lia. }
  rewrite E1, E2. simpl fst.
  set (last := plannedMultRef q).
  assert (Hinc : 5 # 100 <= rand u (5 # 100) (3 # 10)) by (unfold rand; lra).
  set (inc := rand u (5 # 100) (3 # 10)) in *.
  destruct (Qle_bool (Qmin (21 # 10) (last + inc)) last) eqn:B;
    [|reflexivity].
  apply Qle_bool_iff in B. apply round2_comp.
  destruct (Q.min_spec (21 # 10) (last + inc)) as [[H E]|[H E]];
    destruct (Q.min_spec (21 # 10) (last + (5 # 100))) as [[H' E']|[H' E']];
    rewrite E in B; rewrite ?E, ?E'; lra.
Qed.

Lemma retry_never_changes_plan_witness :
  fst (planNextMultiplier (1 # 2) (mkSequencer 2 (12 # 10)))
  = round2 (Qmin (21 # 10) ((12 # 10) + rand (1 # 2) (5 # 100) (3 # 10))).
Proof.
  apply (retry_never_changes_plan (1 # 2) (mkSequencer 2 (12 # 10))).
  - unfold Qle; simpl; lia.
  - simpl. lia.
Defined.

(** ** The bet field *)

Lemma roundBegin_bet (stake : Q) (e : BeginEnv) (s : State) :
  bet (roundBegin stake e s) = if joinedRef s then stake else bet s.
Proof.
  destruct s. unfold roundBegin, planNextMultiplier. cells.
  case_if; reflexivity.
Qed.

Lemma commit_bet (s : State) : bet (commit s) = bet s.
Proof.
  pose proof (commit_world s) as W. unfold world_cells in W. congruence.
Qed.

Lemma init_bet_ok : bet_ok init.
Proof.
  unfold bet_ok, init. cbn.
  split; [unfold Qle; simpl; lia|]. split; discriminate.
Qed.

Lemma commit_bet_ok (s : State) : bet_ok s -> bet_ok (commit s).
Proof.
  unfold bet_ok.
  rewrite commit_bet, commit_joined, commit_activeBet, commit_phase,
    commit_balance.
  destruct (round_over s) eqn:O; [|trivial].
  intros (B & _). split; [exact B|]. split; discriminate.
Qed.

Lemma handle_bet_ok (ev : Event) (s : State) :
  synced s -> timers_ok s -> bet_ok s -> bet_ok (handle ev s).
Proof.
  intros Sy T K.
  destruct ev as [laneW b|v| | | | | | |e|e| |id].
  10: { (* ev_frame *)
    cbn [handle]. destruct (rafRef s); [|exact K].
    destruct (Phase_eqb (phaseRef s) running) eqn:E.
    - apply Phase_eqb_eq in E.
      destruct (frame_contact (te_ts e) (advance (te_ts e) s)) as [|o|o] eqn:C.
      + pose proof (loop_ledger e s) as L. rewrite C in L.
        specialize (L ltac:(discriminate)). unfold ledger_cells in L.
        injection L as Lp Lb Lt La _ Lj _ _ _ _ _ _ _ _ _ _.
        unfold bet_ok. now rewrite Lp, Lb, Lt, La, Lj.
      + pose proof (loop_ledger e s) as L. rewrite C in L.
        specialize (L ltac:(discriminate)). unfold ledger_cells in L.
        injection L as Lp Lb Lt La _ Lj _ _ _ _ _ _ _ _ _ _.
        unfold bet_ok. now rewrite Lp, Lb, Lt, La, Lj.
      + rewrite (loop_hazard e s o E C). revert K. clear. open_cells s.
        unfold bet_ok. cells. intros (K1 & K2 & K3).
        destruct (Qlt_bool (te_crash e) (5 # 100)); cells;
          [destruct c_hasCashedRef|]; cells;
          (split; [exact K1|]); (split; [exact K2|]); discriminate.
    - rewrite loop_not_running; [exact K|].
      intro F. rewrite F in E. discriminate. }
  9: { (* ev_round_begin *)
    cbn [handle]. destruct (startPending s) as [stake|] eqn:P; [|exact K].
    destruct T as ((_ & _ & T2) & _). destruct (T2 stake P) as (_ & L & _).
    destruct (roundBegin_cells stake e (set_startPending None s))
      as (Rp & _ & _ & _ & Rj & _ & _ & _ & _ & Ra).
    unfold bet_ok. rewrite Rp, Rj, Ra, roundBegin_bet.
    change (joinedRef (set_startPending None s)) with (joinedRef s).
    change (joined (set_startPending None s)) with (joined s).
    change (bet (set_startPending None s)) with (bet s).
    destruct Sy as (_ & _ & Sj & _). rewrite Sj.
    destruct K as (K1 & _).
    destruct (joined s); (split; [assumption|]); split;
      try discriminate; reflexivity. }
  all: revert Sy T K; open_cells s;
    unfold synced, timers_ok, timers_pre, bet_ok; cells;
    intros (Sa & Sh & Sj & Sp & Sc & So) ((N & T1 & T2) & O) (K1 & K2 & K3);
    subst.
  8: { destruct c_betTimeoutRef as [c|]; cells;
         [|split; [assumption|split; assumption]].
       repeat (case_if; cells); (split; [assumption|]); split;
         (assumption || discriminate). }
  - (* ev_ready *)
    case_if; cells; (split; [assumption|]); split;
      (assumption || discriminate).
  - (* ev_bet_input *)
    case_if_eq Ed; cells; [|split; [assumption|split; assumption]].
    apply andb_true_iff in Ed as [_ J]. apply negb_true_iff in J. subst.
    split; [apply clamp_lower|]. split; [discriminate|assumption].
  - (* ev_bet_double *)
    case_if_eq Ed; cells; [|split; [assumption|split; assumption]].
    apply andb_true_iff in Ed as [_ J]. apply negb_true_iff in J. subst.
    split; [apply clamp_lower|]. split; [discriminate|assumption].
  - (* ev_bet_halve *)
    case_if_eq Ed; cells; [|split; [assumption|split; assumption]].
    apply andb_true_iff in Ed as [_ J]. apply negb_true_iff in J. subst.
    split; [apply Q.le_max_l|]. split; [discriminate|assumption].
  - (* placeBet *)
    repeat (case_if; cells); try (split; [assumption|split; assumption]).
    split; [apply clamp_lower|]. split; [reflexivity|].
    intros _ B a Ha. injection Ha as <-. now apply clamp_bounds.
  - (* cancelBet *)
    repeat (case_if; cells); (split; [assumption|]); split;
      (assumption || discriminate).
  - (* cashOutNow *)
    case_if_eq Er; cells; [split; [assumption|split; assumption]|].
    apply negb_false_iff, Phase_eqb_eq in Er. subst.
    repeat (case_if; cells); (split; [assumption|]); split;
      (assumption || discriminate).
  - (* ev_sweep *)
    case_if; cells; split; [assumption|split; assumption
                           |assumption|split; assumption].
  - (* ev_removal *)
    case_if; cells; split; [assumption|split; assumption
                           |assumption|split; assumption].
Qed.

Lemma run_bet_ok (evs : list Event) : bet_ok (run evs init).
Proof.
  induction evs as [|ev evs IH] using rev_ind.
  - apply init_bet_ok.
  - rewrite run_snoc. unfold step. apply commit_bet_ok.
    apply handle_bet_ok; [apply run_synced|apply run_timers|exact IH].
Qed.

(** X4.  In every state of a run the bet is at least 1, and while the
    player is joined the bet field shows the locked stake, which the three
    bet controls, being disabled, leave alone. *)
Theorem bet_field_invariant (evs : list Event) :
  let s := run evs init in
  1 <= bet s
  /\ (joined s = true ->
      activeBet s = Some (bet s)
      /\ forall v, handle (ev_bet_input v) s = s
                   /\ handle ev_bet_double s = s
                   /\ handle ev_bet_halve s = s).
Proof.
  cbv zeta. destruct (run_bet_ok evs) as (B1 & B2 & _).
  split; [exact B1|]. intro J. split; [exact (B2 J)|].
  intro v. cbn [handle]. unfold bet_editable. rewrite J.
  rewrite andb_false_r. repeat split.
Qed.

(** ** The steps of the betting window *)

(** The ref of the hit counter after a render. *)
Lemma commit_safeHitsRef (s : State) :
  safeHitsRef (commit s) = safeHits (commit s).
Proof.
  destruct (round_over s) eqn:E.
  - rewrite commit_over by assumption. reflexivity.
  - rewrite commit_going by assumption. reflexivity.
Qed.

Lemma run_safeHitsRef (evs : list Event) :
  safeHitsRef (run evs init) = safeHits (run evs init).
Proof.
  destruct evs as [|ev evs] using rev_ind; [reflexivity|].
  rewrite run_snoc. apply commit_safeHitsRef.
Qed.

(** A render of a state that needs none changes nothing. *)
Lemma commit_fix (s : State) :
  synced s -> safeHitsRef s = safeHits s -> round_over s = false ->
  commit s = s.
Proof.
  intros Sy Hh O. rewrite (commit_going s O). revert Sy Hh. clear O.
  open_cells s.
  unfold synced. cells. intros (Sa & Sh & Sj & Sp & Sc & So) Hh. subst.
  reflexivity.
Qed.

Lemma run_fix (evs : list Event) (ev : Event) :
  handle ev (run evs init) = run evs init ->
  step ev (run evs init) = run evs init.
Proof.
  intro H. unfold step. rewrite H.
  apply commit_fix; [apply run_synced|apply run_safeHitsRef|].
  apply (run_timers evs).
Qed.

Lemma commit_message (s : State) :
  message (commit s) = if round_over s then msg_place_your_bet else message s.
Proof.
  destruct (round_over s) eqn:E.
  - rewrite commit_over by assumption. reflexivity.
  - rewrite commit_going by assumption. reflexivity.
Qed.

Lemma round_over_phase (s : State) (p : Phase) :
  phase s = p -> p <> crashed -> p <> lifeboat -> round_over s = false.
Proof.
  unfold round_over. intros -> C L. destruct p; congruence.
Qed.

(** [placeBet] in the betting window: the guard on the stake never
    fires. *)
Lemma placeBet_betting (s : State) :
  phaseRef s = betting ->
  placeBet s
  = set_message (msg_bet_placed (clamp (bet s) 1 (balance s)))
      (set_bet (clamp (bet s) 1 (balance s))
         (set_activeBet (Some (clamp (bet s) 1 (balance s)))
            (set_joined true s))).
Proof.
  intro P. unfold placeBet. rewrite P. cbn [Phase_eqb negb]. cbv zeta.
  change (balance (set_joined true s)) with (balance s).
  rewrite (proj2 (Qlt_bool_false _ _) (clamp_lower (bet s) 1 (balance s))).
  reflexivity.
Qed.

(** [cancelBet] of a joined player in the betting window. *)
Lemma cancelBet_betting (s : State) :
  phaseRef s = betting -> joinedRef s = true ->
  cancelBet s
  = set_message msg_bet_canceled (set_activeBet None (set_joined false s)).
Proof.
  intros P J. unfold cancelBet. rewrite P, J. reflexivity.
Qed.

(** [startRound] when the balance allows a round and none is running. *)
Lemma startRound_go (c : Closure) (s : State) :
  1 <= cl_balance c -> phaseRef s <> running ->
  startRound c s
  = set_startPending
      (Some (if joinedRef s && Qlt_bool 0 (activeBetRef s)
             then clamp (activeBetRef s) 1 (cl_balance c)
             else clamp (cl_bet c) 1 (cl_balance c)))
      (set_sweepPending true
         (set_obstacles (map set_breaking (obstacles s))
            (clearBettingTimers (stopLoop s)))).
Proof.
  intros B P. unfold startRound.
  rewrite (proj2 (Qlt_bool_false _ _) B).
  destruct (phaseRef s); try (elim P; reflexivity); reflexivity.
Qed.

(** [startRound] when the balance of its closure is below the minimum
    stake. *)
Lemma startRound_broke (c : Closure) (s : State) :
  cl_balance c < 1 ->
  startRound c s
  = startBettingPhase c (set_message msg_insufficient_balance s).
Proof.
  intro B. unfold startRound.
  now rewrite (proj2 (Qlt_bool_iff _ _) B).
Qed.

Lemma clamp_inside (n a b : Q) : a <= n -> n <= b -> clamp n a b == n.
Proof.
  intros A B. unfold clamp.
  destruct (Q.min_spec b n) as [[H E]|[H E]];
    destruct (Q.max_spec a (Qmin b n)) as [[H' E']|[H' E']];
    rewrite E in *; rewrite E'; lra.
Qed.

Lemma step_going (ev : Event) (s : State) :
  round_over (handle ev s) = false -> step ev s = syncRefs (handle ev s).
Proof. intro O. unfold step. now apply commit_going. Qed.

Lemma step_place_bet (s : State) :
  synced s -> phase s = betting ->
  step ev_place_bet s
  = syncRefs
      (set_message (msg_bet_placed (clamp (bet s) 1 (balance s)))
         (set_bet (clamp (bet s) 1 (balance s))
            (set_activeBet (Some (clamp (bet s) 1 (balance s)))
               (set_joined true s)))).
Proof.
  intros (_ & _ & _ & Sp & _) P. rewrite <- Sp in P.
  rewrite step_going; cbn [handle]; rewrite (placeBet_betting s P).
  - reflexivity.
  - rewrite Sp in P. unfold round_over. cbn [phase set_message].
    cbn [phase set_bet]. cbn [phase set_activeBet]. cbn [phase set_joined].
    now rewrite P.
Qed.

Lemma step_cancel_bet (s : State) :
  synced s -> phase s = betting -> joined s = true ->
  step ev_cancel_bet s
  = syncRefs
      (set_message msg_bet_canceled (set_activeBet None (set_joined false s))).
Proof.
  intros (_ & _ & Sj & Sp & _) P J. rewrite <- Sp in P. rewrite <- Sj in J.
  rewrite step_going; cbn [handle]; rewrite (cancelBet_betting s P J).
  - reflexivity.
  - rewrite Sp in P. unfold round_over. cbn [phase set_message].
    cbn [phase set_activeBet]. cbn [phase set_joined].
    now rewrite P.
Qed.

(** X5.  Placing a bet and cancelling it leaves the player not joined,
    with the balance, the phase and the timers of before, but the bet
    field keeps the clamped amount. *)
Theorem place_then_cancel (evs : list Event) :
  let s := run evs init in
  phase s = betting ->
  let s1 := step ev_place_bet s in
  let s2 := step ev_cancel_bet s1 in
  joined s1 = true
  /\ activeBet s1 = Some (clamp (bet s) 1 (balance s))
  /\ joined s2 = false
  /\ activeBet s2 = None
  /\ bet s2 = clamp (bet s) 1 (balance s)
  /\ balance s2 = balance s
  /\ phase s2 = betting
  /\ betTimeoutRef s2 = betTimeoutRef s
  /\ startPending s2 = startPending s.
Proof.
  cbv zeta. intro P.
  pose proof (run_synced evs) as Sy.
  rewrite (step_place_bet _ Sy P).
  generalize (run evs init) P. clear. intros s P.
  set (t1 := set_message _ _).
  assert (P1 : phase (syncRefs t1) = betting) by exact P.
  assert (J1 : joined (syncRefs t1) = true) by reflexivity.
  rewrite (step_cancel_bet _ (syncRefs_synced t1) P1 J1).
  clear P1 J1. repeat split. exact P.
Qed.

Lemma place_then_cancel_witness :
  let s := run [ev_ready 980 (mkBounds 24 354); ev_bet_input 2000] init in
  joined (step ev_cancel_bet (step ev_place_bet s)) = false
  /\ bet (step ev_cancel_bet (step ev_place_bet s))
     = clamp (bet s) 1 (balance s).
Proof.
  cbv zeta.
  destruct (place_then_cancel
              [ev_ready 980 (mkBounds 24 354); ev_bet_input 2000])
    as (_ & _ & J & _ & B & _).
  - vm_compute. reflexivity.
  - split; [exact J|exact B].
Defined.

(** ** The stake of a round *)

Lemma step_bet_timeout_go (s : State) (c : Closure) :
  synced s -> betTimeoutRef s = Some c -> phase s = betting ->
  1 <= cl_balance c ->
  step ev_bet_timeout s
  = syncRefs
      (set_startPending
         (Some (if joined s && Qlt_bool 0 (activeBetRef s)
                then clamp (activeBetRef s) 1 (cl_balance c)
                else clamp (cl_bet c) 1 (cl_balance c)))
         (set_sweepPending true
            (set_obstacles (map set_breaking (obstacles s))
               (clearBettingTimers (stopLoop (clearBettingTimers s)))))).
Proof.
  intros (_ & _ & Sj & Sp & _) B P L.
  assert (R : phaseRef (clearBettingTimers s) <> running).
  { change (phaseRef (clearBettingTimers s)) with (phaseRef s).
    rewrite Sp, P. discriminate. }
  rewrite step_going; cbn [handle]; rewrite B;
    rewrite (startRound_go c _ L R);
    change (joinedRef (clearBettingTimers s)) with (joinedRef s);
    change (activeBetRef (clearBettingTimers s)) with (activeBetRef s);
    change (obstacles (clearBettingTimers s)) with (obstacles s);
    rewrite Sj.
  - reflexivity.
  - unfold round_over.
    change (phase (set_startPending ?a (set_sweepPending ?b
              (set_obstacles ?d
                 (clearBettingTimers (stopLoop (clearBettingTimers s)))))))
      with (phase s).
    now rewrite P.
Qed.

(** X6.  When the betting timer fires for a player who joined with the bet
    [a] and whose balance is at least 1, the stake handed to the round
    start is [a], and the round start deducts it. *)
Theorem timeout_takes_placed_bet (evs : list Event) (c : Closure) (a : Q)
    (e : BeginEnv) :
  let s := run evs init in
  betTimeoutRef s = Some c -> activeBet s = Some a -> joined s = true ->
  1 <= balance s ->
  let s1 := step ev_bet_timeout s in
  let s2 := step (ev_round_begin e) s1 in
  exists k,
    startPending s1 = Some k /\ k == a
    /\ joined s1 = true /\ balance s1 = balance s
    /\ phase s2 = running /\ activeBet s2 = Some k
    /\ balance s2 = balance s - k.
Proof.
  cbv zeta. intros B A J L.
  pose proof (run_synced evs) as Sy.
  destruct (run_timers evs) as ((_ & T1 & _) & _).
  destruct (T1 c B) as (P & _ & Cb).
  destruct (run_stake_ok evs) as (K1 & _). specialize (K1 a A).
  destruct (run_bet_ok evs) as (_ & _ & K3). specialize (K3 P L a A).
  assert (Lc : 1 <= cl_balance c) by (rewrite Cb; exact L).
  pose proof (step_bet_timeout_go _ c Sy B P Lc) as E1.
  assert (Ar : activeBetRef (run evs init) = a).
  { destruct Sy as (Sa & _). rewrite Sa, A. reflexivity. }
  rewrite Ar, J in E1.
  assert (Z : Qlt_bool 0 a = true) by (apply Qlt_bool_iff; lra).
  rewrite Z in E1. cbn [andb] in E1.
  pose proof (step_synced ev_bet_timeout (run evs init)) as Sy1.
  revert E1 Sy1 J. generalize (step ev_bet_timeout (run evs init)).
  revert Cb K1 K3. generalize (run evs init). clear.
  intros s Cb K1 K3 s1 E1 Sy1 J.
  exists (clamp a 1 (cl_balance c)).
  assert (Q1 : startPending s1 = Some (clamp a 1 (cl_balance c)))
    by (rewrite E1; reflexivity).
  assert (J1 : joined s1 = true) by (rewrite E1; exact J).
  assert (C1 : balance s1 = balance s) by (rewrite E1; reflexivity).
  destruct (round_begin_step e _ s1 Sy1 Q1) as (R1 & _ & _ & _ & _ & R6 & R7).
  rewrite J1 in R6, R7.
  split; [exact Q1|]. split; [apply clamp_inside; [exact K1|now rewrite Cb]|].
  split; [exact J1|]. split; [exact C1|]. split; [exact R1|].
  split; [exact R7|]. now rewrite R6, C1.
Qed.

Lemma timeout_takes_placed_bet_witness :
  let s := run [ev_ready 980 (mkBounds 24 354); ev_bet_input 250;
                ev_place_bet] init in
  exists k,
    startPending (step ev_bet_timeout s) = Some k /\ k == 250
    /\ balance (step (ev_round_begin scenario_draws) (step ev_bet_timeout s))
       = balance s - k.
Proof.
  cbv zeta.
  destruct (timeout_takes_placed_bet
              [ev_ready 980 (mkBounds 24 354); ev_bet_input 250; ev_place_bet]
              (mkClosure 1000 10) 250 scenario_draws)
    as (k & Q1 & E & _ & _ & _ & _ & B).
  - vm_compute. reflexivity.
  - vm_compute. reflexivity.
  - vm_compute. reflexivity.
  - vm_compute. discriminate.
  - exists k. split; [exact Q1|]. split; [exact E|exact B].
Defined.

(** X7.  A bet placed after the betting timer has fired, while the ship
    animation of [startRound] is still running, is reported as placed but
    is replaced at the round start by the stake computed when the timer
    fired. *)
Theorem late_bet_replaced (evs : list Event) (k : Q) (e : BeginEnv) :
  let s := run evs init in
  startPending s = Some k ->
  let placed := clamp (bet s) 1 (balance s) in
  let s1 := step ev_place_bet s in
  let s2 := step (ev_round_begin e) s1 in
  phase s = betting
  /\ joined s1 = true /\ activeBet s1 = Some placed
  /\ message s1 = msg_bet_placed placed
  /\ phase s2 = running /\ joined s2 = true
  /\ activeBet s2 = Some k /\ bet s2 = k
  /\ balance s2 = balance s - k.
Proof.
  cbv zeta. intros Q0.
  pose proof (run_synced evs) as Sy.
  destruct (run_timers evs) as ((_ & _ & T2) & _).
  destruct (T2 k Q0) as (P & _).
  pose proof (step_place_bet _ Sy P) as E1.
  pose proof (step_synced ev_place_bet (run evs init)) as Sy1.
  revert E1 Sy1. generalize (step ev_place_bet (run evs init)).
  revert P Q0. generalize (run evs init). clear.
  intros s P Q0 s1 E1 Sy1.
  assert (J1 : joined s1 = true) by (rewrite E1; reflexivity).
  assert (A1 : activeBet s1 = Some (clamp (bet s) 1 (balance s)))
    by (rewrite E1; reflexivity).
  assert (M1 : message s1 = msg_bet_placed (clamp (bet s) 1 (balance s)))
    by (rewrite E1; reflexivity).
  assert (C1 : balance s1 = balance s) by (rewrite E1; reflexivity).
  assert (Q1 : startPending s1 = Some k) by (rewrite E1; exact Q0).
  destruct (round_begin_step e _ s1 Sy1 Q1) as (R1 & _ & _ & _ & R5 & R6 & R7).
  rewrite J1 in R5, R6, R7.
  assert (B2 : bet (step (ev_round_begin e) s1) = k).
  { unfold step. rewrite commit_bet. cbn [handle]. rewrite Q1.
    rewrite roundBegin_bet.
    change (joinedRef (set_startPending None s1)) with (joinedRef s1).
    destruct Sy1 as (_ & _ & Sj & _). now rewrite Sj, J1. }
  split; [exact P|]. split; [exact J1|]. split; [exact A1|].
  split; [exact M1|]. split; [exact R1|]. split; [exact R5|].
  split; [exact R7|]. split; [exact B2|]. now rewrite R6, C1.
Qed.

Lemma late_bet_replaced_witness :
  let s := run [ev_ready 980 (mkBounds 24 354); ev_bet_input 500;
                ev_bet_timeout] init in
  let s1 := step ev_place_bet s in
  let s2 := step (ev_round_begin scenario_draws) s1 in
  startPending s = Some 10
  /\ clamp (bet s) 1 (balance s) = 500
  /\ message s1 = msg_bet_placed (clamp (bet s) 1 (balance s))
  /\ activeBet s2 = Some 10
  /\ balance s2 = balance s - 10.
Proof.
  cbv zeta.
  assert (Q0 : startPending
                 (run [ev_ready 980 (mkBounds 24 354); ev_bet_input 500;
                       ev_bet_timeout] init) = Some 10)
    by (vm_compute; reflexivity).
  destruct (late_bet_replaced
              [ev_ready 980 (mkBounds 24 354); ev_bet_input 500;
               ev_bet_timeout] 10 scenario_draws Q0)
    as (_ & _ & _ & M & _ & _ & A & _ & B).
  split; [exact Q0|]. split; [vm_compute; reflexivity|].
  split; [exact M|]. split; [exact A|exact B].
Defined.

(** ** The bet controls *)

(** X8.  Doubling the bet and halving it gives the bet back when it is a
    whole number and its double does not exceed the balance. *)
Theorem double_then_halve (s : State) (n : Z) :
  bet_editable s = true -> bet s == inject_Z n -> (1 <= n)%Z ->
  2 * bet s <= balance s ->
  let s1 := step ev_bet_double s in
  bet s1 == 2 * bet s
  /\ bet_editable s1 = true
  /\ bet (step ev_bet_halve s1) == bet s.
Proof.
  cbv zeta. intros Ed Bn N L.
  assert (N1 : 1 <= inject_Z n).
  { change 1 with (inject_Z 1). rewrite <- Zle_Qle. exact N. }
  pose proof Ed as Ed'. unfold bet_editable in Ed'.
  apply andb_true_iff in Ed' as (P & J).
  apply Phase_eqb_eq in P. apply negb_true_iff in J.
  assert (B1 : bet (step ev_bet_double s) = clamp (bet s * 2) 1 (balance s)).
  { unfold step. rewrite commit_bet. cbn [handle]. rewrite Ed. reflexivity. }
  assert (B1' : bet (step ev_bet_double s) == 2 * bet s).
  { rewrite B1, clamp_inside; lra. }
  assert (E1 : bet_editable (step ev_bet_double s) = true).
  { unfold bet_editable, step. rewrite commit_phase, commit_joined.
    cbn [handle]. rewrite Ed.
    unfold round_over.
    change (phase (set_bet ?v s)) with (phase s).
    change (joined (set_bet ?v s)) with (joined s).
    rewrite P, J. reflexivity. }
  split; [exact B1'|]. split; [exact E1|].
  revert B1' E1. generalize (step ev_bet_double s). intros s1 B1' E1.
  unfold step. rewrite commit_bet. cbn [handle]. rewrite E1.
  change (bet (set_bet ?v s1)) with v.
  assert (F : Qfloor (bet s1 / 2) = n).
  { rewrite <- (Qfloor_Z n). apply Qfloor_comp. rewrite B1', Bn. field. }
  rewrite F, Bn. apply Q.max_r. exact N1.
Qed.

Lemma double_then_halve_witness :
  let s := run [ev_ready 980 (mkBounds 24 354)] init in
  bet (step ev_bet_halve (step ev_bet_double s)) == bet s.
Proof.
  cbv zeta.
  apply (double_then_halve (run [ev_ready 980 (mkBounds 24 354)] init) 10).
  - vm_compute. reflexivity.
  - vm_compute. reflexivity.
  - lia.
  - vm_compute. discriminate.
Defined.

(** ** The phases of the game *)

Lemma round_over_same (s t : State) :
  phase t = phase s -> round_over t = round_over s.
Proof. unfold round_over. now intros ->. Qed.

Lemma crashes_running (ev : Event) (s : State) :
  synced s -> crashes ev s = true -> phase s = running.
Proof.
  intros (_ & _ & _ & Sp & _) C. destruct ev; try discriminate C.
  cbn [crashes] in C. apply andb_true_iff in C as (C & _).
  apply andb_true_iff in C as (_ & C). apply Phase_eqb_eq in C. congruence.
Qed.

(** What a handler does to the phase. *)
Lemma handle_phase (ev : Event) (s : State) :
  synced s -> timers_ok s ->
  phase (handle ev s) = phase s
  \/ (phase s = idle /\ phase (handle ev s) = betting
      /\ exists laneW b, ev = ev_ready laneW b)
  \/ (phase s = betting /\ phase (handle ev s) = running
      /\ exists e stake, ev = ev_round_begin e /\ startPending s = Some stake)
  \/ crashes ev s = true.
Proof.
  intros Sy T.
  destruct ev as [laneW b|v| | | | | | |e|e| |id].
  10: { (* ev_frame *)
    cbn [handle crashes]. destruct (rafRef s); [|left; reflexivity].
    destruct (Phase_eqb (phaseRef s) running) eqn:E.
    - apply Phase_eqb_eq in E. cbn [andb].
      destruct (frame_contact (te_ts e) (advance (te_ts e) s)) as [|o|o] eqn:C.
      + left. pose proof (loop_ledger e s) as L. rewrite C in L.
        specialize (L ltac:(discriminate)).
        apply ledger_cells_phase. exact L.
      + left. pose proof (loop_ledger e s) as L. rewrite C in L.
        specialize (L ltac:(discriminate)).
        apply ledger_cells_phase. exact L.
      + right. right. right. reflexivity.
    - left. rewrite loop_not_running; [reflexivity|].
      intro F. rewrite F in E. discriminate. }
  9: { (* ev_round_begin *)
    cbn [handle]. destruct T as ((_ & _ & T2) & _).
    destruct (startPending s) as [stake|] eqn:P; [|left; reflexivity].
    destruct (T2 stake eq_refl) as (Pb & _).
    destruct (roundBegin_cells stake e (set_startPending None s))
      as (R1 & _).
    right. right. left. split; [exact Pb|]. split; [exact R1|].
    exists e, stake. split; reflexivity. }
  all: revert Sy T; open_cells s;
    unfold synced, timers_ok, timers_pre, round_over; cells;
    intros (Sa & Sh & Sj & Sp & Sc & So) ((N & T1 & T2) & O); subst.
  - (* ev_ready *)
    case_if_eq Ed; cells; [|left; reflexivity].
    apply andb_true_iff in Ed as [_ I]. apply Phase_eqb_eq in I. subst.
    right. left. split; [reflexivity|]. split; [reflexivity|].
    exists laneW, b. reflexivity.
  - left. case_if; reflexivity.
  - left. case_if; reflexivity.
  - left. case_if; reflexivity.
  - left. repeat (case_if; cells); reflexivity.
  - left. repeat (case_if; cells); reflexivity.
  - left. repeat (case_if; cells); reflexivity.
  - (* ev_bet_timeout *)
    left. destruct c_betTimeoutRef as [c|]; cells; [|reflexivity].
    destruct (T1 c eq_refl) as (Pb & _). subst.
    repeat (case_if; cells); reflexivity.
  - left. case_if; reflexivity.
  - left. case_if; reflexivity.
Qed.

(** The same for a step. *)
Lemma step_phase (ev : Event) (s : State) :
  synced s -> timers_ok s ->
  phase (step ev s) = phase s
  \/ (phase s = idle /\ phase (step ev s) = betting
      /\ exists laneW b, ev = ev_ready laneW b)
  \/ (phase s = betting /\ phase (step ev s) = running
      /\ exists e stake, ev = ev_round_begin e /\ startPending s = Some stake)
  \/ (phase s = running /\ phase (step ev s) = betting
      /\ crashes ev s = true).
Proof.
  intros Sy T.
  destruct (handle_phase ev s Sy T) as [H|[(P & H & X)|[(P & H & X)|C]]].
  - left. unfold step. rewrite commit_phase, (round_over_same _ _ H).
    destruct T as (_ & O). now rewrite O.
  - right. left. split; [exact P|]. split; [|exact X].
    unfold step. rewrite commit_phase.
    rewrite (round_over_phase _ betting H); [exact H|discriminate..].
  - right. right. left. split; [exact P|]. split; [|exact X].
    unfold step. rewrite commit_phase.
    rewrite (round_over_phase _ running H); [exact H|discriminate..].
  - right. right. right. split; [now apply (crashes_running ev)|].
    split; [now apply crash_step_phase|exact C].
Qed.

(** X9.  The phases between two events are ["idle"], ["betting"] and
    ["running"], and an event changes the phase in three ways only: the
    readiness of the layout opens the first betting window, the
    continuation of [startRound] starts the round, and a frame that hits an
    iceberg ends it and opens the next betting window. *)
Theorem phase_transitions (evs : list Event) (ev : Event) :
  let s := run evs init in
  let s' := step ev s in
  (phase s = idle \/ phase s = betting \/ phase s = running)
  /\ (phase s' = phase s
      \/ (phase s = idle /\ phase s' = betting
          /\ exists laneW b, ev = ev_ready laneW b)
      \/ (phase s = betting /\ phase s' = running
          /\ exists e stake,
               ev = ev_round_begin e /\ startPending s = Some stake)
      \/ (phase s = running /\ phase s' = betting /\ crashes ev s = true)).
Proof.
  cbv zeta. split.
  - destruct (run_timers evs) as ((N & _) & O). unfold round_over in O.
    destruct (phase (run evs init)); auto; try discriminate.
    elim N. reflexivity.
  - apply step_phase; [apply run_synced|apply run_timers].
Qed.

(** ** A balance below the minimum stake *)

Lemma broke_step (ev : Event) (s : State) :
  synced s -> timers_ok s -> phase s = betting -> balance s < 1 ->
  phase (step ev s) = betting /\ balance (step ev s) = balance s.
Proof.
  intros Sy T P B. pose proof T as ((_ & _ & T2) & _). split.
  - destruct (step_phase ev s Sy T)
      as [H|[(I & _)|[(_ & _ & e & stake & _ & Q0)|(R & _)]]];
      try congruence.
    destruct (T2 stake Q0) as (_ & L1 & L2). lra.
  - destruct (balance_change ev s Sy T)
      as [H|[(stake & (_ & Q0 & _) & _)|[((_ & R & _) & _)|((_ & _ & R & _) & _)]]];
      try congruence.
    destruct (T2 stake Q0) as (_ & L1 & L2). lra.
Qed.

Lemma broke_run (evs : list Event) (s : State) :
  synced s -> timers_ok s -> phase s = betting -> balance s < 1 ->
  phase (run evs s) = betting /\ balance (run evs s) = balance s.
Proof.
  revert s. induction evs as [|ev evs IH]; intros s Sy T P B.
  - split; [exact P|reflexivity].
  - rewrite run_cons.
    destruct (broke_step ev s Sy T P B) as (P1 & B1).
    destruct (IH (step ev s)) as (P2 & B2).
    + apply step_synced.
    + now apply step_timers.
    + exact P1.
    + now rewrite B1.
    + split; [exact P2|]. now rewrite B2.
Qed.

(** X10.  Once a betting window opens with a balance below 1, no round
    ever starts again and the balance never changes: every timeout finds
    the balance insufficient and opens the betting window anew. *)
Theorem broke_player_stuck (evs0 evs : list Event) :
  let s := run evs0 init in
  phase s = betting -> balance s < 1 ->
  phase (run evs s) = betting /\ balance (run evs s) = balance s.
Proof.
  cbv zeta. intros P B.
  apply broke_run; [apply run_synced|apply run_timers|exact P|exact B].
Qed.

Lemma broke_player_stuck_witness :
  let s := run all_in_run init in
  let evs := [ev_bet_timeout; ev_place_bet; ev_bet_timeout;
              ev_round_begin all_in_draws] in
  phase (run evs s) = betting /\ balance (run evs s) = balance s.
Proof.
  cbv zeta. apply (broke_player_stuck all_in_run).
  - vm_compute. reflexivity.
  - vm_compute. reflexivity.
Defined.

(** ** The action button and the Space key *)

Lemma step_cash_out (s : State) :
  synced s -> phase s = running -> joined s = true -> hasCashed s = false ->
  step ev_cash_out s
  = syncRefs
      (set_message msg_cashed_out
         (set_hasCashed true
            (set_balance (balance s + activeBetRef s * collectedRef s) s))).
Proof.
  intros Sy P J H.
  assert (V : cashOut_valid s = true)
    by (apply cashOut_valid_spec; [exact Sy|repeat split; assumption]).
  rewrite step_going; cbn [handle]; rewrite (cashOutNow_accepted s V).
  - reflexivity.
  - unfold round_over.
    change (phase (set_message ?m (set_hasCashed ?h (set_balance ?b s))))
      with (phase s).
    now rewrite P.
Qed.

(** The amount on the [Cash Out] button is the amount [cashOutNow]
    credits. *)
Lemma payoutPreview_credit (s : State) :
  synced s -> stake_ok s -> joined s = true ->
  payoutPreview s = activeBetRef s * collectedRef s.
Proof.
  intros (Sa & _ & _ & _ & Sc & _) (K1 & _) J.
  unfold payoutPreview. rewrite J, Sa, Sc.
  destruct (activeBet s) as [a|]; [|reflexivity].
  specialize (K1 a eq_refl).
  destruct (Qeq_bool a 0) eqn:E; [|reflexivity].
  apply Qeq_bool_iff in E. lra.
Qed.

Lemma actionButtons_cases (s : State) :
  phase s <> cashed ->
  (actionButtons s = [btn_place_bet] /\ phase s = betting /\ joined s = false)
  \/ (actionButtons s = [btn_cancel_bet]
      /\ phase s = betting /\ joined s = true)
  \/ (actionButtons s = [btn_cash_out]
      /\ phase s = running /\ joined s = true /\ hasCashed s = false)
  \/ (actionButtons s = [btn_wait]
      /\ (phase s <> betting)
      /\ (phase s = running -> joined s = false \/ hasCashed s = true)).
Proof.
  intro N. unfold actionButtons.
  destruct (phase s) eqn:P; cbn [Phase_eqb orb app];
    try (elim N; reflexivity).
  - right. right. right. split; [reflexivity|]. split; discriminate.
  - destruct (joined s); cbn [negb].
    + right. left. repeat split.
    + left. repeat split.
  - destruct (joined s); cbn [andb negb].
    + destruct (hasCashed s); cbn [negb].
      * right. right. right. split; [reflexivity|]. split; [discriminate|].
        intros _. right. reflexivity.
      * right. right. left. repeat split.
    + right. right. right. split; [reflexivity|]. split; [discriminate|].
      intros _. left. reflexivity.
  - right. right. right. split; [reflexivity|]. split; discriminate.
  - right. right. right. split; [reflexivity|]. split; discriminate.
Qed.

(** X11.  In every state of a run the render shows exactly one action
    button.  A click on [Place Bet] joins the player and turns the button
    into [Cancel Bet]; a click on [Cancel Bet] does the reverse; a click on
    [Cash Out] credits the amount printed on the button, the payout
    preview, and turns the button into [Wait for next round]. *)
Theorem action_button (evs : list Event) :
  let s := run evs init in
  exists b,
    actionButtons s = [b]
    /\ let s' := commit (click b s) in
       match b with
       | btn_place_bet =>
           joined s' = true /\ actionButtons s' = [btn_cancel_bet]
       | btn_cancel_bet =>
           joined s' = false /\ actionButtons s' = [btn_place_bet]
       | btn_cash_out =>
           balance s' = balance s + payoutPreview s
           /\ actionButtons s' = [btn_wait]
       | btn_wait => s' = s
       end.
Proof.
  cbv zeta.
  pose proof (run_synced evs) as Sy.
  pose proof (run_stake_ok evs) as K.
  pose proof (run_safeHitsRef evs) as Hh.
  destruct (run_timers evs) as ((N & _) & O).
  revert Sy K Hh N O. generalize (run evs init). intros s Sy K Hh N O.
  destruct (actionButtons_cases s N)
    as [(A & P & J)|[(A & P & J)|[(A & P & J & H)|(A & _)]]].
  - exists btn_place_bet. split; [exact A|]. cbn [click].
    change (commit (placeBet s)) with (step ev_place_bet s).
    rewrite (step_place_bet s Sy P). unfold actionButtons.
    cbn [phase joined syncRefs set_obstaclesRef set_collectedRef
         set_safeHitsRef set_phaseRef set_joinedRef set_hasCashedRef
         set_activeBetRef set_message set_bet set_activeBet set_joined].
    rewrite P. split; reflexivity.
  - exists btn_cancel_bet. split; [exact A|]. cbn [click].
    change (commit (cancelBet s)) with (step ev_cancel_bet s).
    rewrite (step_cancel_bet s Sy P J). unfold actionButtons.
    cbn [phase joined syncRefs set_obstaclesRef set_collectedRef
         set_safeHitsRef set_phaseRef set_joinedRef set_hasCashedRef
         set_activeBetRef set_message set_activeBet set_joined].
    rewrite P. split; reflexivity.
  - exists btn_cash_out. split; [exact A|]. cbn [click].
    change (commit (cashOutNow s)) with (step ev_cash_out s).
    rewrite (step_cash_out s Sy P J H).
    rewrite (payoutPreview_credit s Sy K J). unfold actionButtons.
    cbn [phase joined hasCashed balance syncRefs set_obstaclesRef
         set_collectedRef set_safeHitsRef set_phaseRef set_joinedRef
         set_hasCashedRef set_activeBetRef set_message set_hasCashed
         set_balance].
    rewrite P, J. split; reflexivity.
  - exists btn_wait. split; [exact A|]. cbn [click].
    now apply commit_fix.
Qed.



(** ** The hit counter *)

Lemma frame_finish_hits (s : State) (f : Frame) :
  hit_cells (frame_finish (s, f)) = hit_cells s
  /\ removalScheduledRef (frame_finish (s, f))
     = scheduleRemovals (updated f) (removalScheduledRef s).
Proof.
  unfold frame_finish.
  destruct (cull _) as [s' f'] eqn:E.
  assert (Hs : s' = fst (cull (set_removalScheduledRef
             (scheduleRemovals (updated f) (removalScheduledRef s)) s, f)))
    by (rewrite E; reflexivity).
  rewrite cull_fst in Hs. cbn [fst] in Hs. subst s'.
  destruct (needCommit f'); split; reflexivity.
Qed.

(** The hit counter after a frame of a running round in which no iceberg
    is hit. *)
Lemma loop_hits (e : TickEnv) (s : State) :
  phaseRef s = running ->
  let c := frame_contact (te_ts e) (advance (te_ts e) s) in
  (forall o, c <> hazard_hit o) ->
  safeHits (loop e s)
  = (if is_safe_hit c then safeHits s + 1 else safeHits s)%Z.
Proof.
  intros R. cbv zeta.
  pose proof (loop_no_contact e s R) as LN.
  pose proof (fun o => loop_safe e s o R) as LS.
  assert (A1 : safeHits (advance (te_ts e) s) = safeHits s) by reflexivity.
  revert LN LS A1. generalize (advance (te_ts e) s). intros s1 LN LS A1 NH.
  assert (H : forall (s2 : State) (f : Frame),
             safeHits (frame_finish (s2, f)) = safeHits s2).
  { intros s2 f. destruct (frame_finish_hits s2 f) as (H & _).
    unfold hit_cells in H. congruence. }
  assert (Sp : forall d ts (s2 : State) upd,
             safeHits (fst (spawn d ts s2 upd)) = safeHits s2).
  { intros d ts s2 upd. rewrite spawn_eq. reflexivity. }
  destruct (frame_contact (te_ts e) s1) as [|o|o] eqn:C;
    [| |elim (NH o); reflexivity]; cbn [is_safe_hit].
  - rewrite (LN eq_refl), frame_spawns_eq.
    destruct (replaces false (obstaclesRef s1)).
    + rewrite H. cbn [safeHits set_spawnAccumRef]. now rewrite Sp.
    + destruct (cadences (spawnAccumRef s1) (obstaclesRef s1)).
      * rewrite H. cbn [safeHits set_spawnAccumRef]. now rewrite Sp.
      * now rewrite H.
  - rewrite (LS o eq_refl), frame_spawns_eq.
    assert (A2 : safeHits (safeHit o s1) = (safeHits s + 1)%Z)
      by (rewrite <- A1; reflexivity).
    revert A2. generalize (safeHit o s1). intros s2 A2.
    destruct (replaces true (mark_breaking o (obstaclesRef s1))).
    + rewrite H. cbn [safeHits set_spawnAccumRef]. now rewrite Sp.
    + destruct (cadences (spawnAccumRef s2)
                  (mark_breaking o (obstaclesRef s1))).
      * rewrite H. cbn [safeHits set_spawnAccumRef]. now rewrite Sp.
      * now rewrite H.
Qed.

Lemma idle_count_mark_lt (o : Obstacle) (l : list Obstacle) :
  In o l -> ob_state o = ob_idle ->
  (idle_count (mark_breaking o l) < idle_count l)%nat.
Proof.
  intros I St. pose proof (idle_count_mark o) as Le.
  induction l as [|a l IH]; [elim I|].
  unfold idle_count, mark_breaking in *. cbn [map filter].
  destruct I as [->|I].
  - rewrite String.eqb_refl. cbn [set_breaking ob_state is_idle].
    rewrite St. cbn [is_idle length]. specialize (Le l). lia.
  - specialize (IH I).
    destruct (String.eqb (ob_id a) (ob_id o));
      cbn [set_breaking ob_state is_idle];
      destruct (is_idle (ob_state a)); cbn [length]; lia.
Qed.

Lemma collide_idle ts scroll shipLeft shipRightNow prev o :
  collide ts scroll shipLeft shipRightNow prev = safe_hit o ->
  In o prev /\ ob_state o = ob_idle.
Proof.
  intro C. destruct (collide_safe _ _ _ _ _ _ C) as (l1 & l2 & E & St & _).
  split; [|exact St]. rewrite E. apply in_or_app. right. left. reflexivity.
Qed.

Lemma idle_count_new (d : SpawnDraw) (x m t : Q) (l : list Obstacle) :
  idle_count (l ++ [new_obstacle d x m t]) = S (idle_count l).
Proof. rewrite idle_count_app. unfold idle_count. cbn. lia. Qed.

Lemma init_hits_ok : hits_ok init.
Proof.
  unfold hits_ok, init. cbn. split; [lia|]. split; [lia|reflexivity].
Qed.

Lemma commit_hits_ok (s : State) : hits_ok s -> hits_ok (commit s).
Proof.
  pose proof (commit_world s) as W. unfold world_cells in W.
  assert (Wc : collected (commit s) = collected s) by congruence.
  assert (Wh : safeHits (commit s) = safeHits s) by congruence.
  assert (Wo : obstacles (commit s) = obstacles s) by congruence.
  assert (Wq : seqRef (commit s) = seqRef s) by congruence.
  unfold hits_ok. rewrite Wc, Wh, Wo, Wq. intro K. exact K.
Qed.

Lemma roundBegin_safeHits (stake : Q) (e : BeginEnv) (s : State) :
  safeHits (roundBegin stake e s) = 0%Z.
Proof.
  destruct s. unfold roundBegin, planNextMultiplier. cells.
  case_if; reflexivity.
Qed.

Lemma plan_index (u : Q) (q : Sequencer) :
  nextIndexRef (snd (planNextMultiplier u q)) = (nextIndexRef q + 1)%Z.
Proof. reflexivity. Qed.

Lemma handle_hits_ok (ev : Event) (s : State) :
  synced s -> (idle_count (obstacles s) <= 2)%nat ->
  hits_ok s -> hits_ok (handle ev s).
Proof.
  intros Sy I2 K.
  destruct ev as [laneW b|v| | | | | | |e|e| |id].
  10: { (* ev_frame *)
    cbn [handle]. destruct (rafRef s); [|exact K].
    destruct (Phase_eqb (phaseRef s) running) eqn:E.
    - apply Phase_eqb_eq in E.
      destruct (frame_contact (te_ts e) (advance (te_ts e) s)) as [|o|o] eqn:C.
      + destruct (loop_frame e s Sy E) as (_ & Lo & Lq & _ & Lc & _).
        { rewrite C. discriminate. }
        pose proof (loop_hits e s E) as Lh. cbv zeta in Lh.
        rewrite C in Lo, Lq, Lc, Lh. specialize (Lh ltac:(discriminate)).
        cbn [is_safe_hit] in Lh.
        destruct K as (K1 & K2 & K3).
        unfold hits_ok. rewrite Lo, Lq, Lc, Lh.
        split; [exact K1|]. split; [|exact K3].
        unfold frame_obstacles.
        pose proof (idle_count_filter
                      (on_screen (scrollRef (advance (te_ts e) s)))) as F.
        change (obstaclesRef (advance (te_ts e) s)) with (obstaclesRef s) in *.
        destruct Sy as (_ & _ & _ & _ & _ & So). rewrite So in *.
        cbn [frame_base] in *.
        destruct (frame_spawned no_contact (advance (te_ts e) s)).
        * specialize (F (obstacles s ++ [frame_new e (advance (te_ts e) s)])).
          unfold frame_new in F. rewrite idle_count_new in F.
          rewrite plan_index. unfold frame_new. lia.
        * specialize (F (obstacles s)). lia.
      + destruct (loop_frame e s Sy E) as (_ & Lo & Lq & _ & Lc & _).
        { rewrite C. discriminate. }
        pose proof (loop_hits e s E) as Lh. cbv zeta in Lh.
        rewrite C in Lo, Lq, Lc, Lh. specialize (Lh ltac:(discriminate)).
        cbn [is_safe_hit] in Lh.
        destruct K as (K1 & K2 & K3).
        unfold hits_ok. rewrite Lo, Lq, Lh.
        split; [lia|]. split; [|intro; lia].
        unfold frame_obstacles.
        pose proof (idle_count_filter
                      (on_screen (scrollRef (advance (te_ts e) s)))) as F.
        unfold frame_contact in C.
        destruct (collide_idle _ _ _ _ _ _ C) as (Io & St).
        change (obstaclesRef (advance (te_ts e) s)) with (obstaclesRef s) in *.
        pose proof (idle_count_mark_lt o _ Io St) as M.
        destruct Sy as (_ & _ & _ & _ & _ & So). rewrite So in *.
        cbn [frame_base] in *.
        destruct (frame_spawned (safe_hit o) (advance (te_ts e) s)).
        * specialize (F (mark_breaking o (obstacles s)
                           ++ [frame_new e (advance (te_ts e) s)])).
          unfold frame_new in F. rewrite idle_count_new in F.
          rewrite plan_index. unfold frame_new. lia.
        * specialize (F (mark_breaking o (obstacles s))). lia.
      + rewrite (loop_hazard e s o E C). revert K. clear. open_cells s.
        unfold hits_ok. cells. intro K.
        destruct (Qlt_bool (te_crash e) (5 # 100)); cells;
          [destruct c_hasCashedRef|]; cells; exact K.
    - rewrite loop_not_running; [exact K|].
      intro F. rewrite F in E. discriminate. }
  9: { (* ev_round_begin *)
    cbn [handle]. destruct (startPending s) as [stake|] eqn:P; [|exact K].
    destruct (roundBegin_cells stake e (set_startPending None s))
      as (_ & _ & _ & Rc & _).
    destruct (roundBegin_obstacles stake e (set_startPending None s))
      as (Ro & Rq & _).
    unfold hits_ok.
    rewrite Rc, Ro, Rq, roundBegin_safeHits, !plan_index.
    unfold seq_reset, idle_count. cbn. split; [lia|]. split; [lia|reflexivity]. }
  all: revert Sy I2 K; open_cells s;
    unfold synced, hits_ok; cells;
    intros (Sa & Sh & Sj & Sp & Sc & So) I2 (K1 & K2 & K3); subst.
  8: { (* ev_bet_timeout *)
       destruct c_betTimeoutRef as [c|]; cells;
         [|split; [assumption|split; assumption]].
       pose proof (idle_count_map_breaking set_breaking c_obstacles
                     (fun o => or_intror eq_refl)) as M.
       repeat (case_if; cells); (split; [assumption|]); split;
         (assumption || lia). }
  8: { (* ev_sweep *)
       pose proof (idle_count_filter (fun o => is_idle (ob_state o))
                     c_obstacles) as M.
       case_if; cells; (split; [assumption|]); split; (assumption || lia). }
  8: { (* ev_removal *)
       pose proof (idle_count_filter
                     (fun k => negb (String.eqb (ob_id k) id)) c_obstacles)
         as M.
       case_if; cells; (split; [assumption|]); split; (assumption || lia). }
  all: repeat (case_if; cells); (split; [assumption|]); split; assumption.
Qed.

Lemma run_hits_ok (evs : list Event) : hits_ok (run evs init).
Proof.
  induction evs as [|ev evs IH] using rev_ind.
  - apply init_hits_ok.
  - rewrite run_snoc. unfold step. apply commit_hits_ok.
    apply handle_hits_ok; [apply run_synced|apply run_idle_count|exact IH].
Qed.

(** X13.  The hit counter counts from 0 and never exceeds the number of
    obstacles planned in the round less the idle ones still in the lane:
    no obstacle is counted twice.  While the counter is 0 the collected
    multiplier is 1. *)
Theorem hits_counter (evs : list Event) :
  let s := run evs init in
  (0 <= safeHits s)%Z
  /\ (safeHits s + Z.of_nat (idle_count (obstacles s))
      <= nextIndexRef (seqRef s) - 1)%Z
  /\ (safeHits s = 0%Z -> collected s = 1).
Proof. apply run_hits_ok. Qed.



(** ** The obstacle list after a frame *)

Lemma not_crashing (e : TickEnv) (s : State) :
  rafRef s = true -> phaseRef s = running ->
  crashes (ev_frame e) s = false ->
  forall o, frame_contact (te_ts e) (advance (te_ts e) s) <> hazard_hit o.
Proof.
  intros R P C o F. cbn [crashes] in C.
  rewrite R, P, F in C. discriminate C.
Qed.

Lemma commit_scrollRef (s : State) : scrollRef (commit s) = scrollRef s.
Proof.
  pose proof (commit_world s) as W. unfold world_cells in W. congruence.
Qed.

Lemma filter_on_screen (scroll : Q) (l : list Obstacle) (o : Obstacle) :
  In o (filter (on_screen scroll) l) ->
  -40 < (ob_x o - scroll) + ob_width o.
Proof.
  intro I. apply filter_In in I as (_ & H). unfold on_screen in H.
  now apply Qlt_bool_iff in H.
Qed.

Lemma mark_breaking_keeps (o a : Obstacle) (l : list Obstacle) :
  In a l -> In a (mark_breaking o l) \/ In (set_breaking a) (mark_breaking o l).
Proof.
  intro I. unfold mark_breaking.
  destruct (String.eqb (ob_id a) (ob_id o)) eqn:E.
  - right. apply in_map_iff. exists a. rewrite E. split; [reflexivity|exact I].
  - left. apply in_map_iff. exists a. rewrite E. split; [reflexivity|exact I].
Qed.

(** X15.  After a frame of a running round in which no iceberg is hit,
    no obstacle of the list lies wholly more than 40 px beyond the left
    edge of the lane, and every obstacle that does not is still in the
    list, idle as before or breaking. *)
Theorem frame_culls_off_screen (evs : list Event) (e : TickEnv) :
  let s := run evs init in
  rafRef s = true -> phase s = running -> crashes (ev_frame e) s = false ->
  let s' := step (ev_frame e) s in
  (forall o, In o (obstacles s') ->
     -40 < (ob_x o - scrollRef s') + ob_width o)
  /\ (forall o, In o (obstacles s) ->
        -40 < (ob_x o - scrollRef s') + ob_width o ->
        In o (obstacles s') \/ In (set_breaking o) (obstacles s')).
Proof.
  cbv zeta. intros R P C.
  pose proof (run_synced evs) as Sy.
  revert Sy R P C. generalize (run evs init). intros s Sy R P C.
  assert (Pr : phaseRef s = running).
  { destruct Sy as (_ & _ & _ & Sp & _). congruence. }
  destruct (loop_frame e s Sy Pr (not_crashing e s R Pr C))
    as (_ & Lo & _ & Ls & _).
  unfold step. rewrite commit_obstacles, commit_scrollRef.
  cbn [handle]. rewrite R, Lo, Ls. unfold frame_obstacles.
  change (obstaclesRef (advance (te_ts e) s)) with (obstaclesRef s).
  destruct Sy as (_ & _ & _ & _ & _ & So). rewrite So.
  set (sc := scrollRef (advance (te_ts e) s)).
  split.
  - intros o I. now apply filter_on_screen in I.
  - intros o I V.
    assert (B : In o (frame_base
                        (frame_contact (te_ts e) (advance (te_ts e) s))
                        (obstacles s))
                \/ In (set_breaking o)
                      (frame_base
                         (frame_contact (te_ts e) (advance (te_ts e) s))
                         (obstacles s))).
    { destruct (frame_contact (te_ts e) (advance (te_ts e) s)) as [|h|h];
        cbn [frame_base]; [left; exact I| |left; exact I].
      now apply mark_breaking_keeps. }
    assert (Vb : on_screen sc o = true)
      by (unfold on_screen; now apply Qlt_bool_iff).
    assert (Vs : on_screen sc (set_breaking o) = true) by exact Vb.
    destruct B as [B|B]; [left|right]; apply filter_In;
      (split; [|assumption]);
      destruct (frame_spawned _ _); try (apply in_or_app; left); exact B.
Qed.

Lemma frame_culls_off_screen_witness :
  let s' := step (ev_frame scenario_hit_frame) (run scenario_approach init) in
  let o := nth 0 (obstacles s') scenario_first in
  -40 < (ob_x o - scrollRef s') + ob_width o.
Proof.
  cbv zeta.
  destruct (frame_culls_off_screen scenario_approach scenario_hit_frame)
    as (A & _).
  - vm_compute. reflexivity.
  - vm_compute. reflexivity.
  - vm_compute. reflexivity.
  - apply A. vm_compute. left. reflexivity.
Defined.

(** ** The replacement of a hit obstacle *)

(** The spawn accumulator after a frame of a running round in which no
    iceberg is hit. *)
Lemma loop_accum (e : TickEnv) (s : State) :
  phaseRef s = running ->
  let s1 := advance (te_ts e) s in
  let c := frame_contact (te_ts e) s1 in
  let base := frame_base c (obstaclesRef s1) in
  (forall o, c <> hazard_hit o) ->
  spawnAccumRef (loop e s)
  = if replaces (is_safe_hit c) base then 0
    else if cadences (spawnAccumRef s1) base
         then spawnAccumRef s1 - HIT_INTERVAL
         else spawnAccumRef s1.
Proof.
  intros R. cbv zeta.
  pose proof (loop_no_contact e s R) as LN.
  pose proof (fun o => loop_safe e s o R) as LS.
  revert LN LS. generalize (advance (te_ts e) s). intros s1 LN LS NH.
  assert (H : forall (s2 : State) (f : Frame),
             spawnAccumRef (frame_finish (s2, f)) = spawnAccumRef s2).
  { intros s2 f. pose proof (frame_finish_motion s2 f) as M.
    unfold motion_cells in M. congruence. }
  destruct (frame_contact (te_ts e) s1) as [|o|o] eqn:C;
    [| |elim (NH o); reflexivity]; cbn [is_safe_hit frame_base].
  - rewrite (LN eq_refl), frame_spawns_eq.
    destruct (replaces false (obstaclesRef s1)).
    + rewrite H. reflexivity.
    + destruct (cadences (spawnAccumRef s1) (obstaclesRef s1));
        rewrite H; reflexivity.
  - rewrite (LS o eq_refl), frame_spawns_eq.
    change (spawnAccumRef (safeHit o s1)) with (spawnAccumRef s1).
    destruct (replaces true (mark_breaking o (obstaclesRef s1))).
    + rewrite H. reflexivity.
    + destruct (cadences (spawnAccumRef s1)
                  (mark_breaking o (obstaclesRef s1)));
        rewrite H; reflexivity.
Qed.

(** X16.  A safe hit is always replaced in the same frame: the hit
    obstacle is marked as breaking, one obstacle is planned and appended
    two intervals ahead, the cadence accumulator restarts at 0, the hit
    counter goes up by one and the collected multiplier becomes the one of
    the hit obstacle. *)
Theorem safe_hit_is_replaced (evs : list Event) (e : TickEnv) (o : Obstacle) :
  let s := run evs init in
  rafRef s = true -> phase s = running ->
  frame_contact (te_ts e) (advance (te_ts e) s) = safe_hit o ->
  let s1 := advance (te_ts e) s in
  let s' := step (ev_frame e) s in
  In o (obstacles s) /\ ob_state o = ob_idle /\ ob_iceberg o = false
  /\ obstacles s'
     = filter (on_screen (scrollRef s'))
         (mark_breaking o (obstacles s) ++ [frame_new e s1])
  /\ ob_x (frame_new e s1) - scrollRef s'
     == right (shipBoundsRef s) - ICE_LEFT_PAD
        + speedRef s * (2 * HIT_INTERVAL)
  /\ nextIndexRef (seqRef s') = (nextIndexRef (seqRef s) + 1)%Z
  /\ spawnAccumRef s' = 0
  /\ safeHits s' = (safeHits s + 1)%Z
  /\ collected s' = ob_multiplier o
  /\ phase s' = running.
Proof.
  cbv zeta. intros R P C.
  pose proof (run_synced evs) as Sy.
  pose proof (run_idle_count evs) as I2.
  pose proof (run_timers evs) as T.
  revert Sy I2 T R P C. generalize (run evs init). intros s Sy I2 T R P C.
  assert (Pr : phaseRef s = running).
  { destruct Sy as (_ & _ & _ & Sp & _). congruence. }
  assert (NH : forall h, frame_contact (te_ts e) (advance (te_ts e) s)
                         <> hazard_hit h) by (rewrite C; discriminate).
  destruct (loop_frame e s Sy Pr NH) as (_ & Lo & Lq & Ls & Lc & _).
  pose proof (loop_hits e s Pr NH) as Lh.
  pose proof (loop_accum e s Pr NH) as La.
  pose proof (loop_ledger e s NH) as Ll.
  rewrite C in Lo, Lq, Lc, Lh, La. cbn [is_safe_hit frame_base] in Lh, La.
  pose proof C as C'. unfold frame_contact in C'.
  destruct (collide_safe _ _ _ _ _ _ C') as (l1 & l2 & _ & _ & _ & _ & Ib & _).
  destruct (collide_idle _ _ _ _ _ _ C') as (Io & St).
  change (obstaclesRef (advance (te_ts e) s)) with (obstaclesRef s) in *.
  pose proof (idle_count_mark_lt o _ Io St) as M.
  assert (So : obstaclesRef s = obstacles s) by apply Sy.
  rewrite So in *.
  assert (Rp : replaces true (mark_breaking o (obstacles s)) = true).
  { unfold replaces. cbn [andb]. apply Nat.ltb_lt. lia. }
  assert (Fs : frame_spawned (safe_hit o) (advance (te_ts e) s) = true).
  { unfold frame_spawned. cbn [is_safe_hit frame_base].
    change (obstaclesRef (advance (te_ts e) s)) with (obstaclesRef s).
    rewrite So, Rp. reflexivity. }
  rewrite Rp in La. unfold frame_obstacles in Lo. rewrite Fs in Lo, Lq.
  cbn [frame_base] in Lo.
  change (obstaclesRef (advance (te_ts e) s)) with (obstaclesRef s) in Lo.
  rewrite So in Lo.
  assert (W : world_cells (step (ev_frame e) s)
              = world_cells (loop e s)).
  { unfold step. cbn [handle]. rewrite R. apply commit_world. }
  unfold world_cells in W.
  assert (Wc : collected (step (ev_frame e) s) = collected (loop e s))
    by congruence.
  assert (Wh : safeHits (step (ev_frame e) s) = safeHits (loop e s))
    by congruence.
  assert (Wo : obstacles (step (ev_frame e) s) = obstacles (loop e s))
    by congruence.
  assert (Wq : seqRef (step (ev_frame e) s) = seqRef (loop e s))
    by congruence.
  assert (Wa : spawnAccumRef (step (ev_frame e) s) = spawnAccumRef (loop e s))
    by congruence.
  assert (Ws : scrollRef (step (ev_frame e) s) = scrollRef (loop e s))
    by congruence.
  assert (Ph : phase (step (ev_frame e) s) = running).
  { unfold step. cbn [handle]. rewrite R, commit_phase.
    apply ledger_cells_phase in Ll.
    rewrite (round_over_phase _ running); congruence. }
  rewrite Wc, Wh, Wo, Wq, Wa, Ws, Lo, Lq, Ls, Lc, Lh, La, plan_index.
  split; [exact Io|]. split; [exact St|]. split; [exact Ib|].
  split; [reflexivity|].
  split; [|repeat split; exact Ph].
  unfold frame_new, new_obstacle, spawnWorldXFor. cbn [ob_x].
  change (shipBoundsRef (advance (te_ts e) s)) with (shipBoundsRef s).
  change (speedRef (advance (te_ts e) s)) with (speedRef s).
  ring.
Qed.

Lemma safe_hit_is_replaced_witness :
  let s := run scenario_approach init in
  let s' := step (ev_frame scenario_hit_frame) s in
  spawnAccumRef s' = 0
  /\ safeHits s' = (safeHits s + 1)%Z
  /\ collected s' = ob_multiplier scenario_first.
Proof.
  cbv zeta.
  destruct (safe_hit_is_replaced scenario_approach scenario_hit_frame
              scenario_first)
    as (_ & _ & _ & _ & _ & _ & A & H & C & _).
  - vm_compute. reflexivity.
  - vm_compute. reflexivity.
  - vm_compute. reflexivity.
  - split; [exact A|]. split; [exact H|exact C].
Defined.

(** ** The balance over a round *)





(** ** The simulated time *)

Lemma frame_dt_bounds (ts t0 : Q) (s : State) :
  clock_start s [ts] = t0 -> t0 <= ts ->
  0 <= frame_dt ts s /\ frame_dt ts s <= 5 # 100
  /\ frame_dt ts s <= (ts - t0) / 1000.
Proof.
  unfold clock_start, frame_dt. cbn [hd]. intros E L.
  assert (D : (match lastTsRef s with Some t => t | None => ts end) = t0
              \/ (ts - match lastTsRef s with Some t => t | None => ts end)
                 == 0).
  { destruct (lastTsRef s); [left; exact E|right; ring]. }
  set (last := match lastTsRef s with Some t => t | None => ts end) in *.
  assert (Dl : (ts - last) / 1000 <= (ts - t0) / 1000 /\ 0 <= (ts - last) / 1000).
  { destruct D as [->|Z].
    - split; [apply Qle_refl|]. apply Qle_shift_div_l; [reflexivity|lra].
    - rewrite Z. split; [|unfold Qdiv; lra].
      apply Qle_shift_div_l; [reflexivity|]. unfold Qdiv. lra. }
  destruct Dl as (D1 & D2).
  destruct (Q.min_spec (5 # 100) ((ts - last) / 1000)) as [[H E']|[H E']];
    rewrite E'; repeat split; lra.
Qed.

Lemma sim_time_bounds (tss : list Q) (s : State) :
  clock_ok (clock_start s tss) tss ->
  0 <= sim_time tss s
  /\ sim_time tss s <= (5 # 100) * inject_Z (Z.of_nat (length tss))
  /\ sim_time tss s
     <= (last tss (clock_start s tss) - clock_start s tss) / 1000.
Proof.
  revert s. induction tss as [|t rest IH]; intros s C.
  - cbn [sim_time length last]. change (inject_Z (Z.of_nat 0)) with 0.
    split; [apply Qle_refl|]. split; [lra|].
    unfold Qdiv. setoid_replace (clock_start s [] - clock_start s []) with 0
      by ring. lra.
  - destruct C as (C1 & C2).
    assert (S1 : clock_start s [t] = clock_start s (t :: rest))
      by reflexivity.
    destruct (frame_dt_bounds t _ s S1 C1) as (D1 & D2 & D3).
    assert (S2 : clock_start (advance t s) rest = t) by reflexivity.
    specialize (IH (advance t s)). rewrite S2 in IH.
    destruct (IH C2) as (I1 & I2 & I3).
    cbn [sim_time]. rewrite last_cons_default.
    set (t0 := clock_start s (t :: rest)) in *.
    replace (Z.of_nat (length (t :: rest)))
      with (Z.of_nat (length rest) + 1)%Z by (cbn [length]; lia).
    rewrite inject_Z_plus. change (inject_Z 1) with 1.
    split; [lra|]. split; [lra|].
    assert (E : (last rest t - t0) / 1000
                == (t - t0) / 1000 + (last rest t - t) / 1000) by field.
    rewrite E. lra.
Qed.

(** X18.  The simulated time of a sequence of frames with a monotone clock
    is not negative, at most 50 ms per frame, and at most the time elapsed
    on the clock; the scroll is the speed times the simulated time. *)
Theorem sim_time_bounded (tss : list Q) (s : State) :
  let t0 := clock_start s tss in
  clock_ok t0 tss ->
  0 <= sim_time tss s
  /\ sim_time tss s <= (5 # 100) * inject_Z (Z.of_nat (length tss))
  /\ sim_time tss s <= (last tss t0 - t0) / 1000
  /\ scrollRef (advance_all tss s)
     == scrollRef s + speedRef s * sim_time tss s.
Proof.
  cbv zeta. intro C.
  destruct (sim_time_bounds tss s C) as (A & B & D).
  split; [exact A|]. split; [exact B|]. split; [exact D|].
  apply advance_all_cells.
Qed.

Lemma sim_time_bounded_witness :
  let s := run scenario_start init in
  0 <= sim_time (stamps 45 1000 45) s
  /\ sim_time (stamps 45 1000 45) s <= (5 # 100) * inject_Z 45.
Proof.
  cbv zeta.
  destruct (sim_time_bounded (stamps 45 1000 45) (run scenario_start init))
    as (A & B & _).
  - vm_compute. repeat split; discriminate.
  - split; [exact A|exact B].
Defined.

(** ** Where obstacles are spawned *)

Lemma roundBegin_lane (stake : Q) (e : BeginEnv) (s : State) :
  laneWidthRef (roundBegin stake e s) = laneWidthRef s
  /\ removalScheduledRef (roundBegin stake e s) = removalScheduledRef s
  /\ sweepPending (roundBegin stake e s) = sweepPending s.
Proof.
  destruct s. unfold roundBegin, planNextMultiplier. cells.
  case_if; repeat split.
Qed.

Lemma commit_speed_ok (s : State) : speed_ok s -> speed_ok (commit s).
Proof.
  pose proof (commit_world s) as W. unfold world_cells in W.
  assert (Ws : speedRef (commit s) = speedRef s) by congruence.
  assert (Wb : shipBoundsRef (commit s) = shipBoundsRef s) by congruence.
  assert (Wl : laneWidthRef (commit s) = laneWidthRef s) by congruence.
  unfold speed_ok, speed_of_lane. rewrite Ws, Wb, Wl, commit_phase.
  intros K P. apply K. destruct (round_over s); [discriminate|exact P].
Qed.

Lemma handle_speed_ok (ev : Event) (s : State) :
  synced s -> timers_ok s -> speed_ok s -> speed_ok (handle ev s).
Proof.
  intros Sy T K.
  destruct ev as [laneW b|v| | | | | | |e|e| |id].
  10: { (* ev_frame *)
    cbn [handle]. destruct (rafRef s); [|exact K].
    destruct (Phase_eqb (phaseRef s) running) eqn:E.
    - apply Phase_eqb_eq in E.
      assert (Keep : ledger_cells (loop e s) = ledger_cells s ->
                     speed_ok (loop e s)).
      { intro L. unfold ledger_cells in L.
        assert (Lp : phase (loop e s) = phase s) by congruence.
        assert (Ls : speedRef (loop e s) = speedRef s) by congruence.
        assert (Lb : shipBoundsRef (loop e s) = shipBoundsRef s)
          by congruence.
        assert (Ll : laneWidthRef (loop e s) = laneWidthRef s) by congruence.
        unfold speed_ok, speed_of_lane. rewrite Lp, Ls, Lb, Ll. exact K. }
      destruct (frame_contact (te_ts e) (advance (te_ts e) s)) as [|o|o] eqn:C.
      + apply Keep, loop_ledger. rewrite C. discriminate.
      + apply Keep, loop_ledger. rewrite C. discriminate.
      + rewrite (loop_hazard e s o E C). clear. open_cells s.
        unfold speed_ok. cells.
        destruct (Qlt_bool (te_crash e) (5 # 100)); cells;
          [destruct c_hasCashedRef|]; cells; discriminate.
    - rewrite loop_not_running; [exact K|].
      intro F. rewrite F in E. discriminate. }
  9: { (* ev_round_begin *)
    cbn [handle]. destruct (startPending s) as [stake|] eqn:P; [|exact K].
    destruct (roundBegin_obstacles stake e (set_startPending None s))
      as (_ & _ & Rs & _ & Rb & _).
    destruct (roundBegin_lane stake e (set_startPending None s)) as (Rl & _).
    unfold speed_ok, speed_of_lane. rewrite Rs, Rb, Rl. reflexivity. }
  all: revert Sy T K; open_cells s;
    unfold synced, timers_ok, timers_pre, speed_ok, speed_of_lane; cells;
    intros (Sa & Sh & Sj & Sp & Sc & So) ((N & T1 & T2) & O) K; subst.
  8: { destruct c_betTimeoutRef as [c|]; cells; [|exact K].
       destruct (T1 c eq_refl) as (Pb & _). subst.
       repeat (case_if; cells); discriminate. }
  - case_if; cells; [discriminate|exact K].
  - case_if; cells; exact K.
  - case_if; cells; exact K.
  - case_if; cells; exact K.
  - repeat (case_if; cells); exact K.
  - repeat (case_if; cells); exact K.
  - repeat (case_if; cells); exact K.
  - case_if; cells; exact K.
  - case_if; cells; exact K.
Qed.

Lemma run_speed_ok (evs : list Event) : speed_ok (run evs init).
Proof.
  induction evs as [|ev evs IH] using rev_ind.
  - discriminate.
  - rewrite run_snoc. unfold step. apply commit_speed_ok.
    apply handle_speed_ok; [apply run_synced|apply run_timers|exact IH].
Qed.

Lemma beyond_lane (laneW shipRight : Q) :
  laneW + 58
  <= shipRight - ICE_LEFT_PAD
     + Qmax 60 ((laneW - 12 - shipRight) / 4) * SPEED_MULTIPLIER
       * (2 * HIT_INTERVAL).
Proof.
  unfold ICE_LEFT_PAD, SPEED_MULTIPLIER, HIT_INTERVAL.
  destruct (Q.max_spec 60 ((laneW - 12 - shipRight) / 4)) as [[H E]|[H E]];
    rewrite E.
  - assert (X : 4 * ((laneW - 12 - shipRight) / 4) == laneW - 12 - shipRight)
      by field.
    lra.
  - assert (X : 4 * ((laneW - 12 - shipRight) / 4) == laneW - 12 - shipRight)
      by field.
    lra.
Qed.

(** X19.  Every obstacle the frame callback spawns, and the second of the
    two obstacles of a round start, is placed with its left edge at least
    58 px beyond the right edge of the lane, whatever the geometry
    measured: it scrolls into view. *)
Theorem spawns_beyond_lane (evs : list Event) :
  let s := run evs init in
  (phase s = running ->
   forall e ts,
     let s1 := advance ts s in
     laneWidthRef s + 58 <= ob_x (frame_new e s1) - scrollRef s1)
  /\ (forall be stake o,
        startPending s = Some stake ->
        let s' := step (ev_round_begin be) s in
        nth_error (obstacles s') 1 = Some o ->
        scrollRef s' = 0 /\ laneWidthRef s + 58 <= ob_x o).
Proof.
  cbv zeta. split.
  - intros P e ts. pose proof (run_speed_ok evs P) as K.
    revert K. generalize (run evs init). intros s K.
    unfold frame_new, new_obstacle, spawnWorldXFor. cbn [ob_x].
    change (shipBoundsRef (advance ts s)) with (shipBoundsRef s).
    change (speedRef (advance ts s)) with (speedRef s).
    rewrite K. unfold speed_of_lane.
    pose proof (beyond_lane (laneWidthRef s) (right (shipBoundsRef s))) as B.
    set (sp := Qmax 60 _ * SPEED_MULTIPLIER) in *.
    set (sc := scrollRef (advance ts s)). clearbody sp sc. lra.
  - intros be stake o Q0. unfold step.
    rewrite commit_obstacles, commit_scrollRef. cbn [handle]. rewrite Q0.
    destruct (roundBegin_obstacles stake be
                (set_startPending None (run evs init)))
      as (Ro & _ & _ & Rc & _).
    rewrite Ro, Rc. cbn [nth_error]. intro E. injection E as <-.
    split; [reflexivity|]. unfold new_obstacle. cbn [ob_x].
    change (shipBoundsRef (set_startPending None (run evs init)))
      with (shipBoundsRef (run evs init)).
    change (laneWidthRef (set_startPending None (run evs init)))
      with (laneWidthRef (run evs init)).
    pose proof (beyond_lane (laneWidthRef (run evs init))
                  (right (shipBoundsRef (run evs init)))) as B.
    set (sp := Qmax 60 _ * SPEED_MULTIPLIER) in *. clearbody sp. lra.
Qed.

(** ** The removal of breaking ice *)

Lemma existsb_id (id : string) (l : list string) :
  existsb (String.eqb id) l = true <-> In id l.
Proof.
  rewrite existsb_exists. split.
  - intros (x & I & E). apply String.eqb_eq in E. now subst.
  - intro I. exists id. split; [exact I|apply String.eqb_refl].
Qed.

Lemma scheduleRemovals_spec (upd : list Obstacle) (sched : list string) :
  NoDup sched ->
  NoDup (scheduleRemovals upd sched)
  /\ (forall id, In id sched -> In id (scheduleRemovals upd sched))
  /\ (forall o, In o upd -> ob_state o = ob_breaking ->
        In (ob_id o) (scheduleRemovals upd sched)).
Proof.
  unfold scheduleRemovals. revert sched.
  induction upd as [|a upd IH]; intros sched N; cbn [fold_left].
  - split; [exact N|]. split; [auto|]. intros o [].
  - set (acc := if negb (is_idle (ob_state a))
                   && negb (existsb (String.eqb (ob_id a)) sched)
                then sched ++ [ob_id a] else sched).
    assert (Na : NoDup acc).
    { unfold acc. destruct (negb (is_idle (ob_state a))); cbn [andb];
        [|exact N].
      destruct (existsb (String.eqb (ob_id a)) sched) eqn:E; cbn [negb];
        [exact N|].
      apply NoDup_app; [exact N|repeat constructor; intros []|].
      intros x I [<-|[]].
      apply existsb_id in I. congruence. }
    assert (Ia : forall id, In id sched -> In id acc).
    { intros id I. unfold acc.
      destruct (_ && _); [apply in_or_app; left|]; exact I. }
    assert (Ca : ob_state a = ob_breaking -> In (ob_id a) acc).
    { intro St. unfold acc. rewrite St. cbn [is_idle negb andb].
      destruct (existsb (String.eqb (ob_id a)) sched) eqn:E; cbn [negb].
      - now apply existsb_id.
      - apply in_or_app. right. left. reflexivity. }
    destruct (IH acc Na) as (I1 & I2 & I3).
    split; [exact I1|]. split; [intros id I; apply I2, Ia, I|].
    intros o [<-|I] St; [apply I2, Ca, St|now apply I3].
Qed.

Lemma frame_finish_sweep (s : State) (f : Frame) :
  sweepPending (frame_finish (s, f)) = sweepPending s.
Proof.
  unfold frame_finish.
  destruct (cull _) as [s' f'] eqn:E.
  assert (Hs : s' = fst (cull (set_removalScheduledRef
             (scheduleRemovals (updated f) (removalScheduledRef s)) s, f)))
    by (rewrite E; reflexivity).
  rewrite cull_fst in Hs. cbn [fst] in Hs. subst s'.
  destruct (needCommit f'); reflexivity.
Qed.

(** The removal schedule after a frame of a running round in which no
    iceberg is hit. *)
Lemma loop_removals (e : TickEnv) (s : State) :
  phaseRef s = running ->
  let s1 := advance (te_ts e) s in
  let c := frame_contact (te_ts e) s1 in
  let base := frame_base c (obstaclesRef s1) in
  (forall o, c <> hazard_hit o) ->
  removalScheduledRef (loop e s)
  = scheduleRemovals
      (if frame_spawned c s1 then base ++ [frame_new e s1] else base)
      (removalScheduledRef s)
  /\ sweepPending (loop e s) = sweepPending s.
Proof.
  intros R. cbv zeta.
  pose proof (loop_no_contact e s R) as LN.
  pose proof (fun o => loop_safe e s o R) as LS.
  assert (A1 : removalScheduledRef (advance (te_ts e) s)
               = removalScheduledRef s) by reflexivity.
  assert (A2 : sweepPending (advance (te_ts e) s) = sweepPending s)
    by reflexivity.
  revert LN LS A1 A2. generalize (advance (te_ts e) s).
  intros s1 LN LS A1 A2 NH.
  pose proof (fun s2 f => proj2 (frame_finish_hits s2 f)) as H.
  pose proof frame_finish_sweep as W.
  unfold frame_spawned, frame_new.
  destruct (frame_contact (te_ts e) s1) as [|o|o] eqn:C;
    [| |elim (NH o); reflexivity]; cbn [is_safe_hit frame_base].
  - rewrite (LN eq_refl), frame_spawns_eq. unfold replaces. cbn [andb orb].
    destruct (cadences (spawnAccumRef s1) (obstaclesRef s1)).
    + rewrite H, W, spawn_eq. cbn [fst snd updated]. rewrite <- A1, <- A2.
      split; reflexivity.
    + rewrite H, W. cbn [updated]. rewrite <- A1, <- A2. split; reflexivity.
  - rewrite (LS o eq_refl), frame_spawns_eq.
    change (spawnAccumRef (safeHit o s1)) with (spawnAccumRef s1).
    destruct (replaces true (mark_breaking o (obstaclesRef s1))); cbn [orb].
    + rewrite H, W, spawn_eq. cbn [fst snd updated]. rewrite <- A1, <- A2.
      split; reflexivity.
    + destruct (cadences (spawnAccumRef s1)
                  (mark_breaking o (obstaclesRef s1))).
      * rewrite H, W, spawn_eq. cbn [fst snd updated]. rewrite <- A1, <- A2.
        split; reflexivity.
      * rewrite H, W. cbn [updated]. rewrite <- A1, <- A2. split; reflexivity.
Qed.

Lemma commit_removal_ok (s : State) : removal_ok s -> removal_ok (commit s).
Proof.
  pose proof (commit_world s) as W. unfold world_cells in W.
  assert (Wr : removalScheduledRef (commit s) = removalScheduledRef s)
    by congruence.
  assert (Wo : obstacles (commit s) = obstacles s) by congruence.
  assert (Ws : sweepPending (commit s) = sweepPending s) by congruence.
  unfold removal_ok. rewrite Wr, Wo, Ws. intro K. exact K.
Qed.

Lemma idle_not_breaking (o : Obstacle) :
  is_idle (ob_state o) = true -> ob_state o = ob_breaking -> False.
Proof. intros I B. rewrite B in I. discriminate. Qed.

Lemma handle_removal_ok (ev : Event) (s : State) :
  synced s -> removal_ok s -> removal_ok (handle ev s).
Proof.
  intros Sy K.
  destruct ev as [laneW b|v| | | | | | |e|e| |id].
  10: { (* ev_frame *)
    cbn [handle]. destruct (rafRef s); [|exact K].
    destruct (Phase_eqb (phaseRef s) running) eqn:E.
    - apply Phase_eqb_eq in E.
      destruct (frame_contact (te_ts e) (advance (te_ts e) s)) as [|o|o] eqn:C.
      1,2: assert (NH : forall h,
                     frame_contact (te_ts e) (advance (te_ts e) s)
                     <> hazard_hit h) by (rewrite C; discriminate);
        destruct (loop_frame e s Sy E NH) as (_ & Lo & _);
        destruct (loop_removals e s E NH) as (Lr & _);
        destruct K as (K1 & _);
        unfold removal_ok; rewrite Lo, Lr; unfold frame_obstacles;
        match goal with |- context [scheduleRemovals ?u _] =>
          destruct (scheduleRemovals_spec u _ K1) as (S1 & _ & S3) end;
        (split; [exact S1|]); intros _ a I St;
        apply filter_In in I as (I & _); now apply S3.
      rewrite (loop_hazard e s o E C). revert K. clear. open_cells s.
      unfold removal_ok. cells. intro K.
      destruct (Qlt_bool (te_crash e) (5 # 100)); cells;
        [destruct c_hasCashedRef|]; cells; exact K.
    - rewrite loop_not_running; [exact K|].
      intro F. rewrite F in E. discriminate. }
  9: { (* ev_round_begin *)
    cbn [handle]. destruct (startPending s) as [stake|] eqn:P; [|exact K].
    destruct (roundBegin_obstacles stake e (set_startPending None s))
      as (Ro & _).
    destruct (roundBegin_lane stake e (set_startPending None s))
      as (_ & Rr & Rs).
    unfold removal_ok. rewrite Ro, Rr, Rs.
    change (removalScheduledRef (set_startPending None s))
      with (removalScheduledRef s).
    destruct K as (K1 & _). split; [exact K1|].
    intros _ o [<-|[<-|[]]] St; discriminate St. }
  all: revert Sy K; open_cells s;
    unfold synced, removal_ok; cells;
    intros (Sa & Sh & Sj & Sp & Sc & So) (K1 & K2); subst.
  8: { (* ev_bet_timeout *)
       destruct c_betTimeoutRef as [c|]; cells; [|split; assumption].
       repeat (case_if; cells); (split; [assumption|]);
         assumption || discriminate. }
  8: { (* ev_sweep *)
       case_if_eq Ew; cells; [|split; assumption].
       split; [assumption|]. intros _ o I St.
       apply filter_In in I as (_ & I).
       elim (idle_not_breaking o I St). }
  8: { (* ev_removal *)
       case_if_eq Er; cells; [|split; assumption].
       split; [now apply NoDup_filter|]. intros W o I St.
       apply filter_In in I as (I & D). apply filter_In.
       split; [now apply K2|].
       apply negb_true_iff in D. apply negb_true_iff.
       apply String.eqb_neq in D. apply String.eqb_neq. exact D. }
  all: repeat (case_if; cells); split; assumption.
Qed.

Lemma run_removal_ok (evs : list Event) : removal_ok (run evs init).
Proof.
  induction evs as [|ev evs IH] using rev_ind.
  - split; [constructor|]. intros _ o [].
  - rewrite run_snoc. unfold step. apply commit_removal_ok.
    apply handle_removal_ok; [apply run_synced|exact IH].
Qed.

(** X20.  The removal schedule never holds an id twice.  Unless the sweep
    of [startRound] is pending, every breaking obstacle of the list has
    its removal scheduled; and the removal timer of a scheduled id takes
    the obstacles with this id, and only them, out of the list and the id
    out of the schedule. *)
Theorem breaking_ice_is_scheduled (evs : list Event) :
  let s := run evs init in
  NoDup (removalScheduledRef s)
  /\ (sweepPending s = false ->
      forall o, In o (obstacles s) -> ob_state o = ob_breaking ->
        In (ob_id o) (removalScheduledRef s))
  /\ (forall id, In id (removalScheduledRef s) ->
        let s' := step (ev_removal id) s in
        obstacles s'
        = filter (fun k => negb (String.eqb (ob_id k) id)) (obstacles s)
        /\ ~ In id (removalScheduledRef s')).
Proof.
  cbv zeta. destruct (run_removal_ok evs) as (K1 & K2).
  split; [exact K1|]. split; [exact K2|].
  intros id I. unfold step.
  pose proof (commit_world (handle (ev_removal id) (run evs init))) as W.
  unfold world_cells in W.
  assert (Wr : removalScheduledRef
                 (commit (handle (ev_removal id) (run evs init)))
               = removalScheduledRef (handle (ev_removal id) (run evs init)))
    by congruence.
  assert (Wo : obstacles (commit (handle (ev_removal id) (run evs init)))
               = obstacles (handle (ev_removal id) (run evs init)))
    by congruence.
  rewrite Wr, Wo. clear W Wr Wo.
  pose proof (run_synced evs) as (_ & _ & _ & _ & _ & So).
  revert I So. generalize (run evs init). clear. intros s I So.
  cbn [handle]. rewrite (proj2 (existsb_id id _) I).
  cbn [obstacles removalScheduledRef set_removalScheduledRef commitObstacles
       set_obstacles set_obstaclesRef].
  rewrite So. split; [reflexivity|].
  intro F. apply filter_In in F as (_ & F).
  rewrite String.eqb_refl in F. discriminate.
Qed.

(** ** The collision loop *)

Lemma collide_cons ts scroll shipLeft shipRightNow o rest :
  collide ts scroll shipLeft shipRightNow (o :: rest)
  = if hits ts scroll shipLeft shipRightNow o
    then if ob_iceberg o then hazard_hit o else safe_hit o
    else collide ts scroll shipLeft shipRightNow rest.
Proof.
  cbn [collide]. unfold hits.
  destruct (is_idle (ob_state o)); cbn [negb andb]; [|reflexivity].
  destruct (negb (fresh ts o) && contact scroll shipLeft shipRightNow o);
    reflexivity.
Qed.

(** X21.  The collision loop of a frame reports the first obstacle of the
    list that is idle, at least 250 ms old and in contact with the ship,
    and none when there is no such obstacle; the obstacle is an iceberg
    exactly when the loop reports a crash.  Obstacles behind the first one
    are not looked at. *)
Theorem collision_loop_first (ts scroll shipLeft shipRightNow : Q)
    (prev : list Obstacle) :
  let hit := hits ts scroll shipLeft shipRightNow in
  let c := collide ts scroll shipLeft shipRightNow prev in
  (c = no_contact <-> forall o, In o prev -> hit o = false)
  /\ (forall o,
        c = safe_hit o \/ c = hazard_hit o ->
        exists l1 l2,
          prev = l1 ++ o :: l2
          /\ (forall a, In a l1 -> hit a = false)
          /\ hit o = true
          /\ 250 <= ts - ob_bornAt o
          /\ (ob_iceberg o = true <-> c = hazard_hit o)
          /\ forall l3,
               collide ts scroll shipLeft shipRightNow (l1 ++ o :: l3) = c).
Proof.
  cbv zeta. induction prev as [|a prev (IH1 & IH2)].
  - split.
    + split; [intros _ o []|reflexivity].
    + intros o [F|F]; discriminate F.
  - rewrite collide_cons.
    destruct (hits ts scroll shipLeft shipRightNow a) eqn:H.
    + split.
      * split.
        -- destruct (ob_iceberg a); discriminate.
        -- intro F. specialize (F a (or_introl eq_refl)). congruence.
      * intros o E.
        assert (Eo : o = a).
        { destruct (ob_iceberg a); destruct E as [E|E]; congruence. }
        subst o. exists [], prev. cbn [app].
        split; [reflexivity|]. split; [intros x []|]. split; [exact H|].
        split.
        { unfold hits in H. apply andb_true_iff in H as (H & _).
          apply andb_true_iff in H as (_ & H). apply negb_true_iff in H.
          unfold fresh in H. now apply Qlt_bool_false in H. }
        split.
        { destruct (ob_iceberg a); split; congruence. }
        intro l3. rewrite collide_cons, H. reflexivity.
    + split.
      * rewrite IH1. split.
        -- intros F o [<-|I]; [exact H|now apply F].
        -- intros F o I. apply F. now right.
      * intros o E. destruct (IH2 o E) as (l1 & l2 & P & F & Ho & B & Ic & T).
        exists (a :: l1), l2. cbn [app]. split; [now rewrite P|].
        split; [intros x [<-|I]; [exact H|now apply F]|].
        split; [exact Ho|]. split; [exact B|]. split; [exact Ic|].
        intro l3. rewrite collide_cons, H. apply T.
Qed.

(** ** Layout readiness *)

Lemma layout_step_ok (ev : LayoutEvent) (p : Page) :
  layout_ok p -> layout_ok (layout_step ev p).
Proof.
  destruct p as [g sl mr r]. unfold layout_ok.
  cbn [game shipLoadedRef measuredReadyRef ready].
  intros (-> & w & b & ->).
  destruct ev as [[[[cw [ll lr lw]]|] [[sx sr sw]|]]
                 |[[[cw [ll lr lw]]|] [[sx sr sw]|]]|];
    unfold layout_step, layout_handle, shipLoaded, measure, setReady;
    cbn [game shipLoadedRef measuredReadyRef ready dom_lane dom_ship
         lane_rect clientWidth rect_left rect_right rect_width];
    try (destruct (Qlt_bool 0 sw && Qlt_bool 0 lw));
    destruct sl, mr;
    first [layout_case cw (mkBounds (sx - ll) (sr - ll))
          |layout_case cw b
          |layout_case w b].
Qed.

Lemma layout_run_ok (evs : list LayoutEvent) :
  layout_ok (layout_run evs page_init).
Proof.
  unfold layout_run. induction evs as [|ev evs IH] using rev_ind.
  - split; [reflexivity|]. exists 980, (mkBounds 10 150). reflexivity.
  - rewrite fold_left_app. cbn [fold_left]. now apply layout_step_ok.
Qed.

(** X22.  Whatever the layout events (calls of [measure], the load of the
    ship image, the timer of the mount effect), the page is ready exactly
    when the image has loaded and a measurement has found the ship and the
    lane with positive widths; the game cells are then those after the
    readiness event of the game, and before that the initial ones, but for
    the lane width and the ship bounds measured last.  So the first betting
    window opens exactly when the page gets ready, once, and the mount
    timer never opens it. *)
Theorem layout_gate (evs : list LayoutEvent) :
  let p := layout_run evs page_init in
  ready p = shipLoadedRef p && measuredReadyRef p
  /\ (exists w b,
        game p
        = set_shipBoundsRef b
            (set_laneWidthRef w
               (if ready p then step (ev_ready 980 (mkBounds 10 150)) init
                else init)))
  /\ phase (game p) = (if ready p then betting else idle)
  /\ startedRef (game p) = ready p
  /\ layout_step le_mount_timer p = p.
Proof.
  cbv zeta. destruct (layout_run_ok evs) as (R & w & b & G).
  revert R G. generalize (layout_run evs page_init). intros p R G.
  split; [exact R|]. split; [exists w, b; exact G|].
  destruct p as [g sl mr r]. cbn [game shipLoadedRef measuredReadyRef ready] in *.
  subst g. clear R.
  destruct r; (split; [vm_compute; reflexivity|]);
    (split; [vm_compute; reflexivity|]); vm_compute; reflexivity.
Qed.

(** ** The pending callbacks *)

Lemma init_live_ok : live_ok init.
Proof.
  unfold live_ok, init. cbn.
  split; [split; discriminate|]. split; [discriminate|].
  intros _. repeat split.
Qed.

Lemma init_flags_ok : flags_ok init.
Proof. unfold flags_ok, init. cbn. split; discriminate. Qed.

Lemma commit_rafRef (s : State) :
  rafRef (commit s) = if round_over s then false else rafRef s.
Proof.
  destruct (round_over s) eqn:E.
  - rewrite commit_over by assumption. reflexivity.
  - rewrite commit_going by assumption. reflexivity.
Qed.

Lemma commit_startedRef (s : State) : startedRef (commit s) = startedRef s.
Proof.
  pose proof (commit_world s) as W. unfold world_cells in W. congruence.
Qed.

Lemma commit_live_ok (s : State) : live_ok s -> live_ok (commit s).
Proof.
  unfold live_ok.
  rewrite commit_rafRef, commit_phase, commit_betTimeoutRef,
    commit_startPending, commit_startedRef.
  unfold round_over. intros (A & B & C).
  destruct (phase s); try exact (conj A (conj B C)).
  - split; [split; discriminate|]. split; [|discriminate].
    intros _. left. discriminate.
  - split; [split; discriminate|]. split; [|discriminate].
    intros _. left. discriminate.
Qed.

Lemma commit_flags_ok (s : State) : flags_ok s -> flags_ok (commit s).
Proof.
  unfold flags_ok.
  rewrite commit_hasCashed, commit_joined.
  destruct (round_over s) eqn:O; [intros _; split; discriminate|].
  rewrite (round_over_same s (commit s)), O.
  - rewrite commit_phase, O. intro K. exact K.
  - rewrite commit_phase, O. reflexivity.
Qed.

Lemma frame_finish_raf (sf : State * Frame) : rafRef (frame_finish sf) = true.
Proof.
  destruct sf as [s f]. unfold frame_finish.
  destruct (cull _) as [s' f']. destruct (needCommit f'); reflexivity.
Qed.

Lemma loop_raf (e : TickEnv) (s : State) :
  (forall o, frame_contact (te_ts e) (advance (te_ts e) s) <> hazard_hit o) ->
  rafRef (loop e s) = true.
Proof.
  intro N.
  destruct (Phase_eqb (phaseRef s) running) eqn:E.
  - apply Phase_eqb_eq in E.
    destruct (frame_contact (te_ts e) (advance (te_ts e) s)) as [|o|o] eqn:C.
    + rewrite (loop_no_contact e s E C). apply frame_finish_raf.
    + rewrite (loop_safe e s o E C). apply frame_finish_raf.
    + elim (N o). reflexivity.
  - rewrite loop_not_running; [reflexivity|].
    intro F. rewrite F in E. discriminate.
Qed.

Lemma roundBegin_raf (stake : Q) (e : BeginEnv) (s : State) :
  rafRef (roundBegin stake e s) = true.
Proof. apply (roundBegin_obstacles stake e s). Qed.

Lemma handle_live_ok (ev : Event) (s : State) :
  synced s -> timers_ok s -> live_ok s -> live_ok (handle ev s).
Proof.
  intros Sy T K.
  destruct ev as [laneW b|v| | | | | | |e|e| |id].
  10: { (* ev_frame *)
    cbn [handle]. destruct (rafRef s) eqn:R; [|exact K].
    destruct K as (K1 & K2 & K3).
    pose proof (proj1 K1 R) as P.
    assert (E : phaseRef s = running).
    { destruct Sy as (_ & _ & _ & Sp & _). congruence. }
    destruct (frame_contact (te_ts e) (advance (te_ts e) s)) as [|o|o] eqn:C.
    1,2: assert (NH : forall h,
                   frame_contact (te_ts e) (advance (te_ts e) s)
                   <> hazard_hit h) by (rewrite C; discriminate);
      pose proof (loop_ledger e s NH) as L;
      pose proof (loop_raf e s NH) as Lr;
      unfold ledger_cells in L;
      assert (Lp : phase (loop e s) = phase s) by congruence;
      unfold live_ok; rewrite Lr, Lp, P;
      (split; [split; reflexivity|]); split; discriminate.
    rewrite (loop_hazard e s o E C). clear. open_cells s.
    unfold live_ok. cells.
    destruct (Qlt_bool (te_crash e) (5 # 100)); cells;
      [destruct c_hasCashedRef|]; cells;
      (split; [split; discriminate|]); split; discriminate. }
  9: { (* ev_round_begin *)
    cbn [handle]. destruct (startPending s) as [stake|] eqn:P; [|exact K].
    destruct (roundBegin_cells stake e (set_startPending None s))
      as (R1 & _).
    unfold live_ok. rewrite R1, roundBegin_raf.
    split; [split; reflexivity|]. split; discriminate. }
  all: revert Sy T K; open_cells s;
    unfold synced, timers_ok, timers_pre, live_ok; cells;
    intros (Sa & Sh & Sj & Sp & Sc & So) ((N & T1 & T2) & O) (K1 & K2 & K3);
    subst.
  8: { (* ev_bet_timeout *)
       destruct c_betTimeoutRef as [c|]; cells;
         [|exact (conj K1 (conj K2 K3))].
       destruct (T1 c eq_refl) as (Pb & _). subst.
       case_if_eq Eb; cells.
       - split; [split; discriminate|]. split; [|discriminate].
         intros _. left. discriminate.
       - cbn [Phase_eqb]. split.
         + split; discriminate.
         + split; [|discriminate]. intros _. right. discriminate. }
  - (* ev_ready *)
    case_if_eq Ed; cells; [|exact (conj K1 (conj K2 K3))].
    split; [split; discriminate|]. split; [|discriminate].
    intros _. left. discriminate.
  - case_if; cells; exact (conj K1 (conj K2 K3)).
  - case_if; cells; exact (conj K1 (conj K2 K3)).
  - case_if; cells; exact (conj K1 (conj K2 K3)).
  - repeat (case_if; cells); exact (conj K1 (conj K2 K3)).
  - repeat (case_if; cells); exact (conj K1 (conj K2 K3)).
  - repeat (case_if; cells); exact (conj K1 (conj K2 K3)).
  - case_if; cells; exact (conj K1 (conj K2 K3)).
  - case_if; cells; exact (conj K1 (conj K2 K3)).
Qed.

Lemma run_live_ok (evs : list Event) : live_ok (run evs init).
Proof.
  induction evs as [|ev evs IH] using rev_ind.
  - apply init_live_ok.
  - rewrite run_snoc. unfold step. apply commit_live_ok.
    apply handle_live_ok; [apply run_synced|apply run_timers|exact IH].
Qed.

Lemma handle_flags_ok (ev : Event) (s : State) :
  synced s -> timers_ok s -> flags_ok s -> flags_ok (handle ev s).
Proof.
  intros Sy T K.
  destruct ev as [laneW b|v| | | | | | |e|e| |id].
  10: { (* ev_frame *)
    cbn [handle]. destruct (rafRef s) eqn:R; [|exact K].
    destruct (Phase_eqb (phaseRef s) running) eqn:E.
    - apply Phase_eqb_eq in E.
      destruct (frame_contact (te_ts e) (advance (te_ts e) s)) as [|o|o] eqn:C.
      1,2: assert (NH : forall h,
                     frame_contact (te_ts e) (advance (te_ts e) s)
                     <> hazard_hit h) by (rewrite C; discriminate);
        pose proof (loop_ledger e s NH) as L;
        unfold ledger_cells in L;
        assert (Lp : phase (loop e s) = phase s) by congruence;
        assert (Lh : hasCashed (loop e s) = hasCashed s) by congruence;
        assert (Lj : joined (loop e s) = joined s) by congruence;
        unfold flags_ok; rewrite Lh, Lj, (round_over_same s _ Lp), Lp;
        exact K.
      rewrite (loop_hazard e s o E C).
      revert K. clear. open_cells s.
      unfold flags_ok, round_over. cells. intros (K1 & K2).
      destruct (Qlt_bool (te_crash e) (5 # 100)); cells;
        [destruct c_hasCashedRef|]; cells;
        (split; [intro H; split; [apply (K1 H)|right; reflexivity]
                |intros _; right; right; reflexivity]).
    - rewrite loop_not_running; [exact K|].
      intro F. rewrite F in E. discriminate. }
  9: { (* ev_round_begin *)
    cbn [handle]. destruct (startPending s) as [stake|] eqn:P; [|exact K].
    destruct (roundBegin_cells stake e (set_startPending None s))
      as (R1 & _ & R3 & _ & R5 & _).
    unfold flags_ok. rewrite R3, R5, R1.
    split; [discriminate|]. intros _. right. left. reflexivity. }
  all: revert Sy T K; open_cells s;
    unfold synced, timers_ok, timers_pre, flags_ok, round_over; cells;
    intros (Sa & Sh & Sj & Sp & Sc & So) ((N & T1 & T2) & O) (K1 & K2);
    subst.
  8: { (* ev_bet_timeout *)
       destruct c_betTimeoutRef as [c|]; cells; [|exact (conj K1 K2)].
       destruct (T1 c eq_refl) as (Pb & _). subst.
       repeat (case_if; cells); first [exact (conj K1 K2)|split; discriminate]. }
  - (* ev_ready *)
    case_if; cells; [split; discriminate|exact (conj K1 K2)].
  - case_if; cells; exact (conj K1 K2).
  - case_if; cells; exact (conj K1 K2).
  - case_if; cells; exact (conj K1 K2).
  - (* placeBet *)
    case_if_eq Eb; cells; [exact (conj K1 K2)|].
    apply negb_false_iff, Phase_eqb_eq in Eb. subst.
    case_if; cells; [exact (conj K1 K2)|].
    split; [|intros _; left; reflexivity].
    intro H. destruct (K1 H) as (_ & [F|F]); discriminate F.
  - (* cancelBet *)
    case_if_eq Eb; cells; [exact (conj K1 K2)|].
    apply negb_false_iff, Phase_eqb_eq in Eb. subst.
    case_if; cells; [exact (conj K1 K2)|].
    split; [|discriminate].
    intro H. destruct (K1 H) as (_ & [F|F]); discriminate F.
  - (* cashOutNow *)
    case_if_eq Er; cells; [exact (conj K1 K2)|].
    apply negb_false_iff, Phase_eqb_eq in Er. subst.
    case_if_eq Ej; cells; [exact (conj K1 K2)|].
    apply negb_false_iff in Ej. subst.
    case_if; cells; [exact (conj K1 K2)|].
    split; intros _; [split; [reflexivity|left; reflexivity]
                     |right; left; reflexivity].
  - case_if; cells; exact (conj K1 K2).
  - case_if; cells; exact (conj K1 K2).
Qed.

Lemma run_flags_ok (evs : list Event) : flags_ok (run evs init).
Proof.
  induction evs as [|ev evs IH] using rev_ind.
  - apply init_flags_ok.
  - rewrite run_snoc. unfold step. apply commit_flags_ok.
    apply handle_flags_ok; [apply run_synced|apply run_timers|exact IH].
Qed.

(** X23.  In every state of a run some callback is pending unless the
    game has not started: a frame callback is requested exactly while a
    round runs; in the betting window either the 5-second timer is armed or
    the continuation of [startRound] is waiting for the ship animation,
    never both; in the idle phase nothing is pending. *)
Theorem callbacks_pending (evs : list Event) :
  let s := run evs init in
  (rafRef s = true <-> phase s = running)
  /\ (phase s = betting ->
      (betTimeoutRef s <> None /\ startPending s = None)
      \/ (betTimeoutRef s = None /\ startPending s <> None))
  /\ (phase s <> betting -> betTimeoutRef s = None /\ startPending s = None)
  /\ (phase s = idle -> startedRef s = false).
Proof.
  cbv zeta. destruct (run_live_ok evs) as (K1 & K2 & K3).
  destruct (run_timers evs) as ((_ & T1 & T2) & _).
  split; [exact K1|]. split; [|split].
  - intro P. destruct (betTimeoutRef (run evs init)) as [c|] eqn:B.
    + left. split; [discriminate|]. apply (T1 c eq_refl).
    + right. split; [reflexivity|].
      destruct (K2 P) as [F|F]; [elim F; reflexivity|exact F].
  - intro P. split.
    + destruct (betTimeoutRef (run evs init)) as [c|] eqn:B; [|reflexivity].
      destruct (T1 c eq_refl) as (F & _). contradiction.
    + destruct (startPending (run evs init)) as [k|] eqn:B; [|reflexivity].
      destruct (T2 k eq_refl) as (F & _). contradiction.
  - intro P. apply (K3 P).
Qed.

(** X24.  The one-shot cash-out guard is set only in a running round of a
    joined player; a player is joined only in the betting window or in a
    running round, and only a joined player has a locked stake. *)
Theorem flags_consistent (evs : list Event) :
  let s := run evs init in
  (hasCashed s = true -> phase s = running /\ joined s = true)
  /\ (joined s = true -> phase s = betting \/ phase s = running)
  /\ (joined s = false -> activeBet s = None /\ payoutPreview s == 0).
Proof.
  cbv zeta. destruct (run_flags_ok evs) as (K1 & K2).
  destruct (run_timers evs) as (_ & O).
  destruct (run_stake_ok evs) as (_ & S2).
  rewrite O in K1, K2. split; [|split].
  - intro H. destruct (K1 H) as (J & [P|F]); [|discriminate F].
    split; assumption.
  - intro J. destruct (K2 J) as [P|[P|F]]; [left|right|discriminate F];
      exact P.
  - intro J. split; [exact (S2 J)|]. unfold payoutPreview. rewrite J. ring.
Qed.

Lemma all_breaking (l : list Obstacle) :
  Forall (fun o => ob_state o = ob_breaking) (map set_breaking l).
Proof. induction l as [|a l IH]; constructor; [reflexivity|exact IH]. Qed.

(** X25.  When the betting timer fires with a balance of at least 1, the
    round always starts: the timer is disarmed, every obstacle of the lane
    is marked breaking and the sweep is scheduled, a stake between 1 and
    the balance waits with the continuation, and the continuation puts the
    game in the running phase with the frame callback requested, two idle
    obstacles and the collected multiplier 1. *)
Theorem round_starts_when_solvent (evs : list Event) (c : Closure)
    (e : BeginEnv) :
  let s := run evs init in
  betTimeoutRef s = Some c -> 1 <= balance s ->
  let s1 := step ev_bet_timeout s in
  let s2 := step (ev_round_begin e) s1 in
  phase s1 = betting /\ betTimeoutRef s1 = None /\ sweepPending s1 = true
  /\ Forall (fun o => ob_state o = ob_breaking) (obstacles s1)
  /\ (exists k, startPending s1 = Some k /\ 1 <= k /\ k <= balance s)
  /\ phase s2 = running /\ rafRef s2 = true
  /\ idle_count (obstacles s2) = 2%nat /\ collected s2 = 1.
Proof.
  cbv zeta. intros B L.
  pose proof (run_synced evs) as Sy.
  pose proof (run_timers evs) as T.
  destruct (T) as ((_ & T1 & _) & _).
  destruct (T1 c B) as (P & _ & Cb).
  assert (Lc : 1 <= cl_balance c) by (rewrite Cb; exact L).
  pose proof (step_bet_timeout_go _ c Sy B P Lc) as E1.
  pose proof (step_synced ev_bet_timeout (run evs init)) as Sy1.
  pose proof (step_timers ev_bet_timeout _ Sy T) as ((_ & _ & T2') & _).
  revert E1 Sy1 T2'. generalize (step ev_bet_timeout (run evs init)).
  revert P. generalize (run evs init). clear. intros s P s1 E1 Sy1 T2.
  set (k := if joined s && Qlt_bool 0 (activeBetRef s)
            then clamp (activeBetRef s) 1 (cl_balance c)
            else clamp (cl_bet c) 1 (cl_balance c)) in E1.
  assert (P1 : phase s1 = betting) by (rewrite E1; exact P).
  assert (B1 : betTimeoutRef s1 = None) by (rewrite E1; reflexivity).
  assert (W1 : sweepPending s1 = true) by (rewrite E1; reflexivity).
  assert (O1 : obstacles s1 = map set_breaking (obstacles s))
    by (rewrite E1; reflexivity).
  assert (Q1 : startPending s1 = Some k) by (rewrite E1; reflexivity).
  assert (C1 : balance s1 = balance s) by (rewrite E1; reflexivity).
  destruct (T2 k Q1) as (_ & K1 & K2). rewrite C1 in K2.
  destruct (round_begin_step e k s1 Sy1 Q1) as (R1 & R2 & R3 & _).
  assert (R4 : collected (step (ev_round_begin e) s1) = 1).
  { unfold step. rewrite commit_collected. cbn [handle]. rewrite Q1.
    apply (roundBegin_cells k e (set_startPending None s1)). }
  split; [exact P1|]. split; [exact B1|]. split; [exact W1|].
  split; [rewrite O1; apply all_breaking|].
  split; [exists k; split; [exact Q1|split; assumption]|].
  split; [exact R1|]. split; [exact R2|]. split; [exact R3|exact R4].
Qed.

Lemma round_starts_when_solvent_witness :
  let s := run [ev_ready 980 (mkBounds 24 354)] init in
  phase (step (ev_round_begin scenario_draws) (step ev_bet_timeout s))
  = running.
Proof.
  cbv zeta.
  destruct (round_starts_when_solvent [ev_ready 980 (mkBounds 24 354)]
              (mkClosure 1000 10) scenario_draws)
    as (_ & _ & _ & _ & _ & R & _).
  - vm_compute. reflexivity.
  - vm_compute. discriminate.
  - exact R.
Defined.
